(** * logger.hpp: a shallow embedding of the console logger and its widgets

    The header keeps two process-wide objects (a mutex and an 8-bit padding
    counter), writes to the Windows console through [printf] and
    [SetConsoleTextAttribute], and offers three scoped helpers: a padding
    extender, a spinner and a progress bar.  Everything observable is kept in
    a [world] record; functions of the header become computations in a small
    monad that can return, stop at a debugger trap, or be undefined. *)

From Stdlib Require Import ZArith QArith Qround Qpower List String Ascii Bool Lia Lqa.
From Stdlib Require Import Sorted SpecFloat.
Import ListNotations.

Local Open Scope Z_scope.

(** ** Machine integers *)

Definition to_uint8 (z : Z) : Z := z mod 256.
Definition to_uint32 (z : Z) : Z := z mod 2 ^ 32.
Definition to_int32 (z : Z) : Z := (z + 2 ^ 31) mod 2 ^ 32 - 2 ^ 31.

Definition INT_MIN : Z := - 2 ^ 31.
Definition INT_MAX : Z := 2 ^ 31 - 1.
Definition int_range (z : Z) : Prop := INT_MIN <= z <= INT_MAX.

(** ** Characters and strings written to the terminal *)

Definition CR : ascii := ascii_of_nat 13.
Definition LF : ascii := ascii_of_nat 10.
Definition SP : ascii := ascii_of_nat 32.

Definition char_of_Z (z : Z) : ascii := ascii_of_N (Z.to_N (z mod 256)).

Fixpoint string_of_chars (l : list ascii) : string :=
  match l with
  | [] => EmptyString
  | c :: l' => String c (string_of_chars l')
  end.

Definition spaces (n : nat) : string := string_of_chars (repeat SP n).

Fixpoint take (n : nat) (s : string) : string :=
  match n, s with
  | O, _ => EmptyString
  | S _, EmptyString => EmptyString
  | S n', String c s' => String c (take n' s')
  end.

(** Whether a character occurs in a string. *)
Fixpoint occurs (c : ascii) (s : string) : bool :=
  match s with
  | EmptyString => false
  | String c' s' => Ascii.eqb c c' || occurs c s'
  end.

(** Columns a text covers on one terminal line: a carriage return moves the
    cursor back to the first column, any other character fills the column
    under the cursor and moves it right. *)
Fixpoint columns (s : string) (cursor width : nat) : nat :=
  match s with
  | EmptyString => width
  | String c s' =>
      if Ascii.eqb c CR then columns s' 0 width
      else columns s' (S cursor) (Nat.max width (S cursor))
  end.

Definition visible_width (s : string) : nat := columns s 0 0.

(** What one terminal line shows.  [put] writes a character into the cell
    under the cursor (cells to its left that were never written show as
    blanks); [show] writes a text: a carriage return moves the cursor back to
    the first column and changes no cell, any other character is put under
    the cursor, which then moves right. *)
Fixpoint put (line : list ascii) (cursor : nat) (c : ascii) : list ascii :=
  match cursor, line with
  | O, [] => [c]
  | O, _ :: rest => c :: rest
  | S n, [] => SP :: put [] n c
  | S n, x :: rest => x :: put rest n c
  end.

Fixpoint show (s : string) (cursor : nat) (line : list ascii) : list ascii * nat :=
  match s with
  | EmptyString => (line, cursor)
  | String c s' =>
      if Ascii.eqb c CR then show s' 0 line
      else show s' (S cursor) (put line cursor c)
  end.

(** The line after [s] is written on an empty line. *)
Definition shown (s : string) : list ascii := fst (show s 0 []).

(** Decimal digits of a non-negative number, most significant first; [fuel]
    bounds the number of digits (an [int] has at most ten). *)
Definition digit (d : Z) : ascii := ascii_of_N (Z.to_N (48 + d)).

Fixpoint decimal (fuel : nat) (n : Z) : string :=
  match fuel with
  | O => EmptyString
  | S fuel' =>
      append (if n <? 10 then EmptyString else decimal fuel' (n / 10))
             (String (digit (n mod 10)) EmptyString)
  end.

(** What [%d] prints for an [int]. *)
Definition string_of_Z (z : Z) : string :=
  if z <? 0 then String "-" (decimal 10 (- z)) else decimal 10 z.

(** ** The C library's [printf], for the conversions the header uses

    [%%], [%d], [%c] and [%s], each with an optional [*] width and, for
    [%s], an optional [.*] precision, both taken from the argument list.
    Any other directive is outside the fragment and yields [None]. *)

Inductive printf_arg : Type :=
| PInt (z : Z)
| PStr (s : string).

(** Where the scanner stands inside a conversion specification. *)
Inductive directive : Type :=
| Plain
| DStart
| DWidth (w : Z)
| DDot (w : option Z)
| DPrec (w : option Z) (p : Z).

(** A negative width means left justification in a field of the absolute
    width. *)
Definition justify (w : option Z) (s : string) : string :=
  match w with
  | None => s
  | Some w =>
      if 0 <=? w
      then (spaces (Z.to_nat w - String.length s) ++ s)%string
      else (s ++ spaces (Z.to_nat (- w) - String.length s))%string
  end.

(** A negative precision is taken as if the precision were omitted. *)
Definition truncate (p : option Z) (s : string) : string :=
  match p with
  | None => s
  | Some p => if 0 <=? p then take (Z.to_nat p) s else s
  end.

Definition convert (c : ascii) (w p : option Z) (args : list printf_arg)
  : option (string * list printf_arg) :=
  if Ascii.eqb c "d" then
    match p, args with
    | None, PInt z :: args' => Some (justify w (string_of_Z z), args')
    | _, _ => None
    end
  else if Ascii.eqb c "c" then
    match p, args with
    | None, PInt z :: args' => Some (justify w (String (char_of_Z z) ""), args')
    | _, _ => None
    end
  else if Ascii.eqb c "s" then
    match args with
    | PStr s :: args' => Some (justify w (truncate p s), args')
    | _ => None
    end
  else None.

Fixpoint format_from (d : directive) (fmt : string) (args : list printf_arg)
  : option string :=
  match fmt with
  | EmptyString => match d with Plain => Some EmptyString | _ => None end
  | String c fmt' =>
      match d with
      | Plain =>
          if Ascii.eqb c "%" then format_from DStart fmt' args
          else option_map (String c) (format_from Plain fmt' args)
      | DStart =>
          if Ascii.eqb c "%" then option_map (String c) (format_from Plain fmt' args)
          else if Ascii.eqb c "*" then
            match args with
            | PInt w :: args' => format_from (DWidth w) fmt' args'
            | _ => None
            end
          else if Ascii.eqb c "." then format_from (DDot None) fmt' args
          else
            match convert c None None args with
            | Some (out, args') => option_map (append out) (format_from Plain fmt' args')
            | None => None
            end
      | DWidth w =>
          if Ascii.eqb c "." then format_from (DDot (Some w)) fmt' args
          else
            match convert c (Some w) None args with
            | Some (out, args') => option_map (append out) (format_from Plain fmt' args')
            | None => None
            end
      | DDot w =>
          if Ascii.eqb c "*" then
            match args with
            | PInt p :: args' => format_from (DPrec w p) fmt' args'
            | _ => None
            end
          else None
      | DPrec w p =>
          match convert c w (Some p) args with
          | Some (out, args') => option_map (append out) (format_from Plain fmt' args')
          | None => None
          end
      end
  end.

(** The text [printf (fmt, args...)] produces. *)
Definition sprintf (fmt : string) (args : list printf_arg) : option string :=
  format_from Plain fmt args.

(** ** The world: console, mutex, padding counter and clock *)

Inductive event : Type :=
| EvAttr (attr : Z)       (* SetConsoleTextAttribute (handle, attr) *)
| EvWrite (text : string) (* the bytes of one printf call *).

Record world : Type := mkWorld {
  handle_valid : bool;      (* GetStdHandle (STD_OUTPUT_HANDLE) is a handle *)
  console_attr : Z;         (* text attribute the console currently applies *)
  console : list event;     (* what reached the console, oldest first *)
  logger_sync : bool;       (* std::mutex, true while locked *)
  logger_padding : Z;       (* std::atomic_uint8_t *)
  clock : nat -> Z;         (* successive readings of the steady clock, in ticks *)
  clock_reads : nat         (* readings consumed so far *)
}.

Definition set_console (w : world) (a : Z) (l : list event) : world :=
  mkWorld (handle_valid w) a l (logger_sync w) (logger_padding w)
          (clock w) (clock_reads w).
Definition emit (w : world) (e : event) : world :=
  set_console w (console_attr w) (console w ++ [e]).
Definition set_sync (w : world) (b : bool) : world :=
  mkWorld (handle_valid w) (console_attr w) (console w) b (logger_padding w)
          (clock w) (clock_reads w).
Definition set_padding (w : world) (p : Z) : world :=
  mkWorld (handle_valid w) (console_attr w) (console w) (logger_sync w) p
          (clock w) (clock_reads w).
Definition tick (w : world) : world :=
  mkWorld (handle_valid w) (console_attr w) (console w) (logger_sync w)
          (logger_padding w) (clock w) (S (clock_reads w)).

(** ** Computations *)

Inductive outcome (A : Type) : Type :=
| Ret (a : A) (w : world)  (* returned [a] *)
| Break (w : world)        (* stopped at a [__debugbreak ()] trap *)
| Undef                    (* undefined behaviour *).
Arguments Ret {A} a w.
Arguments Break {A} w.
Arguments Undef {A}.

Definition M (A : Type) : Type := world -> outcome A.

Definition ret {A} (a : A) : M A := fun w => Ret a w.
Definition bind {A B} (m : M A) (k : A -> M B) : M B :=
  fun w =>
    match m w with
    | Ret a w' => k a w'
    | Break w' => Break w'
    | Undef => Undef
    end.

Declare Scope logger_scope.
Delimit Scope logger_scope with logger.
Notation "x <- m ;; k" := (bind m (fun x => k))
  (at level 61, m at next level, right associativity) : logger_scope.
Notation "m ;; k" := (bind m (fun _ => k))
  (at level 61, right associativity) : logger_scope.
Local Open Scope logger_scope.

Definition debugbreak {A} : M A := fun w => Break w.
Definition undefined {A} : M A := fun _ => Undef.

(** [std::mutex::lock]: locking a mutex the thread already owns is undefined. *)
Definition lock : M unit :=
  fun w => if logger_sync w then Undef else Ret tt (set_sync w true).
(** [std::mutex::unlock]: the mutex must be owned. *)
Definition unlock : M unit :=
  fun w => if logger_sync w then Ret tt (set_sync w false) else Undef.

Definition load_padding : M Z := fun w => Ret (logger_padding w) w.
Definition store_padding (p : Z) : M unit := fun w => Ret tt (set_padding w p).
Definition fetch_add_padding (d : Z) : M Z :=
  fun w => Ret (logger_padding w) (set_padding w (to_uint8 (logger_padding w + d))).

Definition GetStdHandle_valid : M bool := fun w => Ret (handle_valid w) w.
Definition SetConsoleTextAttribute (attr : Z) : M unit :=
  fun w => Ret tt (set_console w attr (console w ++ [EvAttr attr])).

(** [printf] writes the formatted text and returns its length.  The output
    stream is taken to work, and [printf]'s [int] result is this length
    only while it is at most [INT_MAX]: where the text is not bounded by the
    header itself, the statements below carry that bound. *)
Definition printf (fmt : string) (args : list printf_arg) : M Z :=
  fun w =>
    match sprintf fmt args with
    | Some text => Ret (Z.of_nat (String.length text)) (emit w (EvWrite text))
    | None => Undef
    end.

(** [std::chrono::high_resolution_clock::now ()]. *)
Definition now : M Z := fun w => Ret (clock w (clock_reads w)) (tick w).

(** ** win_console_colors *)

(** Foreground bits of a console attribute (wincon.h). *)
Definition FOREGROUND_BLUE : Z := 1.
Definition FOREGROUND_GREEN : Z := 2.
Definition FOREGROUND_RED : Z := 4.
Definition FOREGROUND_INTENSITY : Z := 8.

Inductive win_console_colors : Type :=
| wcon_black | wcon_gray | wcon_white | wcon_red | wcon_green | wcon_blue
| wcon_cyan | wcon_magenta | wcon_yellow | wcon_dark_gray | wcon_dark_red
| wcon_dark_green | wcon_dark_blue | wcon_dark_cyan | wcon_dark_magenta
| wcon_dark_yellow.

Definition color_value (c : win_console_colors) : Z :=
  match c with
  | wcon_black => 0
  | wcon_gray => Z.lor (Z.lor FOREGROUND_RED FOREGROUND_GREEN) FOREGROUND_BLUE
  | wcon_white =>
      Z.lor (Z.lor (Z.lor FOREGROUND_INTENSITY FOREGROUND_RED) FOREGROUND_GREEN)
            FOREGROUND_BLUE
  | wcon_red => Z.lor FOREGROUND_INTENSITY FOREGROUND_RED
  | wcon_green => Z.lor FOREGROUND_INTENSITY FOREGROUND_GREEN
  | wcon_blue => Z.lor FOREGROUND_INTENSITY FOREGROUND_BLUE
  | wcon_cyan => Z.lor (Z.lor FOREGROUND_INTENSITY FOREGROUND_GREEN) FOREGROUND_BLUE
  | wcon_magenta => Z.lor (Z.lor FOREGROUND_INTENSITY FOREGROUND_RED) FOREGROUND_BLUE
  | wcon_yellow => Z.lor (Z.lor FOREGROUND_INTENSITY FOREGROUND_RED) FOREGROUND_GREEN
  | wcon_dark_gray => FOREGROUND_INTENSITY
  | wcon_dark_red => FOREGROUND_RED
  | wcon_dark_green => FOREGROUND_GREEN
  | wcon_dark_blue => FOREGROUND_BLUE
  | wcon_dark_cyan => Z.lor FOREGROUND_GREEN FOREGROUND_BLUE
  | wcon_dark_magenta => Z.lor FOREGROUND_RED FOREGROUND_BLUE
  | wcon_dark_yellow => Z.lor FOREGROUND_RED FOREGROUND_GREEN
  end.

(** ** namespace impl::logger::utils *)

Module utils.

Definition setup_color (clr : win_console_colors) : M unit :=
  ok <- GetStdHandle_valid ;;
  if negb ok then debugbreak
  else SetConsoleTextAttribute (color_value clr).

Definition reset_color : M unit := setup_color wcon_gray.

Fixpoint create_full_filled_array {T : Type} (size : nat) (value : T) : list T :=
  match size with
  | O => []
  | S size' => value :: create_full_filled_array size' value
  end.

End utils.

(** ** log and error *)

Definition log (color : win_console_colors) (format : string)
           (parameters : list printf_arg) : M Z :=
  lock ;;
  let fmt_with_padding := ("%*s" ++ format)%string in
  utils.setup_color color ;;
  pad <- load_padding ;;
  chars_count_ret <- printf fmt_with_padding (PInt pad :: PStr "" :: parameters) ;;
  utils.reset_color ;;
  unlock ;;
  ret (to_uint32 chars_count_ret).

Definition error (format : string) (parameters : list printf_arg) : M unit :=
  log wcon_red format parameters ;;
  debugbreak.

(** ** scopped_padding_extender *)

Module scopped_padding_extender.

Record state : Type := { restore_pad : Z }.

Definition ctor (current_pad : Z) : M state :=
  saved <- load_padding ;;
  fetch_add_padding current_pad ;;
  ret {| restore_pad := saved |}.

Definition dtor (self : state) : M unit :=
  store_padding (restore_pad self).

End scopped_padding_extender.

(** Two guards, the second inside the scope of the first. *)
Definition nested_scopes (p1 p2 : Z) : M unit :=
  g1 <- scopped_padding_extender.ctor p1 ;;
  g2 <- scopped_padding_extender.ctor p2 ;;
  scopped_padding_extender.dtor g2 ;;
  scopped_padding_extender.dtor g1.

(** ** spin_waiter *)

(** Ticks of the steady clock per millisecond (its period is a nanosecond). *)
Definition ticks_per_ms : Z := 1000000.

(** [duration_cast<milliseconds>] truncates toward zero. *)
Definition duration_cast_ms (d : Z) : Z := Z.quot d ticks_per_ms.

Module spin_waiter.

Definition animation : list Z := [92; 124; 47; 196]. (* '\\', '|', '/', 0xC4 *)
Definition sizeof_animation : Z := Z.of_nat (List.length animation).
Definition update_rate_ms : Z := 100.

Record state : Type := {
  sequence : Z;
  last_update_time : Z;
  should_clear_on_release : bool
}.

Definition ctor (t_should_clear_on_release : bool) : M state :=
  lock ;;
  t <- now ;;
  ret {| sequence := 0;
         last_update_time := t;
         should_clear_on_release := t_should_clear_on_release |}.

Definition dtor (self : state) : M unit :=
  printf (if should_clear_on_release self then String CR "" else String LF "") [] ;;
  unlock.

(** The line one redraw writes. *)
Definition frame (pad : Z) (glyph : Z) : string :=
  (spaces (Z.to_nat pad) ++ String (char_of_Z glyph) (String CR ""))%string.

Definition update (self : state) : M state :=
  t <- now ;;
  let delta := duration_cast_ms (t - last_update_time self) in
  if delta <? update_rate_ms then ret self
  else
    let sequence' := to_uint8 ((sequence self + 1) mod sizeof_animation) in
    pad <- load_padding ;;
    printf ("%*s%c" ++ String CR "")
           [PInt pad; PStr ""; PInt (nth (Z.to_nat sequence') animation 0)] ;;
    t' <- now ;;
    ret {| sequence := sequence';
           last_update_time := t';
           should_clear_on_release := should_clear_on_release self |}.

(** [n] calls of [update] in a row. *)
Fixpoint updates (n : nat) (self : state) : M state :=
  match n with
  | O => ret self
  | S n' => self' <- update self ;; updates n' self'
  end.

End spin_waiter.

(** ** Single-precision arithmetic

    [float] is IEEE 754 binary32: the Standard Library's specification of
    floating-point arithmetic at 24 bits of precision, with rounding to
    nearest, ties to even. *)

Definition prec32 : Z := 24.
Definition emax32 : Z := 128.

(** Conversion of an integer to [float]. *)
Definition float_of_int (z : Z) : spec_float := binary_normalize prec32 emax32 z 0 false.
Definition float_div : spec_float -> spec_float -> spec_float := SFdiv prec32 emax32.
Definition float_mul : spec_float -> spec_float -> spec_float := SFmul prec32 emax32.

(** [static_cast<int>] of a float discards the fraction; the conversion is
    undefined when the result does not fit (and for infinities and NaN). *)
Definition int_of_float (f : spec_float) : option Z :=
  match f with
  | S754_zero _ => Some 0
  | S754_finite s m e =>
      let t := Z.shiftl (Zpos m) e in
      let v := if s then - t else t in
      if (INT_MIN <=? v) && (v <=? INT_MAX) then Some v else None
  | _ => None
  end.

(** [std::min (a, b)] is [(b < a) ? b : a]. *)
Definition std_min (a b : Z) : Z := if b <? a then b else a.

(** ** loading_waiter<int> *)

Module loading_waiter.

Definition full_line : list Z := utils.create_full_filled_array 10 254.
Definition length : Z := Z.of_nat (List.length full_line).

(** [full_line.data ()] read as a string; the array has no terminator. *)
Definition full_line_text : string := string_of_chars (map char_of_Z full_line).

Record state : Type := {
  last_drawn_count : Z;
  max_value : Z;
  should_clear_on_release : bool
}.

Definition ctor (t_max_value : Z) (t_should_clear_on_release : bool) : M state :=
  lock ;;
  ret {| last_drawn_count := 0;
         max_value := t_max_value;
         should_clear_on_release := t_should_clear_on_release |}.

Definition dtor (self : state) : M unit :=
  (if should_clear_on_release self
   then printf ("%*s" ++ String CR "")
               [PInt (to_int32 (last_drawn_count self)); PStr ""]
   else printf (String LF "") []) ;;
  unlock.

Definition percentage (max_value current_value : Z) : spec_float :=
  float_div (float_of_int (std_min current_value max_value)) (float_of_int max_value).

Definition percent (max_value current_value : Z) : option Z :=
  int_of_float (float_mul (percentage max_value current_value) (float_of_int 100)).

Definition count_to_draw (max_value current_value : Z) : option Z :=
  int_of_float (float_mul (percentage max_value current_value) (float_of_int length)).

Definition count_to_skip (count_to_draw : Z) : Z := to_int32 (length - count_to_draw).

(** The text of one redraw: carriage return, padding, percentage, and the
    bar between brackets. *)
Definition bar_text (pad percent count_to_draw : Z) : string :=
  String CR
    (spaces (Z.to_nat pad) ++ string_of_Z percent ++ "%["
     ++ take (Z.to_nat count_to_draw) full_line_text
     ++ spaces (Z.to_nat (length - count_to_draw)) ++ "]")%string.

(** [%.*s] reads at most [count_to_draw] bytes from the ten of [full_line];
    a negative precision, or one above ten, makes [printf] read past the
    array. *)
Definition update (self : state) (current_value : Z) : M state :=
  match percent (max_value self) current_value,
        count_to_draw (max_value self) current_value with
  | Some percent, Some count_to_draw =>
      if (0 <=? count_to_draw) && (count_to_draw <=? length) then
        pad <- load_padding ;;
        n <- printf (String CR "%*s%d%%[%.*s%*s]")
                    [PInt pad; PStr ""; PInt percent; PInt count_to_draw;
                     PStr full_line_text; PInt (count_to_skip count_to_draw);
                     PStr ""] ;;
        ret {| last_drawn_count := to_uint32 n;
               max_value := max_value self;
               should_clear_on_release := should_clear_on_release self |}
      else undefined
  | _, _ => undefined
  end.

(** Successive calls of [update], one per value. *)
Fixpoint updates (values : list Z) (self : state) : M state :=
  match values with
  | [] => ret self
  | v :: values' => self' <- update self v ;; updates values' self'
  end.

End loading_waiter.

(** ** Rational semantics of single precision

    Used to reason about [float_of_int], [float_div] and [float_mul]: the
    value of a float, rounding of a rational to the nearest integer with
    ties to even, and rounding at a given exponent. *)

Definition pow2 (e : Z) : Q := Qpower 2 e.

Definition value (f : spec_float) : Q :=
  match f with
  | S754_finite s m e =>
      if s then (- (inject_Z (Zpos m) * pow2 e))%Q else (inject_Z (Zpos m) * pow2 e)%Q
  | _ => 0%Q
  end.

Definition rne (y : Q) : Z :=
  let f := Qfloor y in
  match Qcompare (y - inject_Z f) (1 # 2) with
  | Lt => f
  | Eq => if Z.even f then f else f + 1
  | Gt => f + 1
  end.

Definition round_at (c : Z) (x : Q) : Q := (inject_Z (rne (x / pow2 c)) * pow2 c)%Q.

(** Where [y] lies between the integers [m] and [m + 1]. *)
Definition located (m : Z) (y : Q) (l : location) : Prop :=
  match l with
  | loc_Exact => y == inject_Z m
  | loc_Inexact Lt => inject_Z m < y /\ y < inject_Z m + (1 # 2)
  | loc_Inexact Eq => y == inject_Z m + (1 # 2)
  | loc_Inexact Gt => inject_Z m + (1 # 2) < y /\ y < inject_Z m + 1
  end%Q.

(** [f] is the positive normal float with mantissa [m] and exponent [e]. *)
Definition normal (f : spec_float) (m : positive) (e : Z) : Prop :=
  f = S754_finite false m e /\ Zdigits2 (Zpos m) = 24.

(** [f] is the positive number [x] of binade [d], rounded to 24 bits. *)
Definition rounded (f : spec_float) (x : Q) (d : Z) : Prop :=
  exists m e,
    normal f m e
    /\ d - 24 <= e <= d - 23
    /\ (pow2 (d - 1) <= x /\ x < pow2 d)%Q
    /\ (value f == round_at (d - 24) x)%Q.

Definition one32 : spec_float := S754_finite false 8388608 (-23).
Definition half32 : spec_float := S754_finite false 8388608 (-24).

(** The completion ratio times the integer [k], converted to [int]:
    [percent] is [scaled 100] and [count_to_draw] is [scaled 10]. *)
Definition scaled (k max_value current_value : Z) : option Z :=
  int_of_float (float_mul (loading_waiter.percentage max_value current_value)
                          (float_of_int k)).

(** The integer part of [k] times the quotient of two positive integers, in
    single precision. *)
Definition magnitude (k mx c : Z) : Z :=
  Qfloor (value (float_mul (float_div (float_of_int c) (float_of_int mx))
                           (float_of_int k))).

(** ** Sample worlds *)

(** A console with default attribute, padding 4 and a clock that advances a
    tenth of a second between readings. *)
Definition quiet_world : world :=
  mkWorld true 7 [] false 4 (fun n => Z.of_nat n * 100000000) 0.

(** A console whose attribute is bright red before the logger touches it. *)
Definition red_console : world := mkWorld true 12 [] false 0 (fun _ => 0) 0.

(** Every reading of the clock is at least a redraw interval after the one
    before. *)
Definition steady (w : world) : Prop :=
  forall i : nat,
    spin_waiter.update_rate_ms * ticks_per_ms <= clock w (S i) - clock w i.

(** A progress bar before its first redraw. *)
Definition waiter (max_value : Z) (clear : bool) : loading_waiter.state :=
  {| loading_waiter.last_drawn_count := 0;
     loading_waiter.max_value := max_value;
     loading_waiter.should_clear_on_release := clear |}.

(** A spinner showing its fourth frame, last redrawn at time 0. *)
Definition idle_spinner : spin_waiter.state :=
  {| spin_waiter.sequence := 3;
     spin_waiter.last_update_time := 0;
     spin_waiter.should_clear_on_release := false |}.

(** ** Scopes and lifetimes *)

(** A block that holds a padding guard:
    [{ scopped_padding_extender g (current_pad); body }]. *)
Definition scoped {A : Type} (current_pad : Z) (body : M A) : M A :=
  g <- scopped_padding_extender.ctor current_pad ;;
  a <- body ;;
  scopped_padding_extender.dtor g ;;
  ret a.

(** Guards nested one inside the other around [body], the first of [pads]
    outermost. *)
Fixpoint nested {A : Type} (pads : list Z) (body : M A) : M A :=
  match pads with
  | [] => body
  | p :: pads' => scoped p (nested pads' body)
  end.

(** Two guards destroyed in the order in which they were made. *)
Definition crossed_scopes (p1 p2 : Z) : M unit :=
  g1 <- scopped_padding_extender.ctor p1 ;;
  g2 <- scopped_padding_extender.ctor p2 ;;
  scopped_padding_extender.dtor g1 ;;
  scopped_padding_extender.dtor g2.

(** The life of a spinner that is updated [n] times. *)
Definition spin_scope (clear : bool) (n : nat) : M unit :=
  self <- spin_waiter.ctor clear ;;
  self <- spin_waiter.updates n self ;;
  spin_waiter.dtor self.

(** The life of a progress bar that is updated with each of [values]. *)
Definition loading_scope (max_value : Z) (clear : bool) (values : list Z) : M unit :=
  self <- loading_waiter.ctor max_value clear ;;
  self <- loading_waiter.updates values self ;;
  loading_waiter.dtor self.

(** The clock never runs backwards. *)
Definition monotone_clock (w : world) : Prop :=
  forall i : nat, clock w i <= clock w (S i).

(** Two worlds that differ at most in what was written and in the number of
    clock readings taken. *)
Definition same_store (w w' : world) : Prop :=
  handle_valid w' = handle_valid w
  /\ console_attr w' = console_attr w
  /\ logger_sync w' = logger_sync w
  /\ logger_padding w' = logger_padding w
  /\ clock w' = clock w.

(** A call made by the thread that owns a spinner, between the spinner's
    construction (and [n] updates) and its destruction. *)
Definition while_spinning {A : Type} (clear : bool) (n : nat) (inner : M A) : M A :=
  self <- spin_waiter.ctor clear ;;
  self <- spin_waiter.updates n self ;;
  a <- inner ;;
  spin_waiter.dtor self ;;
  ret a.

(** The same for a progress bar. *)
Definition while_loading {A : Type} (max_value : Z) (clear : bool) (values : list Z)
           (inner : M A) : M A :=
  self <- loading_waiter.ctor max_value clear ;;
  self <- loading_waiter.updates values self ;;
  a <- inner ;;
  loading_waiter.dtor self ;;
  ret a.

(** The number of characters of the bar drawn last, 0 when none was. *)
Definition last_width (pad : Z) (drawn : list (Z * Z)) : Z :=
  last (map (fun d => Z.of_nat (String.length
                                  (loading_waiter.bar_text pad (fst d) (snd d))))
            drawn) 0.

(** The redraw interval in ticks of the clock. *)
Definition update_rate_ticks : Z := spin_waiter.update_rate_ms * ticks_per_ms.

(** A console with padding 250, close to the top of the 8-bit counter. *)
Definition deep_world : world :=
  mkWorld true 7 [] false 250 (fun n => Z.of_nat n * 100000000) 0.

(** A process without a console. *)
Definition detached_world : world :=
  mkWorld false 0 [] false 0 (fun _ => 0) 0.

(** * Properties *)

(** C1. Two nested padding guards released in reverse order leave the
    padding counter as it was before the first was entered, whatever the
    increments, and a guard's destructor writes back the value it captured,
    whatever the counter holds at that moment. *)
Theorem C1_nested_padding_restored :
  (forall (p1 p2 : Z) (w : world), nested_scopes p1 p2 w = Ret tt w)
  /\ (forall (g : scopped_padding_extender.state) (w : world),
         scopped_padding_extender.dtor g w
         = Ret tt (set_padding w (scopped_padding_extender.restore_pad g)))
  /\ (forall (p : Z) (w : world),
         scopped_padding_extender.ctor p w =
         Ret {| scopped_padding_extender.restore_pad := logger_padding w |}
             (set_padding w (to_uint8 (logger_padding w + p)))).
Proof.
  repeat split.
  intros p1 p2 [h a c s p k r]. reflexivity.
Qed.

(** ** Strings and [printf] *)

Lemma append_empty_r (s : string) : (s ++ "")%string = s.
Proof. induction s as [|c s IH]; simpl; [reflexivity | now rewrite IH]. Qed.

Lemma length_append (s t : string) :
  String.length (s ++ t) = (String.length s + String.length t)%nat.
Proof. induction s as [|c s IH]; simpl; [reflexivity | now rewrite IH]. Qed.

Lemma length_spaces (n : nat) : String.length (spaces n) = n.
Proof. induction n as [|n IH]; simpl; [reflexivity | now f_equal]. Qed.

(** The [%*s] that [log] puts in front of a format prints the padding and
    leaves the rest of the format and of the arguments as they were. *)
Lemma sprintf_padding (n : Z) (format : string) (parameters : list printf_arg) :
  0 <= n ->
  sprintf ("%*s" ++ format) (PInt n :: PStr "" :: parameters)
  = option_map (append (spaces (Z.to_nat n))) (sprintf format parameters).
Proof.
  intros Hn. unfold sprintf. simpl.
  destruct (Z.leb_spec 0 n) as [_|]; [|lia].
  rewrite Nat.sub_0_r, append_empty_r. reflexivity.
Qed.

(** ** Running computations *)

Ltac run :=
  cbv [bind ret lock unlock load_padding store_padding fetch_add_padding
       GetStdHandle_valid SetConsoleTextAttribute printf now debugbreak
       undefined emit set_console set_sync set_padding tick
       handle_valid console_attr console logger_sync logger_padding clock
       clock_reads negb].

Lemma console_app3 (l : list event) (a b c : event) :
  ((l ++ [a]) ++ [b]) ++ [c] = l ++ [a; b; c].
Proof. now rewrite <- !app_assoc. Qed.

Lemma log_runs (color : win_console_colors) (format : string)
      (parameters : list printf_arg) (text : string) (w : world) :
  handle_valid w = true ->
  logger_sync w = false ->
  0 <= logger_padding w <= 255 ->
  sprintf format parameters = Some text ->
  log color format parameters w =
  Ret (to_uint32 (Z.of_nat (String.length
                   (spaces (Z.to_nat (logger_padding w)) ++ text))))
      (set_console w (color_value wcon_gray)
         (console w ++ [EvAttr (color_value color);
                        EvWrite (spaces (Z.to_nat (logger_padding w)) ++ text);
                        EvAttr (color_value wcon_gray)])).
Proof.
  destruct w as [h a c s p k r]. simpl. intros -> -> Hp Hfmt.
  unfold log, utils.reset_color, utils.setup_color. run.
  rewrite sprintf_padding by lia. rewrite Hfmt. simpl.
  rewrite console_app3. reflexivity.
Qed.








(** C8, as stated, fails: on a console whose attribute was 12, choosing
    green and resetting leaves attribute 7, not 12. *)
Lemma C8_counterexample :
  console_attr red_console = 12
  /\ (utils.setup_color wcon_green ;; utils.reset_color) red_console
     = Ret tt (set_console red_console 7 [EvAttr 10; EvAttr 7])
  /\ console_attr (set_console red_console 7 [EvAttr 10; EvAttr 7])
     <> console_attr red_console.
Proof. repeat split. discriminate. Qed.

(** C8, amended. With a console handle, [setup_color] followed by
    [reset_color] leaves the gray attribute (7) whatever the attribute was
    before, so the earlier state comes back exactly when it was gray;
    [reset_color] is [setup_color] of gray. *)
Theorem C8_reset_color_sets_gray :
  (forall c w,
      handle_valid w = true ->
      (utils.setup_color c ;; utils.reset_color) w
      = Ret tt (set_console w (color_value wcon_gray)
                  (console w ++ [EvAttr (color_value c);
                                 EvAttr (color_value wcon_gray)])))
  /\ (forall c w w',
         handle_valid w = true ->
         (utils.setup_color c ;; utils.reset_color) w = Ret tt w' ->
         (console_attr w' = console_attr w <-> console_attr w = 7))
  /\ utils.reset_color = utils.setup_color wcon_gray
  /\ color_value wcon_gray = 7.
Proof.
  assert (H : forall c w, handle_valid w = true ->
            (utils.setup_color c ;; utils.reset_color) w
            = Ret tt (set_console w (color_value wcon_gray)
                        (console w ++ [EvAttr (color_value c);
                                       EvAttr (color_value wcon_gray)]))).
  { intros c [h a l s p k r]. simpl. intros ->.
    unfold utils.reset_color, utils.setup_color. run.
    now rewrite <- app_assoc. }
  repeat split; try assumption.
  - intros Heq. rewrite (H c w H0) in H1. injection H1 as <-.
    simpl in Heq. now rewrite <- Heq.
  - intros Heq. rewrite (H c w H0) in H1. injection H1 as <-.
    simpl. now rewrite Heq.
Qed.

Lemma C8_witness :
  (utils.setup_color wcon_green ;; utils.reset_color) red_console
  = Ret tt (set_console red_console 7 [EvAttr 10; EvAttr 7]).
Proof.
  apply (proj1 C8_reset_color_sets_gray wcon_green red_console). reflexivity.
Defined.

(** ** The spinner *)

Lemma duration_cast_ms_lt (d : Z) :
  (duration_cast_ms d <? spin_waiter.update_rate_ms)
  = (d <? spin_waiter.update_rate_ms * ticks_per_ms).
Proof.
  unfold duration_cast_ms, spin_waiter.update_rate_ms, ticks_per_ms.
  pose proof (Z.quot_rem' d 1000000) as Hqr.
  destruct (Z.lt_ge_cases d 0) as [Hneg|Hpos].
  - pose proof (Z.rem_nonpos d 1000000 ltac:(lia) ltac:(lia)).
    pose proof (Z.rem_bound_abs d 1000000 ltac:(lia)).
    destruct (Z.ltb_spec (d ÷ 1000000) 100), (Z.ltb_spec d (100 * 1000000)); lia.
  - pose proof (Z.rem_bound_pos d 1000000 ltac:(lia) ltac:(lia)).
    destruct (Z.ltb_spec (d ÷ 1000000) 100), (Z.ltb_spec d (100 * 1000000)); lia.
Qed.

Lemma sprintf_frame (pad glyph : Z) :
  0 <= pad ->
  sprintf ("%*s%c" ++ String CR "") [PInt pad; PStr ""; PInt glyph]
  = Some (spin_waiter.frame pad glyph).
Proof.
  intros Hpad.
  change ("%*s%c" ++ String CR "")%string with ("%*s" ++ ("%c" ++ String CR ""))%string.
  rewrite sprintf_padding by assumption. reflexivity.
Qed.

Lemma spin_update_runs (self : spin_waiter.state) (w : world) :
  0 <= logger_padding w <= 255 ->
  spin_waiter.update self w =
  if clock w (clock_reads w) - spin_waiter.last_update_time self
     <? spin_waiter.update_rate_ms * ticks_per_ms
  then Ret self (tick w)
  else
    let next := (spin_waiter.sequence self + 1) mod 4 in
    Ret {| spin_waiter.sequence := next;
           spin_waiter.last_update_time := clock w (S (clock_reads w));
           spin_waiter.should_clear_on_release :=
             spin_waiter.should_clear_on_release self |}
        (tick (emit (tick w)
                 (EvWrite (spin_waiter.frame (logger_padding w)
                             (nth (Z.to_nat next) spin_waiter.animation 0))))).
Proof.
  destruct w as [h a c s p k r]. simpl. intros Hp.
  unfold spin_waiter.update. run.
  rewrite duration_cast_ms_lt.
  destruct (_ <? _); [reflexivity|].
  rewrite sprintf_frame by lia.
  assert (Hseq : to_uint8 ((spin_waiter.sequence self + 1)
                           mod spin_waiter.sizeof_animation)
                 = (spin_waiter.sequence self + 1) mod 4).
  { unfold to_uint8. change spin_waiter.sizeof_animation with 4.
    pose proof (Z.mod_pos_bound (spin_waiter.sequence self + 1) 4 ltac:(lia)).
    apply Z.mod_small. lia. }
  rewrite Hseq. reflexivity.
Qed.

(** C5. An [update] that reads the clock less than 100 ms after the last
    redraw returns the widget unchanged and writes nothing; otherwise it
    moves the sequence index to the next of the four frames and writes the
    padding, that frame's glyph and a carriage return, with no newline. *)
Theorem C5_spin_update_rate_limited :
  forall (self : spin_waiter.state) (w : world),
    0 <= logger_padding w <= 255 ->
    let next := (spin_waiter.sequence self + 1) mod 4 in
    let glyph := nth (Z.to_nat next) spin_waiter.animation 0 in
    spin_waiter.update self w =
    (if clock w (clock_reads w) - spin_waiter.last_update_time self
        <? 100 * ticks_per_ms
     then Ret self (tick w)
     else
       Ret {| spin_waiter.sequence := next;
              spin_waiter.last_update_time := clock w (S (clock_reads w));
              spin_waiter.should_clear_on_release :=
                spin_waiter.should_clear_on_release self |}
           (tick (emit (tick w)
                    (EvWrite (spaces (Z.to_nat (logger_padding w))
                              ++ String (char_of_Z glyph) (String CR ""))))))
    /\ console (tick w) = console w
    /\ 0 <= next <= 3
    /\ In glyph spin_waiter.animation
    /\ occurs LF (spaces (Z.to_nat (logger_padding w))
                  ++ String (char_of_Z glyph) (String CR "")) = false.
Proof.
  intros self w Hp next glyph.
  assert (Hnext : 0 <= next <= 3).
  { subst next. pose proof (Z.mod_pos_bound (spin_waiter.sequence self + 1) 4). lia. }
  assert (Hglyph : In glyph spin_waiter.animation).
  { subst glyph. apply nth_In. simpl. lia. }
  repeat split; try assumption; try lia.
  - apply (spin_update_runs self w Hp).
  - assert (Hsp : forall n, occurs LF (spaces n ++ String (char_of_Z glyph) (String CR ""))
                            = occurs LF (String (char_of_Z glyph) (String CR ""))).
    { induction n as [|n IH]; [reflexivity | simpl; exact IH]. }
    rewrite Hsp. simpl in Hglyph.
    destruct Hglyph as [<-|[<-|[<-|[<-|[]]]]]; reflexivity.
Qed.

Lemma C5_witness :
  spin_waiter.update idle_spinner quiet_world = Ret idle_spinner (tick quiet_world)
  /\ spin_waiter.update idle_spinner (tick quiet_world)
     = Ret {| spin_waiter.sequence := 0;
              spin_waiter.last_update_time := 200000000;
              spin_waiter.should_clear_on_release := false |}
           (tick (emit (tick (tick quiet_world)) (EvWrite ("    \" ++ String CR "")))).
Proof.
  split.
  - apply (proj1 (C5_spin_update_rate_limited idle_spinner quiet_world
                    ltac:(simpl; lia))).
  - apply (proj1 (C5_spin_update_rate_limited idle_spinner (tick quiet_world)
                    ltac:(simpl; lia))).
Defined.

(** The frames that [k] redraws write, starting after frame index [s]. *)
Lemma frames_shift (pad : Z) (s s' : nat) (k : nat) :
  (s' = (s + 1) mod 4)%nat ->
  map (fun j => EvWrite (spin_waiter.frame pad
                           (nth ((s + S j) mod 4) spin_waiter.animation 0)))
      (seq 0 (S k))
  = EvWrite (spin_waiter.frame pad (nth s' spin_waiter.animation 0))
    :: map (fun j => EvWrite (spin_waiter.frame pad
                                (nth ((s' + S j) mod 4) spin_waiter.animation 0)))
           (seq 0 k).
Proof.
  intros ->. change (seq 0 (S k)) with (0%nat :: seq 1 k).
  rewrite map_cons. f_equal.
  rewrite <- seq_shift, map_map. apply map_ext. intros j.
  do 3 f_equal.
  rewrite Nat.Div0.add_mod_idemp_l. f_equal. lia.
Qed.

Lemma spin_updates_trace (n : nat) :
  forall (self : spin_waiter.state) (w : world),
    0 <= spin_waiter.sequence self <= 3 ->
    0 <= logger_padding w <= 255 ->
    exists (k : nat) (self' : spin_waiter.state) (w' : world),
      (k <= n)%nat
      /\ spin_waiter.updates n self w = Ret self' w'
      /\ console w' =
         console w ++
         map (fun j => EvWrite (spin_waiter.frame (logger_padding w)
                 (nth ((Z.to_nat (spin_waiter.sequence self) + S j) mod 4)
                      spin_waiter.animation 0)))
             (seq 0 k)
      /\ spin_waiter.sequence self'
         = Z.of_nat ((Z.to_nat (spin_waiter.sequence self) + k) mod 4)
      /\ (steady w ->
          (0 < clock_reads w)%nat ->
          spin_waiter.last_update_time self = clock w (pred (clock_reads w)) ->
          k = n).
Proof.
  induction n as [|n IH]; intros self w Hseq Hpad.
  - exists 0%nat, self, w. split; [lia|]. split; [reflexivity|].
    split; [simpl; now rewrite app_nil_r|]. split; [|reflexivity].
    rewrite Nat.add_0_r, Nat.mod_small by lia. lia.
  - simpl spin_waiter.updates. unfold bind at 1.
    rewrite (spin_update_runs self w Hpad).
    destruct (Z.ltb_spec (clock w (clock_reads w) - spin_waiter.last_update_time self)
                         (spin_waiter.update_rate_ms * ticks_per_ms)) as [Hskip|Hdraw].
    + destruct (IH self (tick w) Hseq Hpad) as (k & self' & w' & Hk & Hrun & Hcon & Hs & Hall).
      exists k, self', w'. repeat split; try assumption; try lia.
      intros Hsteady Hreads Hlast. exfalso.
      specialize (Hsteady (pred (clock_reads w))).
      rewrite Nat.succ_pred in Hsteady by lia. lia.
    + set (next := (spin_waiter.sequence self + 1) mod 4) in *.
      assert (Hnext : 0 <= next <= 3).
      { subst next. pose proof (Z.mod_pos_bound (spin_waiter.sequence self + 1) 4). lia. }
      cbv zeta.
      match goal with |- context [Ret ?s ?v] => set (self1 := s); set (w1 := v) end.
      destruct (IH self1 w1 Hnext Hpad)
        as (k & self' & w' & Hk & Hrun & Hcon & Hs & Hall).
      assert (Hidx : Z.to_nat next = ((Z.to_nat (spin_waiter.sequence self) + 1) mod 4)%nat).
      { subst next. rewrite Z2Nat.inj_mod by lia.
        rewrite Z2Nat.inj_add by lia. reflexivity. }
      exists (S k), self', w'. repeat split; try assumption; try lia.
      * rewrite Hcon.
        rewrite (frames_shift (logger_padding w) _ (Z.to_nat next) k Hidx).
        subst w1. destruct w; simpl. now rewrite <- app_assoc.
      * rewrite Hs. subst self1. simpl spin_waiter.sequence. rewrite Hidx.
        rewrite Nat.Div0.add_mod_idemp_l. do 2 f_equal. lia.
      * intros Hsteady Hreads Hlast. f_equal. apply Hall.
        -- exact Hsteady.
        -- subst w1. destruct w; simpl. lia.
        -- subst w1 self1. destruct w; reflexivity.
Qed.

(** C10. A new spinner starts at index 0 and every redraw first moves to the
    next index: the [j]-th redraw (counted from 0) shows frame
    [(j + 1) mod 4], so the first shows ['|'] and the backslash of index 0
    appears on every fourth redraw only; with a steady clock each of [n]
    updates redraws. *)
Theorem C10_spinner_frames_start_at_one :
  forall (n : nat) (flag : bool) (w : world),
    logger_sync w = false ->
    0 <= logger_padding w <= 255 ->
    exists (k : nat) (self' : spin_waiter.state) (w' : world),
      (k <= n)%nat
      /\ (self <- spin_waiter.ctor flag ;; spin_waiter.updates n self) w = Ret self' w'
      /\ console w' =
         console w ++
         map (fun j => EvWrite (spin_waiter.frame (logger_padding w)
                                  (nth (S j mod 4) spin_waiter.animation 0)))
             (seq 0 k)
      /\ spin_waiter.sequence self' = Z.of_nat (k mod 4)
      /\ (steady w -> k = n)
      /\ nth 1 spin_waiter.animation 0 = 124
      /\ (forall j : nat,
             nth (S j mod 4) spin_waiter.animation 0 = 92 <-> (S j mod 4 = 0)%nat).
Proof.
  intros n flag w Hsync Hpad.
  set (self0 := {| spin_waiter.sequence := 0;
                   spin_waiter.last_update_time := clock w (clock_reads w);
                   spin_waiter.should_clear_on_release := flag |}).
  destruct (spin_updates_trace n self0 (tick (set_sync w true)))
    as (k & self' & w' & Hk & Hrun & Hcon & Hs & Hall).
  { simpl. lia. }
  { destruct w; simpl in *. lia. }
  exists k, self', w'. repeat split.
  - exact Hk.
  - unfold spin_waiter.ctor. unfold bind at 1 2 3. unfold lock. rewrite Hsync.
    unfold now, ret. destruct w; exact Hrun.
  - rewrite Hcon. destruct w; reflexivity.
  - exact Hs.
  - intros Hsteady. apply Hall.
    + destruct w; exact Hsteady.
    + destruct w; simpl. lia.
    + destruct w; reflexivity.
  - intros Hj.
    pose proof (Nat.mod_upper_bound (S j) 4 ltac:(lia)) as Hb.
    destruct (S j mod 4)%nat as [|[|[|[|m]]]]; simpl in Hj; try discriminate; lia.
  - intros ->. reflexivity.
Qed.

Lemma C10_witness :
  exists (self' : spin_waiter.state) (w' : world),
    (self <- spin_waiter.ctor false ;; spin_waiter.updates 5 self) quiet_world
    = Ret self' w'
    /\ console w' =
       [EvWrite ("    |" ++ String CR ""); EvWrite ("    /" ++ String CR "");
        EvWrite ("    " ++ String (char_of_Z 196) (String CR ""));
        EvWrite ("    \" ++ String CR ""); EvWrite ("    |" ++ String CR "")]
    /\ spin_waiter.sequence self' = 1.
Proof.
  destruct (C10_spinner_frames_start_at_one 5 false quiet_world)
    as (k & self' & w' & Hk & Hrun & Hcon & Hs & Hall & _).
  - reflexivity.
  - simpl. lia.
  - assert (k = 5%nat) as ->.
    { apply Hall. intros i.
      unfold quiet_world, spin_waiter.update_rate_ms, ticks_per_ms.
      cbn [clock]. lia. }
    exists self', w'. repeat split; assumption.
Defined.

(** ** Single precision: rounding to the nearest integer *)

(** [field] on rationals, with its side conditions: the denominators are
    products of positive numbers. *)
Ltac nonzero :=
  repeat split;
  repeat match goal with
         | |- ~ _ == 0 => apply Qnot_eq_sym, Qlt_not_eq
         end;
  repeat apply Qmult_lt_0_compat; try assumption; try lra.

Ltac qfield := field; nonzero.

(** Powers of two with integer exponents. *)
Lemma pow2_pos e : (0 < pow2 e)%Q.
Proof. apply Qpower_0_lt. reflexivity. Qed.

Lemma pow2_add a b : (pow2 (a + b) == pow2 a * pow2 b)%Q.
Proof. apply Qpower_plus. discriminate. Qed.

Lemma pow2_succ e : (pow2 (e + 1) == 2 * pow2 e)%Q.
Proof. rewrite pow2_add. change (pow2 1) with 2%Q. ring. Qed.

Lemma pow2_lt a b : a < b -> (pow2 a < pow2 b)%Q.
Proof. intros H. apply Qpower_lt_compat_l; [assumption | reflexivity]. Qed.

Lemma pow2_le a b : a <= b -> (pow2 a <= pow2 b)%Q.
Proof. intros H. apply Qpower_le_compat_l; [assumption | discriminate]. Qed.

Lemma pow2_lt_inv a b : (pow2 a < pow2 b)%Q -> a < b.
Proof. intros H. apply (Qpower_lt_compat_l_inv 2); [assumption | reflexivity]. Qed.

Lemma pow2_Z e : 0 <= e -> (pow2 e == inject_Z (2 ^ e))%Q.
Proof. intros H. unfold pow2. now rewrite Zpower_Qpower. Qed.

(** The integer part and rounding to the nearest integer. *)
Lemma Qfloor_unique (m : Z) (y : Q) :
  (inject_Z m <= y)%Q -> (y < inject_Z m + 1)%Q -> Qfloor y = m.
Proof.
  intros Hl Hu.
  pose proof (Qfloor_le y) as Fl. pose proof (Qlt_floor y) as Fu.
  rewrite inject_Z_plus in Fu.
  assert (H1 : (inject_Z (Qfloor y) < inject_Z (m + 1))%Q).
  { rewrite inject_Z_plus. change (inject_Z 1) with 1%Q in *. lra. }
  assert (H2 : (inject_Z m < inject_Z (Qfloor y + 1))%Q).
  { rewrite inject_Z_plus. change (inject_Z 1) with 1%Q in *. lra. }
  rewrite <- Zlt_Qlt in H1, H2. lia.
Qed.

#[local] Instance rne_comp : Proper (Qeq ==> eq) rne.
Proof.
  intros x y H. unfold rne.
  rewrite (Qfloor_comp x y H).
  assert (E : (x - inject_Z (Qfloor y) ?= 1 # 2)%Q = (y - inject_Z (Qfloor y) ?= 1 # 2)%Q).
  { apply Qcompare_comp; [|reflexivity]. apply Qplus_comp; [exact H | reflexivity]. }
  now rewrite E.
Qed.

(** Rounding a located number is [round_nearest_even] of its location. *)
Lemma rne_located m y l : located m y l -> rne y = round_nearest_even m l.
Proof.
  intros H.
  assert (Hf : Qfloor y = m).
  { apply Qfloor_unique; destruct l as [|[]]; unfold located in H; lra. }
  unfold rne. rewrite Hf.
  destruct l as [|[]]; unfold located in H; unfold round_nearest_even.
  - assert (E : (y - inject_Z m ?= 1 # 2)%Q = Lt) by (apply (proj1 (Qlt_alt _ _)); lra).
    now rewrite E.
  - assert (E : (y - inject_Z m ?= 1 # 2)%Q = Eq) by (apply (proj1 (Qeq_alt _ _)); lra).
    now rewrite E.
  - assert (E : (y - inject_Z m ?= 1 # 2)%Q = Lt) by (apply (proj1 (Qlt_alt _ _)); lra).
    now rewrite E.
  - assert (E : (y - inject_Z m ?= 1 # 2)%Q = Gt) by (apply (proj1 (Qgt_alt _ _)); lra).
    now rewrite E.
Qed.

Lemma rne_Z (n : Z) : rne (inject_Z n) = n.
Proof. apply (rne_located n (inject_Z n) loc_Exact). unfold located. reflexivity. Qed.

Lemma rne_bounds (y : Q) : Qfloor y <= rne y <= Qfloor y + 1.
Proof.
  unfold rne. destruct (Qcompare _ _); [destruct (Z.even _)| |]; lia.
Qed.

(** Rounding to the nearest integer is monotone. *)
Lemma rne_mono (x y : Q) : (x <= y)%Q -> rne x <= rne y.
Proof.
  intros H.
  pose proof (Qfloor_resp_le x y H) as Hf.
  destruct (Z.eq_dec (Qfloor x) (Qfloor y)) as [E|N].
  - unfold rne. rewrite E.
    destruct (Qcompare_spec (x - inject_Z (Qfloor y)) (1#2)),
             (Qcompare_spec (y - inject_Z (Qfloor y)) (1#2));
      try destruct (Z.even (Qfloor y)); try lia; lra.
  - pose proof (rne_bounds x). pose proof (rne_bounds y). lia.
Qed.

Lemma rne_ge_int (n : Z) (y : Q) : (inject_Z n <= y)%Q -> n <= rne y.
Proof. intros H. rewrite <- (rne_Z n). now apply rne_mono. Qed.

Lemma rne_le_int (n : Z) (y : Q) : (y <= inject_Z n)%Q -> rne y <= n.
Proof. intros H. rewrite <- (rne_Z n). now apply rne_mono. Qed.

Lemma located_comp m y y' l : (y == y')%Q -> located m y l -> located m y' l.
Proof. intros E. destruct l as [|[]]; unfold located; lra. Qed.

(** ** Digits and right shifts *)

(** The number of binary digits of a positive integer. *)
Lemma digits2_pos_size p : digits2_pos p = Pos.size p.
Proof. induction p; simpl; congruence. Qed.

Lemma Zdigits2_log2 m : 0 < m -> Zdigits2 m = Z.log2 m + 1.
Proof.
  destruct m as [|p|p]; try lia. intros _. simpl Zdigits2.
  rewrite digits2_pos_size. destruct p; simpl; lia.
Qed.

Lemma Zdigits2_bounds m : 0 < m -> 2 ^ (Zdigits2 m - 1) <= m < 2 ^ Zdigits2 m.
Proof.
  intros H. rewrite (Zdigits2_log2 m H).
  pose proof (Z.log2_spec m H). replace (Z.log2 m + 1 - 1) with (Z.log2 m) by lia.
  unfold Z.succ in *. lia.
Qed.

Lemma Zdigits2_unique m d : 2 ^ (d - 1) <= m < 2 ^ d -> 0 < d -> Zdigits2 m = d.
Proof.
  intros H Hd.
  assert (0 < m) by (pose proof (Z.pow_pos_nonneg 2 (d - 1)); lia).
  rewrite (Zdigits2_log2 m) by assumption.
  rewrite (Z.log2_unique m (d - 1)); try lia.
  unfold Z.succ. replace (d - 1 + 1) with d by lia. assumption.
Qed.

Lemma Zdigits2_pos m : 0 < m -> 0 < Zdigits2 m.
Proof. intros H. rewrite Zdigits2_log2 by assumption. pose proof (Z.log2_nonneg m). lia. Qed.

(** One shift to the right halves the number and keeps track of the bits
    that fall off. *)
Lemma shr_1_nonneg mrs :
  0 <= shr_m mrs ->
  shr_1 mrs = {| shr_m := Z.div2 (shr_m mrs);
                 shr_r := Z.odd (shr_m mrs);
                 shr_s := shr_r mrs || shr_s mrs |}.
Proof.
  destruct mrs as [m r s]. simpl. intros H.
  destruct m as [|[p|p|]|p]; try reflexivity. lia.
Qed.

Lemma located_shr_1 mrs y :
  0 <= shr_m mrs ->
  located (shr_m mrs) y (loc_of_shr_record mrs) ->
  0 <= shr_m (shr_1 mrs)
  /\ located (shr_m (shr_1 mrs)) (y / 2) (loc_of_shr_record (shr_1 mrs)).
Proof.
  intros Hm Hloc. rewrite (shr_1_nonneg mrs Hm).
  destruct mrs as [m r s]. cbn [shr_m shr_r shr_s] in *.
  pose proof (Z.div2_odd m) as Hdo.
  split; [apply Z.div2_nonneg; assumption|].
  assert (HQ : (inject_Z m == 2 * inject_Z (Z.div2 m) + inject_Z (Z.b2z (Z.odd m)))%Q).
  { rewrite Hdo at 1. rewrite inject_Z_plus, inject_Z_mult. reflexivity. }
  assert (Hy : (y == 2 * (y / 2))%Q) by qfield.
  generalize dependent (y / 2)%Q. intros z Hz.
  destruct r, s, (Z.odd m); cbn [orb loc_of_shr_record located Z.b2z] in *;
    change (inject_Z 1) with 1%Q in HQ; change (inject_Z 0) with 0%Q in HQ;
    lra.
Qed.

Lemma iter_pos_iter {A} (f : A -> A) p x : iter_pos f p x = Pos.iter f x p.
Proof.
  revert x. induction p as [p IH|p IH|]; intros x; simpl.
  - rewrite !IH. now rewrite <- !Pos.iter_swap.
  - now rewrite !IH.
  - reflexivity.
Qed.

(** Shifting [p] times divides by [2 ^ p] and keeps the location exact. *)
Lemma located_shr_iter p : forall mrs y,
  0 <= shr_m mrs ->
  located (shr_m mrs) y (loc_of_shr_record mrs) ->
  0 <= shr_m (iter_pos shr_1 p mrs)
  /\ located (shr_m (iter_pos shr_1 p mrs)) (y / pow2 (Zpos p))
             (loc_of_shr_record (iter_pos shr_1 p mrs)).
Proof.
  induction p using Pos.peano_ind; intros mrs y Hm Hloc.
  - simpl iter_pos. change (pow2 1) with 2%Q. now apply located_shr_1.
  - rewrite iter_pos_iter, Pos.iter_succ, <- iter_pos_iter.
    destruct (IHp mrs y Hm Hloc) as [Hm' Hloc'].
    destruct (located_shr_1 _ _ Hm' Hloc') as [Hm2 Hloc2].
    split; [assumption|].
    assert (E : (y / pow2 (Z.pos (Pos.succ p)) == y / pow2 (Z.pos p) / 2)%Q).
    { rewrite Pos2Z.inj_succ. unfold Z.succ. rewrite pow2_succ.
      pose proof (pow2_pos (Z.pos p)). qfield. }
    apply (located_comp _ (y / pow2 (Z.pos p) / 2)); [now symmetry | assumption].
Qed.

(** ** The rounding step of every operation *)

Lemma record_of_loc_m m l : shr_m (shr_record_of_loc m l) = m.
Proof. destruct l as [|[]]; reflexivity. Qed.

Lemma loc_of_record_of_loc m l : loc_of_shr_record (shr_record_of_loc m l) = l.
Proof. destruct l as [|[]]; reflexivity. Qed.

Lemma located_bounds m y l :
  located m y l -> (inject_Z m <= y /\ y < inject_Z m + 1)%Q.
Proof. destruct l as [|[]]; unfold located; lra. Qed.

Lemma Qdiv_pow2_bounds (a b x : Q) (e : Z) :
  (a * pow2 e <= x)%Q -> (x < b * pow2 e)%Q -> (a <= x / pow2 e /\ x / pow2 e < b)%Q.
Proof.
  intros Hl Hu. pose proof (pow2_pos e) as Hp. split.
  - apply Qle_shift_div_l; assumption.
  - apply Qlt_shift_div_r; assumption.
Qed.

Lemma Qmul_pow2_bounds (a b x : Q) (e : Z) :
  (a <= x / pow2 e)%Q -> (x / pow2 e < b)%Q -> (a * pow2 e <= x /\ x < b * pow2 e)%Q.
Proof.
  intros Hl Hu. pose proof (pow2_pos e) as Hp.
  assert (E : (x == x / pow2 e * pow2 e)%Q) by qfield.
  split.
  - rewrite E. apply Qmult_le_compat_r; lra.
  - rewrite E at 1. apply Qmult_lt_compat_r; lra.
Qed.

(** The binade of a located number. *)
Lemma located_binade mx ex lx x :
  0 < mx ->
  located mx (x / pow2 ex) lx ->
  (pow2 (Zdigits2 mx + ex - 1) <= x /\ x < pow2 (Zdigits2 mx + ex))%Q.
Proof.
  intros Hmx Hloc.
  destruct (located_bounds _ _ _ Hloc) as [Hl Hu].
  pose proof (Zdigits2_bounds mx Hmx) as [Hdl Hdu].
  pose proof (Zdigits2_pos mx Hmx) as Hd.
  assert (Hl' : (pow2 (Zdigits2 mx - 1) <= x / pow2 ex)%Q).
  { rewrite (pow2_Z (Zdigits2 mx - 1)) by lia. rewrite Zle_Qle in Hdl. lra. }
  assert (Hu' : (x / pow2 ex < pow2 (Zdigits2 mx))%Q).
  { rewrite (pow2_Z (Zdigits2 mx)) by lia.
    assert (mx + 1 <= 2 ^ Zdigits2 mx) as H by lia.
    rewrite Zle_Qle, inject_Z_plus in H. change (inject_Z 1) with 1%Q in H. lra. }
  destruct (Qmul_pow2_bounds _ _ _ _ Hl' Hu') as [A B].
  replace (Zdigits2 mx + ex - 1) with ((Zdigits2 mx - 1) + ex) by lia.
  rewrite !pow2_add. split; assumption.
Qed.

(** In the normal range [shr_fexp] brings the exponent to the binade of
    the number minus 24. *)
Lemma shr_fexp_normal mx ex lx x :
  0 < mx ->
  located mx (x / pow2 ex) lx ->
  let d := Zdigits2 mx + ex in
  ex <= d - 24 -> -149 <= d - 24 ->
  exists mrs,
    shr_fexp 24 128 mx ex lx = (mrs, d - 24)
    /\ 0 <= shr_m mrs
    /\ located (shr_m mrs) (x / pow2 (d - 24)) (loc_of_shr_record mrs).
Proof.
  intros Hmx Hloc d Hex Hmin.
  assert (Hfexp : fexp 24 128 (Zdigits2 mx + ex) = d - 24).
  { unfold fexp, emin. fold d. lia. }
  unfold shr_fexp. rewrite Hfexp. unfold shr.
  destruct (d - 24 - ex) as [|p|p] eqn:E.
  - exists (shr_record_of_loc mx lx).
    assert (Hc : d - 24 = ex) by lia. rewrite Hc.
    rewrite record_of_loc_m, loc_of_record_of_loc. repeat split; [lia | assumption].
  - exists (iter_pos shr_1 p (shr_record_of_loc mx lx)).
    split; [f_equal; lia|].
    destruct (located_shr_iter p (shr_record_of_loc mx lx) (x / pow2 ex)) as [A B].
    + rewrite record_of_loc_m. lia.
    + now rewrite record_of_loc_m, loc_of_record_of_loc.
    + split; [assumption|].
      apply (located_comp _ (x / pow2 ex / pow2 (Z.pos p))); [|assumption].
      replace (d - 24) with (ex + Z.pos p) by lia. rewrite pow2_add.
      pose proof (pow2_pos ex). pose proof (pow2_pos (Z.pos p)). qfield.
  - lia.
Qed.

(** [binary_round_aux] in the normal range: the mantissa is the scaled number
    rounded to the nearest integer, ties to even. *)
Lemma round_aux_normal s mx ex lx x :
  0 < mx ->
  located mx (x / pow2 ex) lx ->
  let d := Zdigits2 mx + ex in
  ex <= d - 24 -> -149 <= d - 24 -> d <= 127 ->
  let n := rne (x / pow2 (d - 24)) in
  2 ^ 23 <= n <= 2 ^ 24
  /\ binary_round_aux 24 128 s mx ex lx
     = if n <? 2 ^ 24 then S754_finite s (Z.to_pos n) (d - 24)
       else S754_finite s (Z.to_pos (2 ^ 23)) (d - 23).
Proof.
  intros Hmx Hloc d Hex Hmin Hmax n.
  destruct (located_binade mx ex lx x Hmx Hloc) as [Hbl Hbu]. fold d in Hbl, Hbu.
  assert (Hn : 2 ^ 23 <= n <= 2 ^ 24).
  { assert (A : (inject_Z (2 ^ 23) * pow2 (d - 24) <= x)%Q).
    { rewrite <- (pow2_Z 23) by lia. rewrite <- pow2_add.
      replace (23 + (d - 24)) with (d - 1) by lia. assumption. }
    assert (B : (x < inject_Z (2 ^ 24) * pow2 (d - 24))%Q).
    { rewrite <- (pow2_Z 24) by lia. rewrite <- pow2_add.
      replace (24 + (d - 24)) with d by lia. assumption. }
    destruct (Qdiv_pow2_bounds _ _ _ _ A B) as [A' B'].
    split; [apply rne_ge_int; assumption | apply rne_le_int; lra]. }
  split; [assumption|].
  destruct (shr_fexp_normal mx ex lx x Hmx Hloc Hex Hmin) as (mrs & Hshr & Hm & Hl).
  fold d in Hshr, Hl.
  unfold binary_round_aux. rewrite Hshr.
  rewrite <- (rne_located _ _ _ Hl). fold n.
  destruct (Z.ltb_spec n (2 ^ 24)) as [Hlt|Hge].
  - assert (Hdig : Zdigits2 n = 24) by (apply Zdigits2_unique; lia).
    unfold shr_fexp. rewrite Hdig.
    replace (fexp 24 128 (24 + (d - 24)) - (d - 24)) with 0
      by (unfold fexp, emin; lia).
    cbn [shr shr_record_of_loc shr_m].
    destruct n as [|p|p]; try lia.
    destruct (Z.leb_spec (d - 24) (128 - 24)); [reflexivity | lia].
  - assert (Hn24 : n = 2 ^ 24) by lia. rewrite Hn24.
    unfold shr_fexp. change (Zdigits2 (2 ^ 24)) with 25.
    replace (fexp 24 128 (25 + (d - 24)) - (d - 24)) with 1
      by (unfold fexp, emin; lia).
    cbn.
    destruct (Z.leb_spec (d - 24 + 1) 104); [f_equal; lia | lia].
Qed.

(** ** Rounded numbers *)

(** [binary_round_aux] of a positive located number is that number rounded. *)
Lemma round_aux_rounded mx ex lx x :
  0 < mx ->
  located mx (x / pow2 ex) lx ->
  let d := Zdigits2 mx + ex in
  ex <= d - 24 -> -149 <= d - 24 -> d <= 127 ->
  rounded (binary_round_aux 24 128 false mx ex lx) x d.
Proof.
  intros Hmx Hloc d Hex Hmin Hmax.
  destruct (round_aux_normal false mx ex lx x Hmx Hloc Hex Hmin Hmax) as [Hn Hr].
  fold d in Hn, Hr.
  pose proof (located_binade mx ex lx x Hmx Hloc) as Hb. fold d in Hb.
  set (n := rne (x / pow2 (d - 24))) in *.
  destruct (Z.ltb_spec n (2 ^ 24)) as [Hlt|Hge].
  - exists (Z.to_pos n), (d - 24).
    split; [split; [exact Hr | rewrite Z2Pos.id by lia; apply Zdigits2_unique; lia]|].
    split; [lia|]. split; [exact Hb|].
    rewrite Hr. unfold value, round_at. fold n. rewrite Z2Pos.id by lia. reflexivity.
  - exists (Z.to_pos (2 ^ 23)), (d - 23).
    split; [split; [exact Hr | reflexivity]|].
    split; [lia|]. split; [exact Hb|].
    rewrite Hr. unfold value, round_at. fold n.
    assert (n = 2 ^ 24) as -> by lia.
    replace (d - 23) with (d - 24 + 1) by lia. rewrite pow2_succ.
    change (inject_Z (Z.pos (Z.to_pos (2 ^ 23)))) with (inject_Z (2 ^ 23)).
    change (inject_Z (2 ^ 24)) with (2 * inject_Z (2 ^ 23))%Q. ring.
Qed.

(** A rounded number stays in the closure of its binade. *)
Lemma rounded_value_bounds f x d :
  rounded f x d -> (pow2 (d - 1) <= value f /\ value f <= pow2 d)%Q.
Proof.
  intros (m & e & [-> Hdig] & He & [Hxl Hxu] & Hv).
  rewrite Hv. unfold round_at.
  assert (A : (inject_Z (2 ^ 23) * pow2 (d - 24) <= x)%Q).
  { rewrite <- (pow2_Z 23) by lia. rewrite <- pow2_add.
    replace (23 + (d - 24)) with (d - 1) by lia. assumption. }
  assert (B : (x < inject_Z (2 ^ 24) * pow2 (d - 24))%Q).
  { rewrite <- (pow2_Z 24) by lia. rewrite <- pow2_add.
    replace (24 + (d - 24)) with d by lia. assumption. }
  destruct (Qdiv_pow2_bounds _ _ _ _ A B) as [A' B'].
  pose proof (rne_ge_int _ _ A') as Hl.
  assert (Hu : rne (x / pow2 (d - 24)) <= 2 ^ 24) by (apply rne_le_int; lra).
  pose proof (pow2_pos (d - 24)) as Hp.
  rewrite Zle_Qle in Hl, Hu.
  split.
  - assert (E : (pow2 (d - 1) == inject_Z (2 ^ 23) * pow2 (d - 24))%Q).
    { replace (d - 1) with (23 + (d - 24)) by lia.
      now rewrite (pow2_add 23 (d - 24)), (pow2_Z 23) by lia. }
    rewrite E. apply Qmult_le_compat_r; lra.
  - assert (E : (pow2 d == inject_Z (2 ^ 24) * pow2 (d - 24))%Q).
    { replace d with (24 + (d - 24)) at 1 by lia.
      now rewrite (pow2_add 24 (d - 24)), (pow2_Z 24) by lia. }
    rewrite E. apply Qmult_le_compat_r; lra.
Qed.

(** Rounding is monotone, also across binades. *)
Lemma rounded_mono f1 x1 d1 f2 x2 d2 :
  rounded f1 x1 d1 -> rounded f2 x2 d2 -> (x1 <= x2)%Q -> (value f1 <= value f2)%Q.
Proof.
  intros H1 H2 Hx.
  pose proof (rounded_value_bounds _ _ _ H1) as [_ U1].
  pose proof (rounded_value_bounds _ _ _ H2) as [L2 _].
  destruct H1 as (m1 & e1 & _ & _ & [Hl1 Hu1] & Hv1).
  destruct H2 as (m2 & e2 & _ & _ & [Hl2 Hu2] & Hv2).
  assert (Hd : d1 <= d2).
  { assert (pow2 (d1 - 1) < pow2 d2)%Q as H by lra. apply pow2_lt_inv in H. lia. }
  destruct (Z.eq_dec d1 d2) as [<-|Hne].
  - rewrite Hv1, Hv2. unfold round_at.
    pose proof (pow2_pos (d1 - 24)) as Hp.
    apply Qmult_le_compat_r; [|lra].
    rewrite <- Zle_Qle. apply rne_mono.
    apply Qle_shift_div_l; [assumption|].
    assert (E : (x1 / pow2 (d1 - 24) * pow2 (d1 - 24) == x1)%Q) by qfield.
    rewrite E. assumption.
  - assert (pow2 d1 <= pow2 (d2 - 1))%Q by (apply pow2_le; lia). lra.
Qed.

(** ** Exact results and conversion from integers *)

Lemma round_at_comp c x x' : (x == x')%Q -> (round_at c x == round_at c x')%Q.
Proof. intros E. unfold round_at. now rewrite E. Qed.

Lemma rounded_comp f x x' d : (x == x')%Q -> rounded f x d -> rounded f x' d.
Proof.
  intros E (m & e & Hn & He & [Hl Hu] & Hv).
  exists m, e. split; [assumption|]. split; [assumption|].
  split; [split|].
  - now rewrite <- E.
  - now rewrite <- E.
  - now rewrite Hv, (round_at_comp _ _ _ E).
Qed.

Lemma round_at_exact c k : (round_at c (inject_Z k * pow2 c) == inject_Z k * pow2 c)%Q.
Proof.
  unfold round_at. pose proof (pow2_pos c).
  assert (E : (inject_Z k * pow2 c / pow2 c == inject_Z k)%Q) by qfield.
  now rewrite E, rne_Z.
Qed.

Lemma binade_unique x d d' :
  (pow2 (d - 1) <= x /\ x < pow2 d)%Q ->
  (pow2 (d' - 1) <= x /\ x < pow2 d')%Q ->
  d = d'.
Proof.
  intros [A B] [A' B'].
  assert (H1 : (pow2 (d - 1) < pow2 d')%Q) by lra.
  assert (H2 : (pow2 (d' - 1) < pow2 d)%Q) by lra.
  apply pow2_lt_inv in H1, H2. lia.
Qed.

(** A number with at most 24 significant bits is its own rounding. *)
Lemma rounded_exact f x d k c :
  rounded f x d ->
  (x == inject_Z k * pow2 c)%Q ->
  (pow2 (c + 23) <= x /\ x < pow2 (c + 24))%Q ->
  (value f == x)%Q.
Proof.
  intros Hr Ex Hb.
  destruct Hr as (m & e & Hn & He & Hbd & Hv).
  assert (d = c + 24).
  { apply (binade_unique x); [assumption|].
    now replace (c + 24 - 1) with (c + 23) by lia. }
  subst d. rewrite Hv. replace (c + 24 - 24) with c by lia.
  rewrite (round_at_comp _ _ _ Ex). rewrite round_at_exact. now symmetry.
Qed.

(** ** Conversion from integers *)

Lemma iter_xO p k : Zpos (Pos.iter xO p k) = Zpos p * 2 ^ Zpos k.
Proof.
  induction k using Pos.peano_ind.
  - simpl. lia.
  - rewrite Pos.iter_succ, Pos2Z.inj_succ, Z.pow_succ_r by lia.
    rewrite Pos2Z.inj_xO, IHk. lia.
Qed.

Lemma Zdigits2_shift m k : 0 < m -> 0 <= k -> Zdigits2 (m * 2 ^ k) = Zdigits2 m + k.
Proof.
  intros Hm Hk. pose proof (Zdigits2_bounds m Hm) as [A B].
  pose proof (Zdigits2_pos m Hm) as Hd.
  apply Zdigits2_unique; [|lia].
  replace (Zdigits2 m + k - 1) with (Zdigits2 m - 1 + k) by lia.
  rewrite !Z.pow_add_r by lia.
  assert (0 < 2 ^ k) by (apply Z.pow_pos_nonneg; lia). nia.
Qed.

(** [binary_round] of a mantissa and an exponent is their product rounded. *)
Lemma binary_round_rounded p ex :
  let d := Zdigits2 (Zpos p) + ex in
  -149 <= d - 24 -> d <= 127 ->
  rounded (binary_round 24 128 false p ex) (inject_Z (Zpos p) * pow2 ex) d.
Proof.
  intros d Hmin Hmax.
  unfold binary_round.
  assert (Hfexp : fexp 24 128 (Z.pos (digits2_pos p) + ex) = d - 24).
  { unfold fexp, emin. fold (Zdigits2 (Zpos p)). fold d. lia. }
  rewrite Hfexp. unfold shl_align.
  pose proof (pow2_pos ex) as Hpe.
  destruct (d - 24 - ex) as [|k|k] eqn:E.
  - replace d with (Zdigits2 (Zpos p) + ex) by reflexivity.
    apply round_aux_rounded; try (fold d; lia).
    unfold located. qfield.
  - replace d with (Zdigits2 (Zpos p) + ex) by reflexivity.
    apply round_aux_rounded; try (fold d; lia).
    unfold located. qfield.
  - assert (Hd : Zdigits2 (Zpos (Pos.iter xO p k)) + (d - 24) = d).
    { rewrite iter_xO, Zdigits2_shift by lia. fold (Zdigits2 (Zpos p)). lia. }
    assert (HR : rounded (binary_round_aux 24 128 false (Zpos (Pos.iter xO p k))
                            (d - 24) loc_Exact)
                         (inject_Z (Zpos p) * pow2 ex)
                         (Zdigits2 (Zpos (Pos.iter xO p k)) + (d - 24)));
      [|now rewrite Hd in HR].
    apply round_aux_rounded; try (rewrite Hd; lia); try lia.
    unfold located. rewrite iter_xO, inject_Z_mult.
    rewrite <- (pow2_Z (Zpos k)) by lia.
    assert (Hk : (pow2 ex == pow2 (d - 24) * pow2 (Zpos k))%Q).
    { rewrite <- pow2_add. replace (d - 24 + Zpos k) with ex by lia. reflexivity. }
    rewrite Hk. pose proof (pow2_pos (d - 24)). pose proof (pow2_pos (Zpos k)).
    qfield.
Qed.

(** The float of a positive integer is that integer rounded. *)
Lemma float_of_int_rounded n :
  0 < n -> Zdigits2 n <= 127 ->
  rounded (float_of_int n) (inject_Z n) (Zdigits2 n).
Proof.
  intros Hn Hd. destruct n as [|p|p]; try lia.
  unfold float_of_int, binary_normalize.
  pose proof (Zdigits2_pos (Zpos p) Hn).
  apply (rounded_comp _ (inject_Z (Zpos p) * pow2 0)).
  - change (pow2 0) with 1%Q. ring.
  - replace (Zdigits2 (Zpos p)) with (Zdigits2 (Zpos p) + 0) by lia.
    apply binary_round_rounded; lia.
Qed.

(** ** Multiplication, division and conversion to integers *)

Lemma normal_bounds f m e : normal f m e -> 2 ^ 23 <= Zpos m < 2 ^ 24.
Proof.
  intros [_ Hd]. pose proof (Zdigits2_bounds (Zpos m) ltac:(lia)) as H.
  rewrite Hd in H. exact H.
Qed.

Lemma normal_value f m e : normal f m e -> value f = (inject_Z (Zpos m) * pow2 e)%Q.
Proof. intros [-> _]. reflexivity. Qed.

Lemma rounded_normal f x d :
  rounded f x d -> exists m e, normal f m e /\ d - 24 <= e <= d - 23.
Proof. intros (m & e & Hn & He & _). now exists m, e. Qed.

(** ** Multiplication *)

(** The product of two positive normal floats is the exact product rounded. *)
Lemma float_mul_rounded f1 m1 e1 f2 m2 e2 :
  normal f1 m1 e1 -> normal f2 m2 e2 ->
  -149 <= e1 + e2 + 23 -> e1 + e2 + 48 <= 127 ->
  exists d, e1 + e2 + 47 <= d <= e1 + e2 + 48
            /\ rounded (float_mul f1 f2) (value f1 * value f2) d.
Proof.
  intros H1 H2 Hmin Hmax.
  pose proof (normal_bounds _ _ _ H1) as B1. pose proof (normal_bounds _ _ _ H2) as B2.
  rewrite (normal_value _ _ _ H1), (normal_value _ _ _ H2).
  destruct H1 as [-> _], H2 as [-> _].
  unfold float_mul, SFmul. cbn [xorb].
  set (mx := Zpos (m1 * m2)).
  assert (Hmx : 2 ^ 46 <= mx < 2 ^ 48) by (unfold mx; rewrite Pos2Z.inj_mul; nia).
  assert (Hdig : 47 <= Zdigits2 mx <= 48).
  { pose proof (Zdigits2_bounds mx ltac:(lia)) as [A B].
    assert (H46 : 2 ^ 46 < 2 ^ Zdigits2 mx) by lia.
    assert (H48 : 2 ^ (Zdigits2 mx - 1) < 2 ^ 48) by lia.
    apply Z.pow_lt_mono_r_iff in H46; [|lia|pose proof (Zdigits2_pos mx); lia].
    apply Z.pow_lt_mono_r_iff in H48; lia. }
  exists (Zdigits2 mx + (e1 + e2)). split; [lia|].
  apply round_aux_rounded; try lia.
  unfold located, mx. rewrite Pos2Z.inj_mul, inject_Z_mult, pow2_add.
  pose proof (pow2_pos e1). pose proof (pow2_pos e2). qfield.
Qed.

(** ** Division *)

(** [new_location] locates a quotient from the remainder of the division. *)
Lemma new_location_located (m q r : Z) (y : Q) :
  0 < m -> 0 <= r < m ->
  (y == inject_Z q + inject_Z r / inject_Z m)%Q ->
  located q y (new_location m r).
Proof.
  intros Hm Hr Ey.
  assert (HM : (0 < inject_Z m)%Q) by (rewrite <- (Zlt_Qlt 0); lia).
  set (t := (inject_Z r / inject_Z m)%Q) in *.
  assert (Ht : (t * inject_Z m == inject_Z r)%Q) by (unfold t; qfield).
  assert (Hlt : 2 * r < m -> (t < 1 # 2)%Q).
  { intros H. apply Qlt_shift_div_r; [assumption|].
    rewrite Zlt_Qlt, inject_Z_mult in H. change (inject_Z 2) with 2%Q in H. lra. }
  assert (Hgt : m < 2 * r -> ((1 # 2) < t)%Q).
  { intros H. apply Qlt_shift_div_l; [assumption|].
    rewrite Zlt_Qlt, inject_Z_mult in H. change (inject_Z 2) with 2%Q in H. lra. }
  assert (Heq : 2 * r = m -> (t == 1 # 2)%Q).
  { intros H. unfold t. rewrite <- H, inject_Z_mult. change (inject_Z 2) with 2%Q.
    assert (H0 : (0 < inject_Z r)%Q) by (rewrite <- (Zlt_Qlt 0); lia).
    qfield. }
  assert (H0 : 0 < r -> (0 < t)%Q).
  { intros H. apply Qlt_shift_div_l; [assumption|].
    rewrite Zlt_Qlt in H. change (inject_Z 0) with 0%Q in H. lra. }
  assert (H1 : (t < 1)%Q).
  { apply Qlt_shift_div_r; [assumption|].
    destruct Hr as [_ Hr]. rewrite Zlt_Qlt in Hr. lra. }
  unfold new_location.
  destruct (Z.even m) eqn:Ev.
  - unfold new_location_even.
    destruct (Z.eqb_spec r 0) as [->|Hr0].
    + unfold located. rewrite Ey. unfold t. qfield.
    + destruct (Z.compare_spec (2 * r) m) as [E|L|G]; unfold located.
      * specialize (Heq E). lra.
      * specialize (Hlt L). specialize (H0 ltac:(lia)). lra.
      * specialize (Hgt G). lra.
  - unfold new_location_odd.
    assert (Hodd : 2 * r <> m).
    { intros <-. rewrite Z.even_mul in Ev. discriminate. }
    destruct (Z.eqb_spec r 0) as [->|Hr0].
    + unfold located. rewrite Ey. unfold t. qfield.
    + destruct (Z.compare_spec (2 * r + 1) m) as [E|L|G]; unfold located.
      * specialize (Hlt ltac:(lia)). specialize (H0 ltac:(lia)). lra.
      * specialize (Hlt ltac:(lia)). specialize (H0 ltac:(lia)). lra.
      * specialize (Hgt ltac:(lia)). lra.
Qed.

(** The quotient of two positive normal floats is the exact quotient
    rounded. *)
Lemma float_div_rounded f1 m1 e1 f2 m2 e2 :
  normal f1 m1 e1 -> normal f2 m2 e2 ->
  -149 <= e1 - e2 - 24 -> e1 - e2 + 1 <= 127 ->
  exists d, e1 - e2 <= d <= e1 - e2 + 1
            /\ rounded (float_div f1 f2) (value f1 / value f2) d.
Proof.
  intros H1 H2 Hmin Hmax.
  pose proof (normal_bounds _ _ _ H1) as B1. pose proof (normal_bounds _ _ _ H2) as B2.
  rewrite (normal_value _ _ _ H1), (normal_value _ _ _ H2).
  destruct H1 as [-> D1], H2 as [-> D2].
  unfold float_div, SFdiv, SFdiv_core_binary. cbn [xorb].
  rewrite D1, D2.
  assert (He' : Z.min (fexp prec32 emax32 (24 + e1 - (24 + e2))) (e1 - e2) = e1 - e2 - 24).
  { unfold fexp, emin, prec32, emax32. lia. }
  rewrite He'.
  replace (e1 - e2 - (e1 - e2 - 24)) with 24 by lia.
  rewrite Z.shiftl_mul_pow2 by lia.
  pose proof (Z_div_mod (Zpos m1 * 2 ^ 24) (Zpos m2) ltac:(lia)) as Hdm.
  destruct (Z.div_eucl (Zpos m1 * 2 ^ 24) (Zpos m2)) as [q r].
  destruct Hdm as [Hq Hr].
  assert (Hqb : 2 ^ 23 <= q < 2 ^ 25) by nia.
  assert (Hdig : 24 <= Zdigits2 q <= 25).
  { pose proof (Zdigits2_bounds q ltac:(lia)) as [A B].
    assert (Ha : 2 ^ 23 < 2 ^ Zdigits2 q) by lia.
    assert (Hb : 2 ^ (Zdigits2 q - 1) < 2 ^ 25) by lia.
    apply Z.pow_lt_mono_r_iff in Ha; [|lia|pose proof (Zdigits2_pos q); lia].
    apply Z.pow_lt_mono_r_iff in Hb; lia. }
  exists (Zdigits2 q + (e1 - e2 - 24)). split; [lia|].
  apply round_aux_rounded; try lia.
  apply new_location_located; try lia.
  pose proof (pow2_pos e1) as P1. pose proof (pow2_pos e2) as P2.
  pose proof (pow2_pos (e1 - e2 - 24)) as P3.
  assert (HM2 : (0 < inject_Z (Zpos m2))%Q) by (rewrite <- (Zlt_Qlt 0); lia).
  assert (Hp : (pow2 e1 == pow2 (e1 - e2 - 24) * pow2 e2 * inject_Z (2 ^ 24))%Q).
  { rewrite <- (pow2_Z 24) by lia. rewrite <- !pow2_add.
    replace (e1 - e2 - 24 + e2 + 24) with e1 by lia. reflexivity. }
  assert (HqQ : (inject_Z (Zpos m1) * inject_Z (2 ^ 24)
                 == inject_Z (Zpos m2) * inject_Z q + inject_Z r)%Q).
  { rewrite <- !inject_Z_mult, <- inject_Z_plus. now rewrite Hq. }
  rewrite Hp.
  assert (E : (inject_Z (Z.pos m1) * (pow2 (e1 - e2 - 24) * pow2 e2 * inject_Z (2 ^ 24))
               / (inject_Z (Z.pos m2) * pow2 e2) / pow2 (e1 - e2 - 24)
               == (inject_Z (Zpos m1) * inject_Z (2 ^ 24)) / inject_Z (Zpos m2))%Q).
  { qfield. }
  rewrite E, HqQ. qfield.
Qed.

(** ** Conversion to integers *)

(** Shifting a mantissa by the exponent gives the integer part of the value. *)
Lemma shiftl_floor m e : 0 < m -> Z.shiftl m e = Qfloor (inject_Z m * pow2 e).
Proof.
  intros Hm. destruct (Z.le_gt_cases 0 e) as [He|He].
  - rewrite Z.shiftl_mul_pow2 by assumption.
    rewrite (Qfloor_comp _ (inject_Z (m * 2 ^ e))); [now rewrite Qfloor_Z|].
    rewrite inject_Z_mult, (pow2_Z e) by assumption. reflexivity.
  - rewrite <- (Z.opp_involutive e) at 1. rewrite Z.shiftl_opp_r.
    rewrite Z.shiftr_div_pow2 by lia. rewrite Zdiv_Qdiv.
    apply Qfloor_comp.
    assert (E : (pow2 e == / inject_Z (2 ^ (- e)))%Q).
    { rewrite <- (pow2_Z (- e)) by lia. unfold pow2.
      rewrite <- Qpower_opp. now rewrite Z.opp_involutive. }
    rewrite E. reflexivity.
Qed.

(** [int_of_float] of a positive normal float is the integer part of its
    value, when that fits. *)
Lemma int_of_float_normal f m e :
  normal f m e ->
  int_of_float f
  = if Qfloor (value f) <=? INT_MAX then Some (Qfloor (value f)) else None.
Proof.
  intros Hn. rewrite (normal_value _ _ _ Hn). destruct Hn as [-> _].
  unfold int_of_float. rewrite shiftl_floor by lia.
  set (t := Qfloor _).
  assert (0 <= t).
  { unfold t. rewrite <- (Qfloor_Z 0). apply Qfloor_resp_le.
    pose proof (pow2_pos e). apply Qmult_le_0_compat; [|lra].
    rewrite <- (Zle_Qle 0). lia. }
  destruct (Z.leb_spec INT_MIN t); [reflexivity | unfold INT_MIN in *; lia].
Qed.

(** ** Signs and 32-bit integers *)

(** ** Signs *)

(** The sign only labels the result of rounding. *)
Lemma binary_round_aux_opp mx ex lx :
  binary_round_aux 24 128 true mx ex lx = SFopp (binary_round_aux 24 128 false mx ex lx).
Proof.
  unfold binary_round_aux.
  destruct (shr_fexp 24 128 mx ex lx) as [mrs' e'].
  destruct (shr_fexp 24 128 _ e' loc_Exact) as [mrs'' e''].
  destruct (shr_m mrs''); [reflexivity| |reflexivity].
  destruct (e'' <=? 128 - 24); reflexivity.
Qed.

Lemma float_of_int_opp n : 0 < n -> float_of_int (- n) = SFopp (float_of_int n).
Proof.
  destruct n as [|p|p]; try lia. intros _.
  unfold float_of_int, binary_normalize. cbn [Z.opp].
  unfold binary_round. destruct (shl_align _ _ _) as [mz ez].
  apply binary_round_aux_opp.
Qed.

Lemma float_div_opp_l m1 e1 m2 e2 :
  float_div (S754_finite true m1 e1) (S754_finite false m2 e2)
  = SFopp (float_div (S754_finite false m1 e1) (S754_finite false m2 e2)).
Proof.
  unfold float_div, SFdiv. cbn [xorb].
  destruct (SFdiv_core_binary _ _ _ _ _ _) as [[mz ez] lz].
  apply binary_round_aux_opp.
Qed.

Lemma float_div_opp_both m1 e1 m2 e2 :
  float_div (S754_finite true m1 e1) (S754_finite true m2 e2)
  = float_div (S754_finite false m1 e1) (S754_finite false m2 e2).
Proof. reflexivity. Qed.

Lemma float_mul_opp_l m1 e1 m2 e2 :
  float_mul (S754_finite true m1 e1) (S754_finite false m2 e2)
  = SFopp (float_mul (S754_finite false m1 e1) (S754_finite false m2 e2)).
Proof. unfold float_mul, SFmul. cbn [xorb]. apply binary_round_aux_opp. Qed.

(** ** Floats of 32-bit integers *)

Lemma Zdigits2_le m k : 0 < m < 2 ^ k -> 0 <= k -> Zdigits2 m <= k.
Proof.
  intros Hm Hk. pose proof (Zdigits2_bounds m ltac:(lia)) as [A _].
  assert (H : 2 ^ (Zdigits2 m - 1) < 2 ^ k) by lia.
  apply Z.pow_lt_mono_r_iff in H; lia.
Qed.

(** The float of a positive 32-bit integer is normal, with a small
    exponent. *)
Lemma float_of_int_normal n :
  0 < n <= 2 ^ 31 ->
  exists m e,
    normal (float_of_int n) m e /\ -23 <= e <= 9
    /\ rounded (float_of_int n) (inject_Z n) (Zdigits2 n).
Proof.
  intros Hn.
  assert (Hd : Zdigits2 n <= 32) by (apply Zdigits2_le; lia).
  pose proof (Zdigits2_pos n ltac:(lia)) as Hd0.
  pose proof (float_of_int_rounded n ltac:(lia) ltac:(lia)) as Hr.
  destruct (rounded_normal _ _ _ Hr) as (m & e & Hnorm & He).
  exists m, e. repeat split; try assumption; try lia; apply Hnorm.
Qed.

Lemma normal_value_pos f m e : normal f m e -> (0 < value f)%Q.
Proof.
  intros Hn. rewrite (normal_value _ _ _ Hn).
  pose proof (pow2_pos e). apply Qmult_lt_0_compat; [|assumption].
  rewrite <- (Zlt_Qlt 0). lia.
Qed.

(** The quotient of the floats of two positive integers. *)
Lemma ratio_normal c mx :
  0 < c <= 2 ^ 31 -> 0 < mx <= 2 ^ 31 ->
  exists d m e,
    rounded (float_div (float_of_int c) (float_of_int mx))
            (value (float_of_int c) / value (float_of_int mx)) d
    /\ normal (float_div (float_of_int c) (float_of_int mx)) m e
    /\ -57 <= e <= 10.
Proof.
  intros Hc Hm.
  destruct (float_of_int_normal c Hc) as (m1 & e1 & N1 & E1 & _).
  destruct (float_of_int_normal mx Hm) as (m2 & e2 & N2 & E2 & _).
  destruct (float_div_rounded _ _ _ _ _ _ N1 N2 ltac:(lia) ltac:(lia)) as (d & Hd & Hr).
  destruct (rounded_normal _ _ _ Hr) as (m & e & Hn & He).
  exists d, m, e. repeat split; try assumption; try lia; apply Hn.
Qed.

(** The quotient scaled by a positive integer constant. *)
Lemma scaled_normal k c mx :
  0 < k <= 2 ^ 31 -> 0 < c <= 2 ^ 31 -> 0 < mx <= 2 ^ 31 ->
  exists d m e,
    rounded (float_mul (float_div (float_of_int c) (float_of_int mx)) (float_of_int k))
            (value (float_div (float_of_int c) (float_of_int mx)) * value (float_of_int k)) d
    /\ normal (float_mul (float_div (float_of_int c) (float_of_int mx)) (float_of_int k)) m e.
Proof.
  intros Hk Hc Hm.
  destruct (ratio_normal c mx Hc Hm) as (d1 & m1 & e1 & _ & N1 & E1).
  destruct (float_of_int_normal k Hk) as (m2 & e2 & N2 & E2 & _).
  destruct (float_mul_rounded _ _ _ _ _ _ N1 N2 ltac:(lia) ltac:(lia)) as (d & Hd & Hr).
  destruct (rounded_normal _ _ _ Hr) as (m & e & Hn & He).
  exists d, m, e. split; assumption.
Qed.

Lemma float_of_int_mono c1 c2 :
  0 < c1 <= c2 -> c2 <= 2 ^ 31 ->
  (value (float_of_int c1) <= value (float_of_int c2))%Q.
Proof.
  intros H1 H2.
  destruct (float_of_int_normal c1 ltac:(lia)) as (_ & _ & _ & _ & R1).
  destruct (float_of_int_normal c2 ltac:(lia)) as (_ & _ & _ & _ & R2).
  apply (rounded_mono _ _ _ _ _ _ R1 R2). rewrite <- Zle_Qle. lia.
Qed.

Lemma ratio_mono c1 c2 mx :
  0 < c1 <= c2 -> c2 <= 2 ^ 31 -> 0 < mx <= 2 ^ 31 ->
  (value (float_div (float_of_int c1) (float_of_int mx))
   <= value (float_div (float_of_int c2) (float_of_int mx)))%Q.
Proof.
  intros H1 H2 Hm.
  destruct (ratio_normal c1 mx ltac:(lia) Hm) as (d1 & _ & _ & R1 & _).
  destruct (ratio_normal c2 mx ltac:(lia) Hm) as (d2 & _ & _ & R2 & _).
  apply (rounded_mono _ _ _ _ _ _ R1 R2).
  destruct (float_of_int_normal mx Hm) as (m & e & N & _).
  pose proof (normal_value_pos _ _ _ N) as Hpos.
  pose proof (float_of_int_mono c1 c2 H1 H2) as Hle.
  apply Qle_shift_div_l; [assumption|].
  assert (E : (value (float_of_int c1) / value (float_of_int mx) * value (float_of_int mx)
               == value (float_of_int c1))%Q) by qfield.
  rewrite E. assumption.
Qed.

Lemma scaled_mono k c1 c2 mx :
  0 < k <= 2 ^ 31 -> 0 < c1 <= c2 -> c2 <= 2 ^ 31 -> 0 < mx <= 2 ^ 31 ->
  (value (float_mul (float_div (float_of_int c1) (float_of_int mx)) (float_of_int k))
   <= value (float_mul (float_div (float_of_int c2) (float_of_int mx)) (float_of_int k)))%Q.
Proof.
  intros Hk H1 H2 Hm.
  destruct (scaled_normal k c1 mx Hk ltac:(lia) Hm) as (d1 & _ & _ & R1 & _).
  destruct (scaled_normal k c2 mx Hk ltac:(lia) Hm) as (d2 & _ & _ & R2 & _).
  apply (rounded_mono _ _ _ _ _ _ R1 R2).
  destruct (float_of_int_normal k Hk) as (m & e & N & _).
  pose proof (normal_value_pos _ _ _ N) as Hpos.
  pose proof (ratio_mono c1 c2 mx H1 H2 Hm) as Hle.
  apply Qmult_le_compat_r; lra.
Qed.

(** ** One and a half *)

(** A positive normal float is determined by its value. *)
Lemma normal_of_value f m e m' e' :
  normal f m e ->
  2 ^ 23 <= m' < 2 ^ 24 ->
  (value f == inject_Z m' * pow2 e')%Q ->
  f = S754_finite false (Z.to_pos m') e'.
Proof.
  intros Hn Hm' Hv.
  pose proof (normal_bounds _ _ _ Hn) as Hm.
  rewrite (normal_value _ _ _ Hn) in Hv. destruct Hn as [-> _].
  assert (Hb : forall (a : Z) (c : Z), 2 ^ 23 <= a < 2 ^ 24 ->
             (pow2 (c + 24 - 1) <= inject_Z a * pow2 c
              /\ inject_Z a * pow2 c < pow2 (c + 24))%Q).
  { intros a c [Ha1 Ha2]. pose proof (pow2_pos c) as Hp.
    replace (c + 24 - 1) with (23 + c) by lia. replace (c + 24) with (24 + c) by lia.
    rewrite (pow2_add 23 c), (pow2_add 24 c), (pow2_Z 23), (pow2_Z 24) by lia.
    rewrite Zle_Qle in Ha1. rewrite Zlt_Qlt in Ha2.
    split; [apply Qmult_le_compat_r | apply Qmult_lt_compat_r]; lra. }
  pose proof (Hb (Zpos m) e Hm) as B1. pose proof (Hb m' e' Hm') as B2.
  rewrite <- Hv in B2.
  assert (He : e + 24 = e' + 24) by (apply (binade_unique _ _ _ B1 B2)).
  assert (e = e') by lia. subst e'.
  assert (Hmm : (inject_Z (Zpos m) == inject_Z m')%Q).
  { pose proof (pow2_pos e) as Hp.
    apply (Qmult_inj_r _ _ (pow2 e)); [lra | assumption]. }
  apply (proj1 (inject_Z_injective _ _)) in Hmm. rewrite <- Hmm. reflexivity.
Qed.

Lemma round_at_double c x : (round_at (c + 1) (2 * x) == 2 * round_at c x)%Q.
Proof.
  unfold round_at. pose proof (pow2_pos c) as Hp.
  assert (E : (2 * x / pow2 (c + 1) == x / pow2 c)%Q).
  { rewrite pow2_succ. qfield. }
  rewrite E, pow2_succ. ring.
Qed.

(** A float divided by itself is one. *)
Lemma ratio_self mx :
  0 < mx <= 2 ^ 31 ->
  float_div (float_of_int mx) (float_of_int mx) = one32.
Proof.
  intros Hm.
  destruct (ratio_normal mx mx Hm Hm) as (d & m & e & R & N & _).
  destruct (float_of_int_normal mx Hm) as (m0 & e0 & N0 & _).
  pose proof (normal_value_pos _ _ _ N0) as Hpos.
  apply (normal_of_value _ m e (2 ^ 23) (-23) N); [lia|].
  assert (E1 : (value (float_of_int mx) / value (float_of_int mx) == 1)%Q) by qfield.
  apply (rounded_comp _ _ _ _ E1) in R.
  rewrite (rounded_exact _ _ _ (2 ^ 23) (-23) R); [reflexivity | reflexivity |].
  split; [discriminate | reflexivity].
Qed.

(** The float of an integer divided by the float of its double is a half. *)
Lemma ratio_half n :
  0 < n -> 2 * n <= 2 ^ 31 ->
  float_div (float_of_int n) (float_of_int (2 * n)) = half32.
Proof.
  intros Hn H2n.
  destruct (ratio_normal n (2 * n) ltac:(lia) ltac:(lia)) as (d & m & e & R & N & _).
  destruct (float_of_int_normal n ltac:(lia)) as (m1 & e1 & N1 & _ & R1).
  destruct (float_of_int_normal (2 * n) ltac:(lia)) as (m2 & e2 & N2 & _ & R2).
  pose proof (normal_value_pos _ _ _ N1) as Hpos.
  assert (Hdig : Zdigits2 (2 * n) = Zdigits2 n + 1).
  { rewrite Z.mul_comm. apply (Zdigits2_shift n 1); lia. }
  assert (Hv2 : (value (float_of_int (2 * n)) == 2 * value (float_of_int n))%Q).
  { destruct R1 as (? & ? & _ & _ & _ & V1). destruct R2 as (? & ? & _ & _ & _ & V2).
    rewrite V1, V2, Hdig.
    replace (Zdigits2 n + 1 - 24) with (Zdigits2 n - 24 + 1) by lia.
    rewrite <- round_at_double. apply round_at_comp.
    rewrite inject_Z_mult. reflexivity. }
  apply (normal_of_value _ m e (2 ^ 23) (-24) N); [lia|].
  assert (E : (value (float_of_int n) / value (float_of_int (2 * n)) == 1 # 2)%Q).
  { rewrite Hv2. qfield. }
  apply (rounded_comp _ _ _ _ E) in R.
  rewrite (rounded_exact _ _ _ (2 ^ 23) (-24) R); [reflexivity | reflexivity |].
  split; [discriminate | reflexivity].
Qed.

(** ** The scaled ratio as an integer *)

Lemma std_min_min a b : std_min a b = Z.min a b.
Proof. unfold std_min. destruct (Z.ltb_spec b a); lia. Qed.

Lemma magnitude_nonneg k mx c :
  0 < k <= 2 ^ 31 -> 0 < c <= 2 ^ 31 -> 0 < mx <= 2 ^ 31 -> 0 <= magnitude k mx c.
Proof.
  intros Hk Hc Hm.
  destruct (scaled_normal k c mx Hk Hc Hm) as (d & m & e & _ & N).
  pose proof (normal_value_pos _ _ _ N) as Hpos.
  unfold magnitude. rewrite <- (Qfloor_Z 0). apply Qfloor_resp_le.
  change (inject_Z 0) with 0%Q. lra.
Qed.

Lemma magnitude_mono k mx c1 c2 :
  0 < k <= 2 ^ 31 -> 0 < c1 <= c2 -> c2 <= 2 ^ 31 -> 0 < mx <= 2 ^ 31 ->
  magnitude k mx c1 <= magnitude k mx c2.
Proof.
  intros Hk H1 H2 Hm. unfold magnitude.
  apply Qfloor_resp_le. now apply scaled_mono.
Qed.

Lemma magnitude_full_100 mx : 0 < mx <= 2 ^ 31 -> magnitude 100 mx mx = 100.
Proof. intros Hm. unfold magnitude. rewrite (ratio_self mx Hm). reflexivity. Qed.

Lemma magnitude_full_10 mx : 0 < mx <= 2 ^ 31 -> magnitude 10 mx mx = 10.
Proof. intros Hm. unfold magnitude. rewrite (ratio_self mx Hm). reflexivity. Qed.

(** The scaled ratio for a positive, a zero and a negative current value,
    the maximum being positive. *)
Lemma scaled_pos k mx c :
  0 < k <= 2 ^ 31 -> 0 < c <= 2 ^ 31 -> 0 < mx <= 2 ^ 31 ->
  scaled k mx c
  = if magnitude k mx (Z.min c mx) <=? INT_MAX
    then Some (magnitude k mx (Z.min c mx)) else None.
Proof.
  intros Hk Hc Hm. unfold scaled, loading_waiter.percentage. rewrite std_min_min.
  destruct (scaled_normal k (Z.min c mx) mx Hk ltac:(lia) Hm) as (d & m & e & _ & N).
  now rewrite (int_of_float_normal _ _ _ N).
Qed.

Lemma scaled_zero k mx :
  0 < k <= 2 ^ 31 -> 0 < mx <= 2 ^ 31 -> scaled k mx 0 = Some 0.
Proof.
  intros Hk Hm. unfold scaled, loading_waiter.percentage. rewrite std_min_min.
  replace (Z.min 0 mx) with 0 by lia.
  destruct (float_of_int_normal mx Hm) as (m & e & [-> _] & _).
  destruct (float_of_int_normal k Hk) as (m' & e' & [-> _] & _).
  reflexivity.
Qed.

Lemma scaled_neg k mx c :
  0 < k <= 2 ^ 31 -> - 2 ^ 31 <= c < 0 -> 0 < mx <= 2 ^ 31 ->
  scaled k mx c
  = if magnitude k mx (- c) <=? 2 ^ 31
    then Some (- magnitude k mx (- c)) else None.
Proof.
  intros Hk Hc Hm. unfold scaled, loading_waiter.percentage, magnitude. rewrite std_min_min.
  replace (Z.min c mx) with (- - c) by lia.
  rewrite (float_of_int_opp (- c)) by lia.
  destruct (scaled_normal k (- c) mx Hk ltac:(lia) Hm) as (d & m & e & _ & N).
  destruct (ratio_normal (- c) mx ltac:(lia) Hm) as (d1 & m1 & e1 & _ & N1 & _).
  destruct (float_of_int_normal (- c) ltac:(lia)) as (ma & ea & [Ea _] & _).
  destruct (float_of_int_normal mx Hm) as (mb & eb & [Eb _] & _).
  destruct (float_of_int_normal k Hk) as (mk & ek & [Ek _] & _).
  pose proof (magnitude_nonneg k mx (- c) Hk ltac:(lia) Hm) as Hg.
  unfold magnitude in Hg.
  rewrite (normal_value _ _ _ N) in *.
  destruct N as [N _]. destruct N1 as [N1 _].
  rewrite Ea, Eb, Ek in *. cbn [SFopp negb].
  rewrite N1 in N.
  rewrite float_div_opp_l, N1. cbn [SFopp negb].
  rewrite float_mul_opp_l, N. cbn [SFopp negb].
  unfold int_of_float. rewrite shiftl_floor by lia.
  set (t := Qfloor _) in *.
  destruct (Z.leb_spec t (2 ^ 31)), (Z.leb_spec INT_MIN (- t)),
           (Z.leb_spec (- t) INT_MAX);
    unfold INT_MIN, INT_MAX in *; cbn [andb]; try reflexivity; lia.
Qed.

(** For a positive maximum, the scaled quotient grows with the current
    value wherever the conversion to [int] is defined. *)
Lemma scaled_monotone k mx c1 c2 v1 v2 :
  0 < k <= 2 ^ 31 -> 0 < mx <= 2 ^ 31 ->
  - 2 ^ 31 <= c1 -> c1 <= c2 -> c2 <= 2 ^ 31 ->
  scaled k mx c1 = Some v1 -> scaled k mx c2 = Some v2 -> v1 <= v2.
Proof.
  intros Hk Hm Hl H12 Hu S1 S2.
  assert (Hpos : forall c v, 0 < c <= 2 ^ 31 -> scaled k mx c = Some v ->
                             v = magnitude k mx (Z.min c mx)).
  { intros c v Hc. rewrite (scaled_pos k mx c Hk Hc Hm).
    destruct (_ <=? _); congruence. }
  assert (Hneg : forall c v, - 2 ^ 31 <= c < 0 -> scaled k mx c = Some v ->
                             v = - magnitude k mx (- c)).
  { intros c v Hc. rewrite (scaled_neg k mx c Hk Hc Hm).
    destruct (_ <=? _); congruence. }
  assert (Hzero : forall v, scaled k mx 0 = Some v -> v = 0).
  { intros v. rewrite (scaled_zero k mx Hk Hm). congruence. }
  destruct (Z.lt_trichotomy c1 0) as [N1|[Z1|P1]];
    destruct (Z.lt_trichotomy c2 0) as [N2|[Z2|P2]]; try lia.
  - rewrite (Hneg c1 v1 ltac:(lia) S1), (Hneg c2 v2 ltac:(lia) S2).
    pose proof (magnitude_mono k mx (- c2) (- c1) Hk ltac:(lia) ltac:(lia) Hm). lia.
  - subst c2. rewrite (Hneg c1 v1 ltac:(lia) S1), (Hzero v2 S2).
    pose proof (magnitude_nonneg k mx (- c1) Hk ltac:(lia) Hm). lia.
  - rewrite (Hneg c1 v1 ltac:(lia) S1), (Hpos c2 v2 ltac:(lia) S2).
    pose proof (magnitude_nonneg k mx (- c1) Hk ltac:(lia) Hm).
    pose proof (magnitude_nonneg k mx (Z.min c2 mx) Hk ltac:(lia) Hm). lia.
  - subst c1 c2. rewrite (Hzero v1 S1), (Hzero v2 S2). lia.
  - subst c1. rewrite (Hzero v1 S1), (Hpos c2 v2 ltac:(lia) S2).
    pose proof (magnitude_nonneg k mx (Z.min c2 mx) Hk ltac:(lia) Hm). lia.
  - rewrite (Hpos c1 v1 ltac:(lia) S1), (Hpos c2 v2 ltac:(lia) S2).
    apply magnitude_mono; lia.
Qed.

(** ** The progress bar *)

Lemma percent_scaled mx c : loading_waiter.percent mx c = scaled 100 mx c.
Proof. reflexivity. Qed.

Lemma count_to_draw_scaled mx c : loading_waiter.count_to_draw mx c = scaled 10 mx c.
Proof. reflexivity. Qed.

Lemma length_decimal (fuel : nat) (n : Z) : (String.length (decimal fuel n) <= fuel)%nat.
Proof.
  revert n. induction fuel as [|fuel IH]; intros n; simpl; [lia|].
  rewrite length_append. simpl.
  destruct (n <? 10); [simpl; lia | specialize (IH (n / 10)); lia].
Qed.

Lemma length_string_of_Z (z : Z) : (String.length (string_of_Z z) <= 11)%nat.
Proof.
  unfold string_of_Z. destruct (z <? 0); cbn [String.length].
  - pose proof (length_decimal 10 (- z)). lia.
  - pose proof (length_decimal 10 z). lia.
Qed.

Lemma length_take (n : nat) (s : string) :
  (n <= String.length s)%nat -> String.length (take n s) = n.
Proof.
  revert s. induction n as [|n IH]; intros [|c s] H; simpl in *; try lia.
  now rewrite IH by lia.
Qed.

Lemma count_to_skip_small (n : Z) :
  0 <= n <= 10 -> loading_waiter.count_to_skip n = 10 - n.
Proof.
  intros H. unfold loading_waiter.count_to_skip, to_int32.
  change loading_waiter.length with 10.
  rewrite Z.mod_small; lia.
Qed.

(** What the format of [update] prints when the cell count is between 0
    and 10. *)
Lemma sprintf_bar (pad percent n : Z) :
  0 <= pad -> 0 <= n <= 10 ->
  sprintf (String CR "%*s%d%%[%.*s%*s]")
          [PInt pad; PStr ""; PInt percent; PInt n;
           PStr loading_waiter.full_line_text;
           PInt (loading_waiter.count_to_skip n); PStr ""]
  = Some (loading_waiter.bar_text pad percent n).
Proof.
  intros Hpad Hn. rewrite (count_to_skip_small n Hn).
  unfold sprintf.
  change (format_from Plain (String CR "%*s%d%%[%.*s%*s]") ?a)
    with (option_map (String CR) (sprintf ("%*s" ++ "%d%%[%.*s%*s]") a)).
  rewrite sprintf_padding by assumption.
  unfold sprintf, loading_waiter.bar_text.
  change loading_waiter.length with 10.
  cbn [format_from convert justify truncate option_map append Ascii.eqb Bool.eqb].
  destruct (Z.leb_spec 0 n); [|lia].
  destruct (Z.leb_spec 0 (10 - n)); [|lia].
  rewrite Nat.sub_0_r, append_empty_r. reflexivity.
Qed.

Lemma length_bar_text (pad percent n : Z) :
  0 <= pad -> 0 <= n <= 10 ->
  Z.of_nat (String.length (loading_waiter.bar_text pad percent n))
  = pad + Z.of_nat (String.length (string_of_Z percent)) + 14.
Proof.
  intros Hpad Hn. unfold loading_waiter.bar_text.
  change loading_waiter.length with 10.
  cbn [String.length]. rewrite !length_append, !length_spaces.
  rewrite length_take by (change (String.length loading_waiter.full_line_text) with 10%nat; lia).
  cbn [String.length]. lia.
Qed.

(** An [update] whose percentage is defined and whose cell count is between
    0 and 10 writes the bar and records the number of characters. *)
Lemma loading_update_runs (self : loading_waiter.state) (cur p n : Z) (w : world) :
  0 <= logger_padding w <= 255 ->
  loading_waiter.percent (loading_waiter.max_value self) cur = Some p ->
  loading_waiter.count_to_draw (loading_waiter.max_value self) cur = Some n ->
  0 <= n <= 10 ->
  loading_waiter.update self cur w =
  Ret {| loading_waiter.last_drawn_count :=
           Z.of_nat (String.length (loading_waiter.bar_text (logger_padding w) p n));
         loading_waiter.max_value := loading_waiter.max_value self;
         loading_waiter.should_clear_on_release :=
           loading_waiter.should_clear_on_release self |}
      (emit w (EvWrite (loading_waiter.bar_text (logger_padding w) p n))).
Proof.
  intros Hpad Hp Hn Hr. unfold loading_waiter.update. rewrite Hp, Hn.
  change loading_waiter.length with 10.
  destruct (Z.leb_spec 0 n); [|lia]. destruct (Z.leb_spec n 10); [|lia].
  cbn [andb]. destruct w as [h a c s pd k r]. cbn [logger_padding] in *. run.
  rewrite sprintf_bar by lia.
  pose proof (length_bar_text pd p n ltac:(lia) Hr) as Hlen.
  pose proof (length_string_of_Z p).
  unfold to_uint32. rewrite Z.mod_small by lia. reflexivity.
Qed.

(** Whenever [update] returns, it has written such a bar. *)
Lemma loading_update_inv (self self' : loading_waiter.state) (cur : Z) (w w' : world) :
  0 <= logger_padding w <= 255 ->
  loading_waiter.update self cur w = Ret self' w' ->
  exists p n,
    loading_waiter.percent (loading_waiter.max_value self) cur = Some p
    /\ loading_waiter.count_to_draw (loading_waiter.max_value self) cur = Some n
    /\ 0 <= n <= 10
    /\ self' = {| loading_waiter.last_drawn_count :=
                    Z.of_nat (String.length (loading_waiter.bar_text (logger_padding w) p n));
                  loading_waiter.max_value := loading_waiter.max_value self;
                  loading_waiter.should_clear_on_release :=
                    loading_waiter.should_clear_on_release self |}
    /\ w' = emit w (EvWrite (loading_waiter.bar_text (logger_padding w) p n)).
Proof.
  intros Hpad Hrun.
  destruct (loading_waiter.percent (loading_waiter.max_value self) cur) as [p|] eqn:Hp;
    [|unfold loading_waiter.update in Hrun; rewrite Hp in Hrun; discriminate].
  destruct (loading_waiter.count_to_draw (loading_waiter.max_value self) cur) as [n|] eqn:Hn;
    [|unfold loading_waiter.update in Hrun; rewrite Hp, Hn in Hrun; discriminate].
  assert (Hr : 0 <= n <= 10).
  { unfold loading_waiter.update in Hrun. rewrite Hp, Hn in Hrun.
    change loading_waiter.length with 10 in Hrun.
    destruct (Z.leb_spec 0 n), (Z.leb_spec n 10); try discriminate. lia. }
  rewrite (loading_update_runs self cur p n w Hpad Hp Hn Hr) in Hrun.
  injection Hrun as <- <-. exists p, n. repeat split; assumption || lia.
Qed.

(** At or above the maximum the ratio is exactly one, for every maximum
    other than zero. *)
Lemma percentage_full (mx cur : Z) :
  mx <> 0 -> int_range mx -> mx <= cur ->
  loading_waiter.percentage mx cur = one32.
Proof.
  unfold int_range, INT_MIN, INT_MAX. intros Hnz Hr Hle.
  unfold loading_waiter.percentage. rewrite std_min_min.
  replace (Z.min cur mx) with mx by lia.
  destruct (Z.lt_ge_cases 0 mx) as [Hpos|Hneg].
  - apply ratio_self. lia.
  - replace mx with (- - mx) by lia.
    rewrite (float_of_int_opp (- mx)) by lia.
    pose proof (ratio_self (- mx) ltac:(lia)) as Hself.
    destruct (float_of_int_normal (- mx) ltac:(lia)) as (m & e & [E _] & _).
    rewrite E in *. cbn [SFopp negb]. rewrite float_div_opp_both. exact Hself.
Qed.

(** For a positive maximum and a current value that is not negative, the
    scaled ratio is defined and lies between 0 and [k]. *)
Lemma scaled_defined (k mx c : Z) :
  0 < k <= 2 ^ 31 - 1 -> magnitude k mx mx = k ->
  0 < mx <= 2 ^ 31 -> 0 <= c <= 2 ^ 31 ->
  exists v, scaled k mx c = Some v /\ 0 <= v <= k
            /\ (0 < c -> v = magnitude k mx (Z.min c mx)).
Proof.
  intros Hk Hfull Hm Hc.
  destruct (Z.eq_dec c 0) as [->|Hnz].
  - exists 0. rewrite scaled_zero by lia. repeat split; lia.
  - pose proof (magnitude_nonneg k mx (Z.min c mx) ltac:(lia) ltac:(lia) Hm) as Hlo.
    pose proof (magnitude_mono k mx (Z.min c mx) mx ltac:(lia) ltac:(lia) ltac:(lia) Hm) as Hhi.
    rewrite Hfull in Hhi.
    exists (magnitude k mx (Z.min c mx)).
    rewrite scaled_pos by lia.
    destruct (Z.leb_spec (magnitude k mx (Z.min c mx)) INT_MAX);
      [repeat split; lia | unfold INT_MAX in *; lia].
Qed.




(** Half of an even positive maximum gives a ratio of exactly one half. *)
Lemma percentage_half (mx : Z) :
  0 < mx <= INT_MAX -> Z.even mx = true ->
  loading_waiter.percentage mx (mx ÷ 2) = half32.
Proof.
  unfold INT_MAX. intros Hm Hev.
  apply Z.even_spec in Hev. destruct Hev as [n ->].
  rewrite Z.mul_comm, Z.quot_mul by lia.
  unfold loading_waiter.percentage. rewrite std_min_min.
  replace (Z.min n (n * 2)) with n by lia.
  rewrite (Z.mul_comm n 2). apply ratio_half; lia.
Qed.

(** For positive arguments, the percentage and the cell count are the
    integer parts of the single-precision products. *)
Lemma scaled_floor (k mx c : Z) :
  0 < k <= 2 ^ 31 - 1 -> magnitude k mx mx = k ->
  0 < mx <= 2 ^ 31 -> 0 < c <= 2 ^ 31 ->
  scaled k mx c
  = Some (Qfloor (value (float_mul (loading_waiter.percentage mx c) (float_of_int k)))).
Proof.
  intros Hk Hfull Hm Hc.
  destruct (scaled_defined k mx c Hk Hfull Hm ltac:(lia)) as (v & Hv & _ & Hmag).
  rewrite Hv, (Hmag ltac:(lia)).
  unfold magnitude, loading_waiter.percentage. now rewrite std_min_min.
Qed.

(** C4, as stated, fails for an odd maximum: with maximum 3, [update (3/2)]
    is [update (1)] and fills 3 cells, not 5. *)
Lemma C4_counterexample :
  3 ÷ 2 = 1
  /\ loading_waiter.count_to_draw 3 (3 ÷ 2) = Some 3
  /\ loading_waiter.update (waiter 3 false) (3 ÷ 2) red_console
     = Ret {| loading_waiter.last_drawn_count := 16;
              loading_waiter.max_value := 3;
              loading_waiter.should_clear_on_release := false |}
           (emit red_console
                 (EvWrite (String CR ("33%[" ++ take 3 loading_waiter.full_line_text
                                      ++ "       ]")))).
Proof. repeat split. Qed.

(** C4, amended. With maximum 200, [update (50)] draws 25% with 2 filled
    and 8 blank cells and [update (250)] draws 100% with all 10 filled.  For
    every even positive maximum, [update (max_value / 2)] draws 50% with 5
    filled and 5 blank cells.  For positive values, the percentage and the
    filled-cell count are the single-precision products of the ratio with
    100 and 10, cut to their integer parts. *)
Theorem C4_half_and_quarter_bars :
  (forall self w,
      loading_waiter.max_value self = 200 ->
      0 <= logger_padding w <= 255 ->
      loading_waiter.update self 50 w
      = Ret {| loading_waiter.last_drawn_count := logger_padding w + 16;
               loading_waiter.max_value := 200;
               loading_waiter.should_clear_on_release :=
                 loading_waiter.should_clear_on_release self |}
            (emit w (EvWrite (loading_waiter.bar_text (logger_padding w) 25 2)))
      /\ loading_waiter.update self 250 w
         = Ret {| loading_waiter.last_drawn_count := logger_padding w + 17;
                  loading_waiter.max_value := 200;
                  loading_waiter.should_clear_on_release :=
                    loading_waiter.should_clear_on_release self |}
               (emit w (EvWrite (loading_waiter.bar_text (logger_padding w) 100 10))))
  /\ loading_waiter.bar_text 0 25 2
     = String CR ("25%[" ++ take 2 loading_waiter.full_line_text ++ "        ]")
  /\ (forall self w,
         0 < loading_waiter.max_value self <= INT_MAX ->
         Z.even (loading_waiter.max_value self) = true ->
         0 <= logger_padding w <= 255 ->
         let half := loading_waiter.max_value self ÷ 2 in
         loading_waiter.percent (loading_waiter.max_value self) half = Some 50
         /\ loading_waiter.count_to_draw (loading_waiter.max_value self) half = Some 5
         /\ loading_waiter.count_to_skip 5 = 5
         /\ loading_waiter.update self half w
            = Ret {| loading_waiter.last_drawn_count := logger_padding w + 16;
                     loading_waiter.max_value := loading_waiter.max_value self;
                     loading_waiter.should_clear_on_release :=
                       loading_waiter.should_clear_on_release self |}
                  (emit w (EvWrite (loading_waiter.bar_text (logger_padding w) 50 5))))
  /\ (forall mx cur,
         0 < mx <= INT_MAX -> 0 < cur <= INT_MAX ->
         loading_waiter.percent mx cur
         = Some (Qfloor (value (float_mul (loading_waiter.percentage mx cur)
                                          (float_of_int 100))))
         /\ loading_waiter.count_to_draw mx cur
            = Some (Qfloor (value (float_mul (loading_waiter.percentage mx cur)
                                             (float_of_int 10))))).
Proof.
  split; [|split; [reflexivity|split]].
  - intros [ldc mx clear] w Hmx Hpad. cbn [loading_waiter.max_value] in Hmx. subst mx.
    split.
    + rewrite (loading_update_runs _ 50 25 2 w Hpad); try reflexivity; [|lia].
      rewrite length_bar_text by lia.
      change (Z.of_nat (String.length (string_of_Z 25))) with 2.
      cbn [loading_waiter.max_value loading_waiter.should_clear_on_release].
      do 2 f_equal. lia.
    + rewrite (loading_update_runs _ 250 100 10 w Hpad); try reflexivity; [|lia].
      rewrite length_bar_text by lia.
      change (Z.of_nat (String.length (string_of_Z 100))) with 3.
      cbn [loading_waiter.max_value loading_waiter.should_clear_on_release].
      do 2 f_equal. lia.
  - intros self w Hm Hev Hpad half.
    assert (Hp : loading_waiter.percent (loading_waiter.max_value self) half = Some 50).
    { unfold loading_waiter.percent, half. now rewrite percentage_half. }
    assert (Hn : loading_waiter.count_to_draw (loading_waiter.max_value self) half = Some 5).
    { unfold loading_waiter.count_to_draw, half. now rewrite percentage_half. }
    split; [exact Hp|]. split; [exact Hn|]. split; [reflexivity|].
    rewrite (loading_update_runs self half 50 5 w Hpad Hp Hn ltac:(lia)).
    rewrite length_bar_text by lia.
    change (Z.of_nat (String.length (string_of_Z 50))) with 2.
    do 2 f_equal. lia.
  - unfold INT_MAX. intros mx cur Hm Hc. split.
    + rewrite percent_scaled. apply scaled_floor; try lia.
      apply magnitude_full_100. lia.
    + rewrite count_to_draw_scaled. apply scaled_floor; try lia.
      apply magnitude_full_10. lia.
Qed.

Lemma C4_witness :
  loading_waiter.update (waiter 200 false) 50 quiet_world
  = Ret {| loading_waiter.last_drawn_count := 20;
           loading_waiter.max_value := 200;
           loading_waiter.should_clear_on_release := false |}
        (emit quiet_world (EvWrite (loading_waiter.bar_text 4 25 2)))
  /\ loading_waiter.percent 64 (64 ÷ 2) = Some 50
  /\ loading_waiter.count_to_draw 7 3
     = Some (Qfloor (value (float_mul (loading_waiter.percentage 7 3)
                                      (float_of_int 10)))).
Proof.
  split; [|split].
  - apply (proj1 (proj1 C4_half_and_quarter_bars (waiter 200 false) quiet_world
                        eq_refl ltac:(simpl; lia))).
  - apply (proj1 (proj1 (proj2 (proj2 C4_half_and_quarter_bars))
                        (waiter 64 false) quiet_world
                        ltac:(unfold INT_MAX; simpl; lia) eq_refl ltac:(simpl; lia))).
  - apply (proj2 (proj2 (proj2 (proj2 C4_half_and_quarter_bars)) 7 3
                        ltac:(unfold INT_MAX; lia) ltac:(unfold INT_MAX; lia))).
Defined.

(** ** Successive redraws *)

Lemma loading_updates_trace (values : list Z) :
  forall (self self' : loading_waiter.state) (w w' : world),
    0 <= logger_padding w <= 255 ->
    loading_waiter.updates values self w = Ret self' w' ->
    exists drawn : list (Z * Z),
      Forall2 (fun v d =>
                 loading_waiter.percent (loading_waiter.max_value self) v = Some (fst d)
                 /\ loading_waiter.count_to_draw (loading_waiter.max_value self) v
                    = Some (snd d))
              values drawn
      /\ console w' =
         console w ++
         map (fun d => EvWrite (loading_waiter.bar_text (logger_padding w) (fst d) (snd d)))
             drawn.
Proof.
  induction values as [|v values IH]; intros self self' w w' Hpad Hrun.
  - injection Hrun as <- <-. exists []. split; [constructor | now rewrite app_nil_r].
  - cbn [loading_waiter.updates] in Hrun. unfold bind in Hrun.
    destruct (loading_waiter.update self v w) as [self1 w1| |] eqn:Hupd; try discriminate.
    destruct (loading_update_inv self self1 v w w1 Hpad Hupd)
      as (p & n & Hp & Hn & Hr & -> & ->).
    match type of Hrun with
    | loading_waiter.updates _ _ ?w1 = _ =>
        assert (Hpad1 : 0 <= logger_padding w1 <= 255) by (destruct w; exact Hpad)
    end.
    destruct (IH _ self' _ w' Hpad1 Hrun) as (drawn & Hall & Hcon).
    exists ((p, n) :: drawn). split.
    + constructor; [split; assumption | exact Hall].
    + rewrite Hcon. destruct w; cbn. now rewrite <- app_assoc.
Qed.

Lemma loading_updates_return (values : list Z) :
  forall (self : loading_waiter.state) (w : world),
    0 < loading_waiter.max_value self <= INT_MAX ->
    Forall (fun v => 0 <= v <= INT_MAX) values ->
    0 <= logger_padding w <= 255 ->
    exists self' w', loading_waiter.updates values self w = Ret self' w'.
Proof.
  unfold INT_MAX.
  induction values as [|v values IH]; intros self w Hm Hall Hpad.
  - now exists self, w.
  - inversion Hall as [|? ? Hv Hall']; subst.
    destruct (scaled_defined 100 (loading_waiter.max_value self) v ltac:(lia)
                (magnitude_full_100 (loading_waiter.max_value self) ltac:(lia))
                ltac:(lia) ltac:(lia))
      as (p & Hp & _).
    destruct (scaled_defined 10 (loading_waiter.max_value self) v ltac:(lia)
                (magnitude_full_10 (loading_waiter.max_value self) ltac:(lia))
                ltac:(lia) ltac:(lia))
      as (n & Hn & Hr & _).
    cbn [loading_waiter.updates]. unfold bind.
    rewrite (loading_update_runs self v p n w Hpad Hp Hn Hr).
    apply IH; [exact Hm | exact Hall' | destruct w; exact Hpad].
Qed.

(** The images of a non-decreasing list under a monotone relation are
    non-decreasing. *)
Lemma sorted_images {B : Type} (R : Z -> B -> Prop) (f : B -> Z) (P : Z -> Prop) :
  (forall a b x y, P a -> P b -> a <= b -> R a x -> R b y -> f x <= f y) ->
  forall vs xs,
    Forall P vs -> Sorted Z.le vs -> Forall2 R vs xs -> Sorted Z.le (map f xs).
Proof.
  intros Hmono vs xs HP Hs HR.
  apply StronglySorted_Sorted.
  apply Sorted_StronglySorted in Hs; [|intros a b c; apply Z.le_trans].
  induction HR as [|v x vs xs Hvx HR IH]; [constructor|].
  inversion HP as [|? ? Pv HP']; subst.
  inversion Hs as [|? ? Hs' Hle]; subst.
  cbn [map]. constructor; [now apply IH|].
  clear IH Hs Hs' HP.
  induction HR as [|v' x' vs xs Hvx' HR IH]; [constructor|].
  inversion HP' as [|? ? Pv' HP'']; subst.
  inversion Hle as [|? ? Hvv' Hle']; subst.
  cbn [map]. constructor; [now apply (Hmono v v') | now apply IH].
Qed.

(** C9, as stated, fails for a negative maximum: with maximum -100 the
    non-decreasing values -105, -100 draw 104% and then 100%. *)
Lemma C9_counterexample :
  Sorted Z.le [-105; -100]
  /\ loading_waiter.percent (-100) (-105) = Some 104
  /\ loading_waiter.percent (-100) (-100) = Some 100
  /\ loading_waiter.updates [-105; -100] (waiter (-100) false) red_console
     = Ret {| loading_waiter.last_drawn_count := 17;
              loading_waiter.max_value := -100;
              loading_waiter.should_clear_on_release := false |}
           (set_console red_console 12
              [EvWrite (loading_waiter.bar_text 0 104 10);
               EvWrite (loading_waiter.bar_text 0 100 10)]).
Proof.
  split; [repeat constructor; lia|]. repeat split.
Qed.

(** C9, amended. For a positive maximum, the percentage and the filled-cell
    count do not decrease when the current value does not decrease, wherever
    both are defined; both are defined, within 0..100 and 0..10, for every
    current value that is not negative; a run of updates over a
    non-decreasing list of values draws non-decreasing percentages and cell
    counts, and returns when no value is negative. *)
Theorem C9_monotone_for_positive_maximum :
  forall mx : Z,
    0 < mx <= INT_MAX ->
    (forall c1 c2 p1 p2,
        INT_MIN <= c1 -> c1 <= c2 -> c2 <= INT_MAX ->
        loading_waiter.percent mx c1 = Some p1 ->
        loading_waiter.percent mx c2 = Some p2 -> p1 <= p2)
    /\ (forall c1 c2 n1 n2,
           INT_MIN <= c1 -> c1 <= c2 -> c2 <= INT_MAX ->
           loading_waiter.count_to_draw mx c1 = Some n1 ->
           loading_waiter.count_to_draw mx c2 = Some n2 -> n1 <= n2)
    /\ (forall c,
           0 <= c <= INT_MAX ->
           exists p n,
             loading_waiter.percent mx c = Some p
             /\ loading_waiter.count_to_draw mx c = Some n
             /\ 0 <= p <= 100 /\ 0 <= n <= 10)
    /\ (forall values self w self' w',
           loading_waiter.max_value self = mx ->
           Forall int_range values ->
           Sorted Z.le values ->
           0 <= logger_padding w <= 255 ->
           loading_waiter.updates values self w = Ret self' w' ->
           exists drawn : list (Z * Z),
             Forall2 (fun v d =>
                        loading_waiter.percent mx v = Some (fst d)
                        /\ loading_waiter.count_to_draw mx v = Some (snd d))
                     values drawn
             /\ console w' =
                console w ++
                map (fun d => EvWrite (loading_waiter.bar_text (logger_padding w)
                                         (fst d) (snd d)))
                    drawn
             /\ Sorted Z.le (map fst drawn)
             /\ Sorted Z.le (map snd drawn))
    /\ (forall values self w,
           loading_waiter.max_value self = mx ->
           Forall (fun v => 0 <= v <= INT_MAX) values ->
           0 <= logger_padding w <= 255 ->
           exists self' w', loading_waiter.updates values self w = Ret self' w').
Proof.
  intros mx Hm.
  assert (Hpct : forall c1 c2 p1 p2,
             INT_MIN <= c1 -> c1 <= c2 -> c2 <= INT_MAX ->
             loading_waiter.percent mx c1 = Some p1 ->
             loading_waiter.percent mx c2 = Some p2 -> p1 <= p2).
  { unfold INT_MIN, INT_MAX in *. intros c1 c2 p1 p2 Hl H12 Hu.
    rewrite !percent_scaled. apply scaled_monotone; lia. }
  assert (Hcnt : forall c1 c2 n1 n2,
             INT_MIN <= c1 -> c1 <= c2 -> c2 <= INT_MAX ->
             loading_waiter.count_to_draw mx c1 = Some n1 ->
             loading_waiter.count_to_draw mx c2 = Some n2 -> n1 <= n2).
  { unfold INT_MIN, INT_MAX in *. intros c1 c2 n1 n2 Hl H12 Hu.
    rewrite !count_to_draw_scaled. apply scaled_monotone; lia. }
  split; [exact Hpct|]. split; [exact Hcnt|]. split; [|split].
  - unfold INT_MAX in *. intros c Hc.
    destruct (scaled_defined 100 mx c ltac:(lia) (magnitude_full_100 mx ltac:(lia))
                ltac:(lia) ltac:(lia)) as (p & Hp & Hpr & _).
    destruct (scaled_defined 10 mx c ltac:(lia) (magnitude_full_10 mx ltac:(lia))
                ltac:(lia) ltac:(lia)) as (n & Hn & Hnr & _).
    exists p, n. repeat split; try assumption; lia.
  - intros values self w self' w' Hmx Hrange Hsorted Hpad Hrun.
    destruct (loading_updates_trace values self self' w w' Hpad Hrun)
      as (drawn & Hall & Hcon).
    rewrite Hmx in Hall.
    exists drawn. split; [exact Hall|]. split; [exact Hcon|]. split.
    + refine (sorted_images _ fst int_range _ values drawn Hrange Hsorted Hall).
      unfold int_range. intros a b x y Ha Hb Hab [Hx _] [Hy _].
      apply (Hpct a b); tauto.
    + refine (sorted_images _ snd int_range _ values drawn Hrange Hsorted Hall).
      unfold int_range. intros a b x y Ha Hb Hab [_ Hx] [_ Hy].
      apply (Hcnt a b); tauto.
  - intros values self w Hmx Hall Hpad.
    apply loading_updates_return; [now rewrite Hmx | exact Hall | exact Hpad].
Qed.

Lemma C9_witness :
  (loading_waiter.percent 200 (-3) = Some (-1)
   /\ loading_waiter.percent 200 77 = Some 38
   /\ -1 <= 38)
  /\ exists self' w',
       loading_waiter.updates [0; 50; 50; 250] (waiter 200 false) quiet_world
       = Ret self' w'.
Proof.
  assert (H200 : 0 < 200 <= INT_MAX) by (unfold INT_MAX; lia).
  split.
  - split; [reflexivity|]. split; [reflexivity|].
    apply (proj1 (C9_monotone_for_positive_maximum 200 H200) (-3) 77 (-1) 38);
      try reflexivity; unfold INT_MIN, INT_MAX; lia.
  - apply (proj2 (proj2 (proj2 (proj2 (C9_monotone_for_positive_maximum 200 H200))))
                 [0; 50; 50; 250] (waiter 200 false) quiet_world eq_refl).
    + repeat constructor; unfold INT_MAX; lia.
    + simpl. lia.
Defined.

(** ** What the clearing destructor blanks *)

Lemma occurs_append (c : ascii) (s t : string) :
  occurs c (s ++ t) = occurs c s || occurs c t.
Proof.
  induction s as [|a s IH]; simpl; [reflexivity|].
  now rewrite IH, orb_assoc.
Qed.

Lemma occurs_spaces (n : nat) : occurs CR (spaces n) = false.
Proof. induction n as [|n IH]; [reflexivity | exact IH]. Qed.

Lemma occurs_take (c : ascii) (n : nat) (s : string) :
  occurs c s = false -> occurs c (take n s) = false.
Proof.
  revert s. induction n as [|n IH]; intros [|a s] H; simpl in *; try reflexivity.
  apply orb_false_iff in H. destruct H as [-> H]. now apply IH.
Qed.

Lemma digit_not_CR (n : Z) : Ascii.eqb CR (digit (n mod 10)) = false.
Proof.
  pose proof (Z.mod_pos_bound n 10 ltac:(lia)) as H.
  assert (E : n mod 10 = 0 \/ n mod 10 = 1 \/ n mod 10 = 2 \/ n mod 10 = 3
              \/ n mod 10 = 4 \/ n mod 10 = 5 \/ n mod 10 = 6 \/ n mod 10 = 7
              \/ n mod 10 = 8 \/ n mod 10 = 9) by lia.
  repeat (destruct E as [->|E]; [reflexivity|]). now rewrite E.
Qed.

Lemma occurs_decimal (fuel : nat) (n : Z) : occurs CR (decimal fuel n) = false.
Proof.
  revert n. induction fuel as [|fuel IH]; intros n; [reflexivity|].
  cbn [decimal]. rewrite occurs_append. cbn [occurs].
  rewrite digit_not_CR. destruct (n <? 10); [reflexivity | now rewrite IH].
Qed.

Lemma occurs_string_of_Z (z : Z) : occurs CR (string_of_Z z) = false.
Proof.
  unfold string_of_Z. destruct (z <? 0); [cbn [occurs]|]; now rewrite occurs_decimal.
Qed.

(** A text without carriage return covers one column per character. *)
Lemma columns_plain (s : string) :
  occurs CR s = false ->
  forall cursor width,
    (cursor <= width)%nat ->
    columns s cursor width = Nat.max width (cursor + String.length s).
Proof.
  induction s as [|a s IH]; intros H cursor width Hcw; cbn [columns String.length].
  - lia.
  - cbn [occurs] in H. apply orb_false_iff in H. destruct H as [Ha H].
    rewrite Ascii.eqb_sym in Ha. rewrite Ha. rewrite (IH H) by lia. lia.
Qed.

(** The carriage return that starts a bar is counted by [printf] but covers
    no column. *)
Lemma visible_width_bar_text (pad percent n : Z) :
  String.length (loading_waiter.bar_text pad percent n)
  = S (visible_width (loading_waiter.bar_text pad percent n)).
Proof.
  unfold loading_waiter.bar_text, visible_width.
  cbn [columns String.length]. rewrite Ascii.eqb_refl.
  rewrite columns_plain; [simpl; lia| |lia].
  rewrite !occurs_append, occurs_spaces, occurs_string_of_Z, occurs_spaces.
  rewrite occurs_take by reflexivity. reflexivity.
Qed.

Lemma loading_dtor_clear (self : loading_waiter.state) (w : world) :
  logger_sync w = true ->
  loading_waiter.should_clear_on_release self = true ->
  0 <= loading_waiter.last_drawn_count self <= INT_MAX ->
  loading_waiter.dtor self w
  = Ret tt (set_sync
              (emit w (EvWrite (spaces (Z.to_nat (loading_waiter.last_drawn_count self))
                                ++ String CR "")))
              false).
Proof.
  unfold INT_MAX. destruct w as [h a c s p k r]. cbn [logger_sync]. intros -> Hclear Hr.
  unfold loading_waiter.dtor. rewrite Hclear. run.
  assert (E : to_int32 (loading_waiter.last_drawn_count self)
              = loading_waiter.last_drawn_count self).
  { unfold to_int32. rewrite Z.mod_small; lia. }
  rewrite E, sprintf_padding by lia. reflexivity.
Qed.

Lemma loading_dtor_newline (self : loading_waiter.state) (w : world) :
  logger_sync w = true ->
  loading_waiter.should_clear_on_release self = false ->
  loading_waiter.dtor self w
  = Ret tt (set_sync (emit w (EvWrite (String LF ""))) false).
Proof.
  destruct w as [h a c s p k r]. cbn [logger_sync]. intros -> Hclear.
  unfold loading_waiter.dtor. rewrite Hclear. reflexivity.
Qed.

(** *** The terminal line *)

Lemma put_end (line : list ascii) (c : ascii) :
  put line (List.length line) c = line ++ [c].
Proof. induction line as [|x line IH]; [reflexivity | simpl; now rewrite IH]. Qed.

(** A text without carriage return written at the end of the line is
    appended to it. *)
Lemma show_plain (s : string) :
  occurs CR s = false ->
  forall line,
    show s (List.length line) line
    = (line ++ list_ascii_of_string s, (List.length line + String.length s)%nat).
Proof.
  induction s as [|a s IH]; intros H line; cbn [show list_ascii_of_string String.length].
  - now rewrite app_nil_r, Nat.add_0_r.
  - cbn [occurs] in H. apply orb_false_iff in H. destruct H as [Ha H].
    rewrite Ascii.eqb_sym in Ha. rewrite Ha, put_end.
    replace (S (List.length line)) with (List.length (line ++ [a]))
      by (rewrite length_app; simpl; lia).
    rewrite (IH H), <- app_assoc, length_app. simpl. f_equal. lia.
Qed.

Lemma show_append (s t : string) :
  forall cursor line,
    show (s ++ t) cursor line
    = show t (snd (show s cursor line)) (fst (show s cursor line)).
Proof.
  induction s as [|a s IH]; intros cursor line; [reflexivity|].
  cbn [append show]. destruct (Ascii.eqb a CR); apply IH.
Qed.

Lemma list_ascii_of_spaces (n : nat) : list_ascii_of_string (spaces n) = repeat SP n.
Proof. induction n as [|n IH]; [reflexivity | simpl; now f_equal]. Qed.

(** Blanks and a carriage return written after a text that has no carriage
    return but the leading one leave the text on the line and follow it. *)
Lemma shown_then_blanks (body : string) (k : nat) :
  occurs CR body = false ->
  shown (String CR body) = list_ascii_of_string body
  /\ shown (String CR body ++ spaces k ++ String CR "")
     = list_ascii_of_string body ++ repeat SP k.
Proof.
  intros Hbody. unfold shown. cbn [append show]. rewrite Ascii.eqb_refl.
  pose proof (show_plain body Hbody []) as Hb. cbn [List.length app] in Hb.
  split; [now rewrite Hb|].
  rewrite show_append, Hb. cbn [fst snd].
  rewrite show_append.
  pose proof (show_plain (spaces k) (occurs_spaces k) (list_ascii_of_string body)) as Hk.
  replace (List.length (list_ascii_of_string body)) with (0 + String.length body)%nat in Hk.
  - rewrite Hk. cbn [fst snd show]. rewrite Ascii.eqb_refl.
    now rewrite list_ascii_of_spaces.
  - clear. induction body as [|a body IH]; [reflexivity | simpl; now f_equal].
Qed.

(** C7. The clearing destructor does not blank the bar.  [update] stores the
    count that [printf] returned, which includes the carriage return at the
    start of the bar, and the destructor writes that many blanks from where
    the cursor stands, which is after the bar: on the terminal line the bar
    stays as drawn, followed by one blank more than its width.  With
    maximum 200, [update (50)] and clear-on-release, the line still shows
    the fifteen columns of the 25% bar, with sixteen blanks after them. *)
Theorem C7_clearing_destructor_leaves_the_bar :
  (forall self cur w self1 w1,
      0 <= logger_padding w <= 255 ->
      logger_sync w = true ->
      loading_waiter.should_clear_on_release self = true ->
      loading_waiter.update self cur w = Ret self1 w1 ->
      exists bar : string,
        console w1 = console w ++ [EvWrite bar]
        /\ loading_waiter.last_drawn_count self1 = Z.of_nat (String.length bar)
        /\ String.length bar = S (visible_width bar)
        /\ loading_waiter.dtor self1 w1
           = Ret tt (set_sync
                       (emit w1 (EvWrite (spaces (String.length bar) ++ String CR "")))
                       false)
        /\ shown (bar ++ spaces (String.length bar) ++ String CR "")
           = shown bar ++ repeat SP (String.length bar)
        /\ List.length (shown bar) = visible_width bar)
  /\ ((self <- loading_waiter.ctor 200 true ;;
       self <- loading_waiter.update self 50 ;;
       loading_waiter.dtor self) red_console
      = Ret tt (set_console red_console 12
                  [EvWrite (loading_waiter.bar_text 0 25 2);
                   EvWrite (spaces 16 ++ String CR "")])
      /\ shown (loading_waiter.bar_text 0 25 2)
         = list_ascii_of_string
             ("25%[" ++ take 2 loading_waiter.full_line_text ++ "        ]")
      /\ shown (loading_waiter.bar_text 0 25 2 ++ spaces 16 ++ String CR "")
         = shown (loading_waiter.bar_text 0 25 2) ++ repeat SP 16
      /\ visible_width (loading_waiter.bar_text 0 25 2) = 15%nat
      /\ visible_width (spaces 16 ++ String CR "") = 16%nat).
Proof.
  split; [|repeat split].
  intros self cur w self1 w1 Hpad Hsync Hclear Hrun.
  destruct (loading_update_inv self self1 cur w w1 Hpad Hrun)
    as (p & n & Hp & Hn & Hr & -> & ->).
  set (bar := loading_waiter.bar_text (logger_padding w) p n).
  assert (Hlen : Z.of_nat (String.length bar) <= 280).
  { unfold bar. rewrite length_bar_text by lia.
    pose proof (length_string_of_Z p). lia. }
  exists bar. split; [destruct w; reflexivity|]. split; [reflexivity|].
  split; [apply visible_width_bar_text|]. split; [|].
  - rewrite loading_dtor_clear.
    + cbn [loading_waiter.last_drawn_count]. fold bar. now rewrite Nat2Z.id.
    + destruct w; exact Hsync.
    + exact Hclear.
    + cbn [loading_waiter.last_drawn_count]. fold bar. unfold INT_MAX. lia.
  - assert (Hbody : exists body, bar = String CR body /\ occurs CR body = false).
    { unfold bar, loading_waiter.bar_text. eexists. split; [reflexivity|].
      rewrite !occurs_append, occurs_spaces, occurs_string_of_Z, occurs_spaces.
      rewrite occurs_take by reflexivity. reflexivity. }
    destruct Hbody as (body & Ebar & Hbody).
    destruct (shown_then_blanks body (String.length bar) Hbody) as [S1 S2].
    pose proof (visible_width_bar_text (logger_padding w) p n) as Hvis. fold bar in Hvis.
    rewrite Ebar in *. rewrite S1, S2. split; [reflexivity|].
    cbn [String.length] in Hvis. injection Hvis as <-.
    clear. induction body as [|a body IH]; [reflexivity | simpl; now f_equal].
Qed.

Lemma C7_witness :
  exists bar : string,
    console (emit (set_sync red_console true)
                  (EvWrite (loading_waiter.bar_text 0 25 2)))
    = console (set_sync red_console true) ++ [EvWrite bar]
    /\ 16 = Z.of_nat (String.length bar)
    /\ String.length bar = S (visible_width bar)
    /\ loading_waiter.dtor {| loading_waiter.last_drawn_count := 16;
                              loading_waiter.max_value := 200;
                              loading_waiter.should_clear_on_release := true |}
                           (emit (set_sync red_console true)
                                 (EvWrite (loading_waiter.bar_text 0 25 2)))
       = Ret tt (set_sync
                   (emit (emit (set_sync red_console true)
                               (EvWrite (loading_waiter.bar_text 0 25 2)))
                         (EvWrite (spaces (String.length bar) ++ String CR "")))
                   false)
    /\ shown (bar ++ spaces (String.length bar) ++ String CR "")
       = shown bar ++ repeat SP (String.length bar)
    /\ List.length (shown bar) = visible_width bar.
Proof.
  apply (proj1 C7_clearing_destructor_leaves_the_bar
               (waiter 200 true) 50 (set_sync red_console true)
               {| loading_waiter.last_drawn_count := 16;
                  loading_waiter.max_value := 200;
                  loading_waiter.should_clear_on_release := true |}
               (emit (set_sync red_console true)
                     (EvWrite (loading_waiter.bar_text 0 25 2))));
    [simpl; lia | reflexivity | reflexivity | reflexivity].
Defined.

(** * Further properties *)

(** ** Arrays and colours *)

(** X1. [create_full_filled_array] gives an array of the requested size
    whose every cell holds the value. *)
Theorem X1_full_filled_array :
  forall (T : Type) (size : nat) (value : T),
    List.length (utils.create_full_filled_array size value) = size
    /\ (forall x, In x (utils.create_full_filled_array size value) -> x = value)
    /\ (forall (i : nat) (d : T),
           (i < size)%nat -> nth i (utils.create_full_filled_array size value) d = value).
Proof.
  intros T size value. induction size as [|size (Hlen & Hin & Hnth)].
  - split; [reflexivity|]. split; [intros x []|intros i d Hi; lia].
  - repeat split; cbn [utils.create_full_filled_array].
    + cbn [List.length]. now rewrite Hlen.
    + intros x [<-|H]; [reflexivity | now apply Hin].
    + intros [|i] d Hi; [reflexivity | cbn [nth]; apply Hnth; lia].
Qed.

Lemma X1_witness :
  nth 9 (utils.create_full_filled_array 10 254) 0 = 254
  /\ nth 10 (utils.create_full_filled_array 10 254) 0 = 0.
Proof.
  split; [|reflexivity].
  apply (proj2 (proj2 (X1_full_filled_array Z 10%nat 254)) 9%nat 0). lia.
Defined.

(** X2. The sixteen colour names stand for sixteen different attributes,
    which are exactly the values 0 to 15; with a console, [setup_color]
    makes the chosen value the whole attribute, so no background bit stays
    set whatever the attribute was before. *)
Theorem X2_colors_are_the_foreground_attributes :
  (forall c1 c2, color_value c1 = color_value c2 -> c1 = c2)
  /\ (forall c, 0 <= color_value c <= 15)
  /\ (forall a, 0 <= a <= 15 -> exists c, color_value c = a)
  /\ (forall c w,
         handle_valid w = true ->
         utils.setup_color c w
         = Ret tt (set_console w (color_value c) (console w ++ [EvAttr (color_value c)]))
         /\ Z.land (color_value c) 240 = 0).
Proof.
  split; [|split; [|split]].
  - intros c1 c2; destruct c1, c2; simpl; intros H; try reflexivity; discriminate H.
  - intros c; destruct c; cbv -[Z.le]; lia.
  - intros a Ha.
    assert (E : a = 0 \/ a = 1 \/ a = 2 \/ a = 3 \/ a = 4 \/ a = 5 \/ a = 6 \/ a = 7
                \/ a = 8 \/ a = 9 \/ a = 10 \/ a = 11 \/ a = 12 \/ a = 13 \/ a = 14
                \/ a = 15) by lia.
    decompose [or] E; subst a;
      [exists wcon_black | exists wcon_dark_blue | exists wcon_dark_green
       | exists wcon_dark_cyan | exists wcon_dark_red | exists wcon_dark_magenta
       | exists wcon_dark_yellow | exists wcon_gray | exists wcon_dark_gray
       | exists wcon_blue | exists wcon_green | exists wcon_cyan | exists wcon_red
       | exists wcon_magenta | exists wcon_yellow | exists wcon_white]; reflexivity.
  - intros c [h a l s p k r]. cbn [handle_valid]. intros ->. split.
    + unfold utils.setup_color. run. reflexivity.
    + destruct c; reflexivity.
Qed.

Lemma X2_witness :
  (exists c, color_value c = 11)
  /\ utils.setup_color wcon_yellow red_console
     = Ret tt (set_console red_console 14 [EvAttr 14]).
Proof.
  split.
  - apply (proj1 (proj2 (proj2 X2_colors_are_the_foreground_attributes)) 11). lia.
  - apply (proj1 (proj2 (proj2 (proj2 X2_colors_are_the_foreground_attributes))
                        wcon_yellow red_console eq_refl)).
Defined.

(** ** Without a console *)

(** X3. When the output handle cannot be obtained, [setup_color] stops at a
    trap and leaves the console alone; [log] and [error] then stop at that
    trap with the mutex still locked and nothing written. *)
Theorem X3_no_console_traps_before_writing :
  forall (color : win_console_colors) (format : string)
         (parameters : list printf_arg) (w : world),
    handle_valid w = false ->
    utils.setup_color color w = Break w
    /\ utils.reset_color w = Break w
    /\ (logger_sync w = false ->
        log color format parameters w = Break (set_sync w true)
        /\ error format parameters w = Break (set_sync w true)
        /\ console (set_sync w true) = console w).
Proof.
  intros color format parameters [h a c s p k r]. cbn [handle_valid logger_sync].
  intros ->. split; [|split].
  - unfold utils.setup_color. run. reflexivity.
  - unfold utils.reset_color, utils.setup_color. run. reflexivity.
  - intros ->. split; [|split; [|reflexivity]].
    + unfold log, utils.setup_color. run. reflexivity.
    + unfold error, log, utils.setup_color. run. reflexivity.
Qed.

Lemma X3_witness :
  log wcon_green "ready" [] detached_world = Break (set_sync detached_world true)
  /\ error "lost" [] detached_world = Break (set_sync detached_world true).
Proof.
  destruct (X3_no_console_traps_before_writing wcon_green "ready" [] detached_world eq_refl)
    as (_ & _ & H).
  destruct (X3_no_console_traps_before_writing wcon_green "lost" [] detached_world eq_refl)
    as (_ & _ & H').
  split; [apply (H eq_refl) | apply (H' eq_refl)].
Defined.

(** ** Padding scopes *)

Lemma scoped_runs {A : Type} (p : Z) (body : M A) (w : world) :
  scoped p body w
  = match body (set_padding w (to_uint8 (logger_padding w + p))) with
    | Ret a w1 => Ret a (set_padding w1 (logger_padding w))
    | Break w1 => Break w1
    | Undef => Undef
    end.
Proof. reflexivity. Qed.

Lemma to_uint8_range (z : Z) : 0 <= to_uint8 z <= 255.
Proof. unfold to_uint8. pose proof (Z.mod_pos_bound z 256). lia. Qed.

(** X4. A block that holds a padding guard runs its body with the padding
    raised by the increment modulo 256 and, when the body returns, leaves
    the padding as it was before the block, whatever the body did to it;
    the raised padding is again an 8-bit value. *)
Theorem X4_scope_restores_padding :
  forall (A : Type) (p : Z) (body : M A) (w : world) (a : A) (w' : world),
    scoped p body w = Ret a w' ->
    logger_padding w' = logger_padding w
    /\ 0 <= to_uint8 (logger_padding w + p) <= 255
    /\ exists w1,
         body (set_padding w (to_uint8 (logger_padding w + p))) = Ret a w1
         /\ w' = set_padding w1 (logger_padding w).
Proof.
  intros A p body w a w' Hrun. rewrite scoped_runs in Hrun.
  destruct (body (set_padding w (to_uint8 (logger_padding w + p))))
    as [a1 w1| |] eqn:Hbody; try discriminate.
  injection Hrun as <- <-.
  split; [reflexivity|]. split; [apply to_uint8_range|].
  exists w1. split; reflexivity.
Qed.

Lemma X4_witness :
  logger_padding (set_padding (set_padding quiet_world 9) 4) = logger_padding quiet_world.
Proof.
  apply (proj1 (X4_scope_restores_padding unit 3 (store_padding 9) quiet_world tt
                  (set_padding (set_padding quiet_world 9) 4) eq_refl)).
Defined.

(** X5. Two guards destroyed in the order of their construction, not in
    reverse, do not restore the padding: it stays raised by the first
    increment. *)
Theorem X5_crossed_scopes_keep_first_increment :
  forall (p1 p2 : Z) (w : world),
    crossed_scopes p1 p2 w = Ret tt (set_padding w (to_uint8 (logger_padding w + p1))).
Proof. intros p1 p2 [h a c s p k r]. reflexivity. Qed.

(** X6. With a console handle and a free mutex, a [log] inside a block that
    raises the padding by [p], of a format of plain text and the
    conversions [%%], [%d], [%c] and [%s] that renders to [text], the
    indented line fitting an [int], indents its line by the old padding plus
    [p], modulo 256, counts those spaces in its result, and leaves the
    padding as before the block. *)
Theorem X6_log_in_scope_is_indented :
  forall (p : Z) (color : win_console_colors) (format : string)
         (parameters : list printf_arg) (text : string) (w : world),
    let indent := to_uint8 (logger_padding w + p) in
    handle_valid w = true ->
    logger_sync w = false ->
    sprintf format parameters = Some text ->
    indent + Z.of_nat (String.length text) <= INT_MAX ->
    scoped p (log color format parameters) w
    = Ret (indent + Z.of_nat (String.length text))
          (set_console w (color_value wcon_gray)
             (console w ++ [EvAttr (color_value color);
                            EvWrite (spaces (Z.to_nat indent) ++ text);
                            EvAttr (color_value wcon_gray)])).
Proof.
  intros p color format parameters text w indent Hh Hs Hfmt Hlen.
  assert (Hind : 0 <= indent <= 255) by apply to_uint8_range.
  rewrite scoped_runs.
  rewrite (log_runs color format parameters text
             (set_padding w (to_uint8 (logger_padding w + p))));
    [ | destruct w; exact Hh | destruct w; exact Hs | destruct w; exact Hind | exact Hfmt ].
  destruct w as [h a c s pd k r].
  cbn [set_padding set_console logger_padding console handle_valid console_attr
       logger_sync clock clock_reads] in *.
  fold indent. rewrite length_append, length_spaces.
  unfold to_uint32, INT_MAX in *. rewrite Z.mod_small by lia.
  f_equal. lia.
Qed.

Lemma X6_witness :
  scoped 10 (log wcon_gray "deep" []) deep_world
  = Ret 8 (set_console deep_world 7 [EvAttr 7; EvWrite "    deep"; EvAttr 7]).
Proof.
  apply (X6_log_in_scope_is_indented 10 wcon_gray "deep" [] "deep" deep_world);
    [reflexivity | reflexivity | reflexivity | unfold INT_MAX; simpl; lia].
Defined.

(** ** Guards nested to any depth *)

Lemma set_padding_twice (w : world) (p q : Z) :
  set_padding (set_padding w p) q = set_padding w q.
Proof. destruct w; reflexivity. Qed.

Lemma to_uint8_add_l (a b : Z) : to_uint8 (to_uint8 a + b) = to_uint8 (a + b).
Proof. unfold to_uint8. apply Zplus_mod_idemp_l. Qed.

(** X13. Padding guards nested to any depth add up modulo 256: the body
    runs with the padding raised by the sum of all increments, reduced to
    8 bits, and when it returns the outermost guard leaves the padding as it
    was before the first; in particular increments that add up to a multiple
    of 256 give the body no extra indentation. *)
Theorem X13_nested_guards_add_up :
  forall (A : Type) (p : Z) (pads : list Z) (body : M A) (w : world),
    nested (p :: pads) body w
    = match body (set_padding w (to_uint8 (logger_padding w
                                           + fold_right Z.add 0 (p :: pads)))) with
      | Ret a w1 => Ret a (set_padding w1 (logger_padding w))
      | Break w1 => Break w1
      | Undef => Undef
      end
    /\ (0 <= logger_padding w <= 255 ->
        fold_right Z.add 0 (p :: pads) mod 256 = 0 ->
        to_uint8 (logger_padding w + fold_right Z.add 0 (p :: pads)) = logger_padding w).
Proof.
  intros A p pads body w. split.
  - revert p body w.
    induction pads as [|q pads IH]; intros p body w.
    + cbn [nested fold_right]. rewrite scoped_runs, Z.add_0_r. reflexivity.
    + change (nested (p :: q :: pads) body) with (scoped p (nested (q :: pads) body)).
      rewrite scoped_runs, IH.
      replace (logger_padding (set_padding w (to_uint8 (logger_padding w + p))))
        with (to_uint8 (logger_padding w + p)) by (destruct w; reflexivity).
      rewrite to_uint8_add_l, set_padding_twice.
      replace (logger_padding w + p + fold_right Z.add 0 (q :: pads))
        with (logger_padding w + fold_right Z.add 0 (p :: q :: pads))
        by (cbn [fold_right]; lia).
      destruct (body _) as [a w1| |]; [|reflexivity|reflexivity].
      now rewrite set_padding_twice.
  - intros Hpad Hsum. unfold to_uint8.
    rewrite Z.add_mod, Hsum, Z.add_0_r, Z.mod_mod by lia.
    apply Z.mod_small. lia.
Qed.

Lemma X13_witness :
  nested [200; 50; 6] load_padding quiet_world = Ret 4 quiet_world
  /\ to_uint8 (logger_padding quiet_world + fold_right Z.add 0 [200; 50; 6])
     = logger_padding quiet_world.
Proof.
  split.
  - rewrite (proj1 (X13_nested_guards_add_up Z 200 [50; 6] load_padding quiet_world)).
    reflexivity.
  - apply (proj2 (X13_nested_guards_add_up Z 200 [50; 6] load_padding quiet_world));
      [simpl; lia | reflexivity].
Defined.

(** ** Widgets and the mutex *)

Lemma same_store_refl (w : world) : same_store w w.
Proof. unfold same_store. tauto. Qed.

Lemma same_store_trans (w1 w2 w3 : world) :
  same_store w1 w2 -> same_store w2 w3 -> same_store w1 w3.
Proof.
  unfold same_store. intros (H1 & H2 & H3 & H4 & H5) (K1 & K2 & K3 & K4 & K5).
  repeat split; congruence.
Qed.

(** An [update] of the spinner returns or is undefined, never traps; it
    leaves everything but the console and the clock's position alone, and
    reads the clock once more than it writes. *)
Lemma spin_update_cases (self : spin_waiter.state) (w : world) :
  match spin_waiter.update self w with
  | Ret self' w' =>
      same_store w w'
      /\ spin_waiter.should_clear_on_release self'
         = spin_waiter.should_clear_on_release self
      /\ (clock_reads w' + List.length (console w)
          = S (clock_reads w) + List.length (console w'))%nat
  | Break _ => False
  | Undef => True
  end.
Proof.
  destruct w as [h a c s p k r]. unfold spin_waiter.update. run.
  destruct (_ <? _).
  - unfold same_store; simpl. repeat split; lia.
  - destruct (sprintf _ _); [|exact I].
    unfold same_store; simpl. rewrite length_app. simpl. repeat split; lia.
Qed.

Lemma spin_updates_cases (n : nat) :
  forall (self : spin_waiter.state) (w : world),
    match spin_waiter.updates n self w with
    | Ret self' w' =>
        same_store w w'
        /\ spin_waiter.should_clear_on_release self'
           = spin_waiter.should_clear_on_release self
        /\ (clock_reads w' + List.length (console w)
            = n + clock_reads w + List.length (console w'))%nat
    | Break _ => False
    | Undef => True
    end.
Proof.
  induction n as [|n IH]; intros self w.
  - simpl. unfold ret. split; [apply same_store_refl|]. split; [reflexivity|lia].
  - cbn [spin_waiter.updates]. unfold bind.
    pose proof (spin_update_cases self w) as H1.
    destruct (spin_waiter.update self w) as [s1 w1| |]; [|exact H1|exact I].
    specialize (IH s1 w1).
    destruct (spin_waiter.updates n s1 w1) as [s2 w2| |]; [|exact IH|exact I].
    destruct H1 as (Hs1 & Hf1 & Hr1), IH as (Hs2 & Hf2 & Hr2).
    split; [exact (same_store_trans _ _ _ Hs1 Hs2)|]. split; [congruence|lia].
Qed.

Lemma loading_update_cases (self : loading_waiter.state) (cur : Z) (w : world) :
  match loading_waiter.update self cur w with
  | Ret self' w' =>
      same_store w w' /\ clock_reads w' = clock_reads w
      /\ loading_waiter.should_clear_on_release self'
         = loading_waiter.should_clear_on_release self
      /\ loading_waiter.max_value self' = loading_waiter.max_value self
  | Break _ => False
  | Undef => True
  end.
Proof.
  destruct w as [h a c s p k r]. unfold loading_waiter.update.
  destruct (loading_waiter.percent _ _); [|exact I].
  destruct (loading_waiter.count_to_draw _ _); [|exact I].
  destruct (_ && _); [|exact I].
  run. destruct (sprintf _ _); [|exact I].
  unfold same_store; simpl. tauto.
Qed.

Lemma loading_updates_cases (values : list Z) :
  forall (self : loading_waiter.state) (w : world),
    match loading_waiter.updates values self w with
    | Ret self' w' =>
        same_store w w' /\ clock_reads w' = clock_reads w
        /\ loading_waiter.should_clear_on_release self'
           = loading_waiter.should_clear_on_release self
        /\ loading_waiter.max_value self' = loading_waiter.max_value self
    | Break _ => False
    | Undef => True
    end.
Proof.
  induction values as [|v values IH]; intros self w.
  - simpl. unfold ret. split; [apply same_store_refl|]. tauto.
  - cbn [loading_waiter.updates]. unfold bind.
    pose proof (loading_update_cases self v w) as H1.
    destruct (loading_waiter.update self v w) as [s1 w1| |]; [|exact H1|exact I].
    specialize (IH s1 w1).
    destruct (loading_waiter.updates values s1 w1) as [s2 w2| |]; [|exact IH|exact I].
    destruct H1 as (Hs1 & Hr1 & Hf1 & Hm1), IH as (Hs2 & Hr2 & Hf2 & Hm2).
    split; [exact (same_store_trans _ _ _ Hs1 Hs2)|]. repeat split; congruence.
Qed.

(** Calls that lock the mutex are undefined when it is already held. *)
Lemma log_locked (color : win_console_colors) (format : string)
      (parameters : list printf_arg) (w : world) :
  logger_sync w = true -> log color format parameters w = Undef.
Proof. intros H. unfold log, bind at 1, lock. now rewrite H. Qed.

Lemma error_locked (format : string) (parameters : list printf_arg) (w : world) :
  logger_sync w = true -> error format parameters w = Undef.
Proof. intros H. unfold error, bind. now rewrite log_locked. Qed.

Lemma spin_scope_locked (clear : bool) (n : nat) (w : world) :
  logger_sync w = true -> spin_scope clear n w = Undef.
Proof.
  intros H. cbv [spin_scope spin_waiter.ctor bind lock]. now rewrite H.
Qed.

Lemma loading_scope_locked (mx : Z) (clear : bool) (values : list Z) (w : world) :
  logger_sync w = true -> loading_scope mx clear values w = Undef.
Proof.
  intros H. cbv [loading_scope loading_waiter.ctor bind lock]. now rewrite H.
Qed.

Lemma while_spinning_undef {A : Type} (clear : bool) (n : nat) (inner : M A) :
  (forall w, logger_sync w = true -> inner w = Undef) ->
  forall w, while_spinning clear n inner w = Undef.
Proof.
  intros Hinner w. cbv [while_spinning spin_waiter.ctor bind lock].
  destruct (logger_sync w) eqn:Hs; [reflexivity|].
  cbv [now ret].
  match goal with |- context [spin_waiter.updates n ?s ?v] =>
    pose proof (spin_updates_cases n s v) as H;
    destruct (spin_waiter.updates n s v) as [s1 w1| |]
  end; [|contradiction|reflexivity].
  destruct H as ((_ & _ & Hsync & _) & _).
  rewrite Hinner; [reflexivity|].
  rewrite Hsync. destruct w; reflexivity.
Qed.

Lemma while_loading_undef {A : Type} (mx : Z) (clear : bool) (values : list Z)
      (inner : M A) :
  (forall w, logger_sync w = true -> inner w = Undef) ->
  forall w, while_loading mx clear values inner w = Undef.
Proof.
  intros Hinner w. cbv [while_loading loading_waiter.ctor bind lock].
  destruct (logger_sync w) eqn:Hs; [reflexivity|].
  cbv [ret].
  match goal with |- context [loading_waiter.updates values ?s ?v] =>
    pose proof (loading_updates_cases values s v) as H;
    destruct (loading_waiter.updates values s v) as [s1 w1| |]
  end; [|contradiction|reflexivity].
  destruct H as ((_ & _ & Hsync & _) & _).
  rewrite Hinner; [reflexivity|].
  rewrite Hsync. destruct w; reflexivity.
Qed.

(** X7. Both widgets hold the logger's mutex from construction to
    destruction, and the mutex is not recursive: a [log], an [error] or the
    construction of another widget by the owning thread while a spinner or a
    progress bar is alive locks it a second time, which is undefined,
    whatever the state before. *)
Theorem X7_no_logging_while_a_widget_lives :
  forall (clear clear' : bool) (n : nat) (mx : Z) (values : list Z)
         (color : win_console_colors) (format : string)
         (parameters : list printf_arg) (w : world),
    while_spinning clear n (log color format parameters) w = Undef
    /\ while_spinning clear n (error format parameters) w = Undef
    /\ while_spinning clear n (loading_scope mx clear' values) w = Undef
    /\ while_loading mx clear values (log color format parameters) w = Undef
    /\ while_loading mx clear values (error format parameters) w = Undef
    /\ while_loading mx clear values (spin_scope clear' n) w = Undef.
Proof.
  intros clear clear' n mx values color format parameters w.
  repeat split.
  - apply while_spinning_undef. intros; now apply log_locked.
  - apply while_spinning_undef. intros; now apply error_locked.
  - apply while_spinning_undef. intros; now apply loading_scope_locked.
  - apply while_loading_undef. intros; now apply log_locked.
  - apply while_loading_undef. intros; now apply error_locked.
  - apply while_loading_undef. intros; now apply spin_scope_locked.
Qed.

(** ** The life of a spinner *)

Lemma spin_dtor_runs (self : spin_waiter.state) (w : world) :
  logger_sync w = true ->
  spin_waiter.dtor self w
  = Ret tt (set_sync
              (emit w (EvWrite (String (if spin_waiter.should_clear_on_release self
                                        then CR else LF) "")))
              false).
Proof.
  destruct w as [h a c s p k r]. cbn [logger_sync]. intros ->.
  unfold spin_waiter.dtor.
  destruct (spin_waiter.should_clear_on_release self); reflexivity.
Qed.

(** X8. A spinner that is constructed, updated [n] times and destroyed
    returns with the mutex free again and with handle, attribute, padding
    and clock as before; it writes at most [n] frames and then one carriage
    return (clearing) or one newline, and reads the clock once at
    construction, once per update and once more per frame drawn. *)
Theorem X8_spinner_lifetime :
  forall (clear : bool) (n : nat) (w : world),
    logger_sync w = false ->
    0 <= logger_padding w <= 255 ->
    exists (k : nat) (w' : world),
      (k <= n)%nat
      /\ spin_scope clear n w = Ret tt w'
      /\ same_store w w'
      /\ console w' =
         console w
         ++ map (fun j => EvWrite (spin_waiter.frame (logger_padding w)
                                     (nth (S j mod 4) spin_waiter.animation 0)))
                (seq 0 k)
         ++ [EvWrite (String (if clear then CR else LF) "")]
      /\ clock_reads w' = (clock_reads w + 1 + n + k)%nat.
Proof.
  intros clear n w Hsync Hpad.
  set (self0 := {| spin_waiter.sequence := 0;
                   spin_waiter.last_update_time := clock w (clock_reads w);
                   spin_waiter.should_clear_on_release := clear |}).
  set (w0 := tick (set_sync w true)).
  destruct (spin_updates_trace n self0 w0)
    as (k & self1 & w1 & Hk & Hrun & Hcon & _).
  { simpl. lia. }
  { destruct w; exact Hpad. }
  pose proof (spin_updates_cases n self0 w0) as Hcases. rewrite Hrun in Hcases.
  destruct Hcases as (Hstore & Hflag & Hreads).
  assert (Hlocked : logger_sync w1 = true).
  { destruct Hstore as (_ & _ & -> & _). destruct w; reflexivity. }
  exists k, (set_sync (emit w1 (EvWrite (String (if clear then CR else LF) ""))) false).
  split; [exact Hk|]. split; [|split; [|split]].
  - cbv [spin_scope spin_waiter.ctor bind lock]. rewrite Hsync. cbv [now ret].
    match goal with |- context [spin_waiter.updates n ?s ?v] =>
      change (spin_waiter.updates n s v) with (spin_waiter.updates n self0 w0)
    end.
    rewrite Hrun, (spin_dtor_runs self1 w1 Hlocked), Hflag. reflexivity.
  - destruct Hstore as (H1 & H2 & H3 & H4 & H5).
    destruct w as [h a c s p t r], w1 as [h1 a1 c1 s1 p1 t1 r1].
    unfold same_store. simpl in *. subst. repeat split; congruence.
  - destruct w as [h a c s p t r], w1 as [h1 a1 c1 s1 p1 t1 r1].
    simpl in *. rewrite Hcon. now rewrite <- app_assoc.
  - rewrite Hcon in Hreads. rewrite length_app, length_map, length_seq in Hreads.
    destruct w as [h a c s p t r], w1 as [h1 a1 c1 s1 p1 t1 r1].
    simpl in *. lia.
Qed.

Lemma X8_witness :
  exists (k : nat) (w' : world),
    (k <= 3)%nat
    /\ spin_scope true 3 quiet_world = Ret tt w'
    /\ same_store quiet_world w'
    /\ console w' =
       console quiet_world
       ++ map (fun j => EvWrite (spin_waiter.frame (logger_padding quiet_world)
                                   (nth (S j mod 4) spin_waiter.animation 0)))
              (seq 0 k)
       ++ [EvWrite (String CR "")]
    /\ clock_reads w' = (clock_reads quiet_world + 1 + 3 + k)%nat.
Proof.
  apply (X8_spinner_lifetime true 3 quiet_world); [reflexivity | simpl; lia].
Defined.

(** ** The pace of a spinner *)

Lemma clock_mono (w : world) :
  monotone_clock w -> forall i j : nat, (i <= j)%nat -> clock w i <= clock w j.
Proof.
  intros Hm i j Hij. induction Hij as [|j Hij IH]; [lia|].
  specialize (Hm j). lia.
Qed.

(** Every frame drawn moves the time of the last update on by at least a
    redraw interval, and that time never passes the latest clock reading. *)
Lemma spin_updates_pace (n : nat) :
  forall (self : spin_waiter.state) (w : world),
    0 <= logger_padding w <= 255 ->
    monotone_clock w ->
    (0 < clock_reads w)%nat ->
    spin_waiter.last_update_time self <= clock w (pred (clock_reads w)) ->
    exists (drawn : list event) (self' : spin_waiter.state) (w' : world),
      spin_waiter.updates n self w = Ret self' w'
      /\ console w' = console w ++ drawn
      /\ spin_waiter.last_update_time self
         + Z.of_nat (List.length drawn) * update_rate_ticks
         <= spin_waiter.last_update_time self'
      /\ spin_waiter.last_update_time self' <= clock w (pred (clock_reads w'))
      /\ (0 < clock_reads w')%nat.
Proof.
  induction n as [|n IH]; intros self w Hpad Hmono Hreads Hlast.
  - exists [], self, w. split; [reflexivity|]. split; [now rewrite app_nil_r|].
    simpl. repeat split; lia.
  - cbn [spin_waiter.updates]. unfold bind at 1.
    rewrite (spin_update_runs self w Hpad).
    pose proof (clock_mono w Hmono (pred (clock_reads w)) (clock_reads w) ltac:(lia)) as H1.
    pose proof (Hmono (clock_reads w)) as H2.
    destruct (Z.ltb_spec (clock w (clock_reads w) - spin_waiter.last_update_time self)
                         (spin_waiter.update_rate_ms * ticks_per_ms)) as [Hskip|Hdraw].
    + destruct (IH self (tick w)) as (drawn & self' & w' & Hrun & Hcon & Hgain & Htop & Hpos).
      * destruct w; exact Hpad.
      * destruct w; exact Hmono.
      * destruct w; simpl; lia.
      * destruct w; simpl in *; lia.
      * exists drawn, self', w'. split; [exact Hrun|].
        split; [rewrite Hcon; destruct w; reflexivity|].
        split; [exact Hgain|]. split; [destruct w; exact Htop | exact Hpos].
    + cbv zeta.
      match goal with |- context [Ret ?s ?v] => set (self1 := s); set (w1 := v) end.
      destruct (IH self1 w1) as (drawn & self' & w' & Hrun & Hcon & Hgain & Htop & Hpos).
      * destruct w; exact Hpad.
      * destruct w; exact Hmono.
      * destruct w; simpl; lia.
      * subst self1 w1. destruct w; simpl in *; lia.
      * exists (EvWrite (spin_waiter.frame (logger_padding w)
                           (nth (Z.to_nat ((spin_waiter.sequence self + 1) mod 4))
                                spin_waiter.animation 0)) :: drawn), self', w'.
        split; [exact Hrun|].
        split; [rewrite Hcon; subst w1; destruct w; simpl; now rewrite <- app_assoc|].
        split; [|split; [destruct w; exact Htop | exact Hpos]].
        subst self1. cbn [spin_waiter.last_update_time List.length] in *.
        unfold update_rate_ticks in *. lia.
Qed.

(** X9. With a clock that never runs backwards, a spinner draws at most one
    frame per redraw interval of elapsed time: the frames drawn since its
    construction, times 100 ms, fit between the reading taken at
    construction and the latest reading; if no reading is a full interval
    after construction, nothing is drawn. *)
Theorem X9_spinner_draws_at_most_once_per_interval :
  forall (clear : bool) (n : nat) (w : world),
    logger_sync w = false ->
    0 <= logger_padding w <= 255 ->
    monotone_clock w ->
    exists (drawn : list event) (self' : spin_waiter.state) (w' : world),
      (self <- spin_waiter.ctor clear ;; spin_waiter.updates n self) w = Ret self' w'
      /\ console w' = console w ++ drawn
      /\ Z.of_nat (List.length drawn) * (100 * ticks_per_ms)
         <= clock w (pred (clock_reads w')) - clock w (clock_reads w)
      /\ ((forall i : nat, clock w i - clock w (clock_reads w) < 100 * ticks_per_ms) ->
          drawn = []).
Proof.
  intros clear n w Hsync Hpad Hmono.
  set (self0 := {| spin_waiter.sequence := 0;
                   spin_waiter.last_update_time := clock w (clock_reads w);
                   spin_waiter.should_clear_on_release := clear |}).
  set (w0 := tick (set_sync w true)).
  destruct (spin_updates_pace n self0 w0)
    as (drawn & self' & w' & Hrun & Hcon & Hgain & Htop & Hpos).
  { destruct w; exact Hpad. }
  { destruct w; exact Hmono. }
  { destruct w; simpl; lia. }
  { destruct w; simpl; lia. }
  assert (Hbound : Z.of_nat (List.length drawn) * (100 * ticks_per_ms)
                   <= clock w (pred (clock_reads w')) - clock w (clock_reads w)).
  { subst self0 w0. cbn [spin_waiter.last_update_time] in Hgain.
    unfold update_rate_ticks, spin_waiter.update_rate_ms in Hgain.
    destruct w; simpl in *; lia. }
  exists drawn, self', w'. split; [|split; [|split]].
  - cbv [spin_waiter.ctor bind lock]. rewrite Hsync. cbv [now ret]. exact Hrun.
  - rewrite Hcon. destruct w; reflexivity.
  - exact Hbound.
  - intros Hnear. specialize (Hnear (pred (clock_reads w'))).
    destruct drawn as [|e drawn]; [reflexivity|].
    cbn [List.length] in Hbound. unfold ticks_per_ms in *. lia.
Qed.

Lemma X9_witness :
  exists (drawn : list event) (self' : spin_waiter.state) (w' : world),
    (self <- spin_waiter.ctor false ;; spin_waiter.updates 4 self) red_console
    = Ret self' w'
    /\ console w' = console red_console ++ drawn
    /\ Z.of_nat (List.length drawn) * (100 * ticks_per_ms)
       <= clock red_console (pred (clock_reads w'))
          - clock red_console (clock_reads red_console)
    /\ ((forall i : nat,
            clock red_console i - clock red_console (clock_reads red_console)
            < 100 * ticks_per_ms) ->
        drawn = []).
Proof.
  apply (X9_spinner_draws_at_most_once_per_interval false 4 red_console);
    [reflexivity | simpl; lia | intros i; simpl; lia].
Defined.

(** ** The life of a progress bar *)

Lemma last_cons_default {B : Type} (l : list B) (x d : B) :
  last (x :: l) d = last l x.
Proof.
  revert x d. induction l as [|y l IH]; intros x d; [reflexivity|].
  change (last (x :: y :: l) d) with (last (y :: l) d). now rewrite !IH.
Qed.

Lemma last_Forall {B : Type} (P : B -> Prop) (l : list B) (d : B) :
  P d -> Forall P l -> P (last l d).
Proof.
  intros Hd Hl. revert d Hd. induction Hl as [|x l Hx Hl IH]; intros d Hd; [exact Hd|].
  rewrite last_cons_default. now apply IH.
Qed.

(** The count a progress bar stores is the length of the bar it drew last. *)
Lemma loading_updates_count (values : list Z) :
  forall (self self' : loading_waiter.state) (w w' : world),
    0 <= logger_padding w <= 255 ->
    loading_waiter.updates values self w = Ret self' w' ->
    exists drawn : list (Z * Z),
      Forall2 (fun v d =>
                 loading_waiter.percent (loading_waiter.max_value self) v = Some (fst d)
                 /\ loading_waiter.count_to_draw (loading_waiter.max_value self) v
                    = Some (snd d))
              values drawn
      /\ console w' =
         console w ++
         map (fun d => EvWrite (loading_waiter.bar_text (logger_padding w) (fst d) (snd d)))
             drawn
      /\ Forall (fun d => 0 <= snd d <= 10) drawn
      /\ loading_waiter.last_drawn_count self'
         = last (map (fun d => Z.of_nat (String.length
                                 (loading_waiter.bar_text (logger_padding w) (fst d) (snd d))))
                     drawn)
                (loading_waiter.last_drawn_count self).
Proof.
  induction values as [|v values IH]; intros self self' w w' Hpad Hrun.
  - injection Hrun as <- <-. exists []. split; [constructor|].
    split; [now rewrite app_nil_r|]. split; [constructor | reflexivity].
  - cbn [loading_waiter.updates] in Hrun. unfold bind in Hrun.
    destruct (loading_waiter.update self v w) as [self1 w1| |] eqn:Hupd; try discriminate.
    destruct (loading_update_inv self self1 v w w1 Hpad Hupd)
      as (p & n & Hp & Hn & Hr & -> & ->).
    match type of Hrun with
    | loading_waiter.updates _ _ ?w1 = _ =>
        assert (Hpad1 : 0 <= logger_padding w1 <= 255) by (destruct w; exact Hpad)
    end.
    destruct (IH _ self' _ w' Hpad1 Hrun) as (drawn & Hall & Hcon & Hcells & Hcount).
    exists ((p, n) :: drawn). split; [|split; [|split]].
    + constructor; [split; assumption | exact Hall].
    + rewrite Hcon. destruct w; cbn. now rewrite <- app_assoc.
    + constructor; [exact Hr | exact Hcells].
    + rewrite Hcount. cbn [map fst snd loading_waiter.last_drawn_count].
      rewrite last_cons_default. destruct w; reflexivity.
Qed.

Lemma last_width_range (pad : Z) (drawn : list (Z * Z)) :
  0 <= pad <= 255 ->
  Forall (fun d => 0 <= snd d <= 10) drawn ->
  0 <= last_width pad drawn <= 280.
Proof.
  intros Hpad Hcells. unfold last_width.
  apply (last_Forall (fun z => 0 <= z <= 280)); [lia|].
  apply Forall_map. apply (Forall_impl _ (P := fun d => 0 <= snd d <= 10)); [|exact Hcells].
  intros d Hd. rewrite (length_bar_text pad (fst d) (snd d)) by lia.
  pose proof (length_string_of_Z (fst d)). lia.
Qed.

(** X10. A progress bar with a positive maximum that is constructed, updated
    with non-negative values and destroyed returns with the mutex free and
    with handle, attribute, padding and clock untouched; it writes one bar
    per value and then a newline or, when clearing, as many blanks as the
    bar drawn last had characters, followed by a carriage return: earlier
    bars, however wide, do not count, and without any update only the
    carriage return is written. *)
Theorem X10_progress_bar_lifetime :
  forall (mx : Z) (clear : bool) (values : list Z) (w : world),
    0 < mx <= INT_MAX ->
    Forall (fun v => 0 <= v <= INT_MAX) values ->
    logger_sync w = false ->
    0 <= logger_padding w <= 255 ->
    exists (drawn : list (Z * Z)) (w' : world),
      loading_scope mx clear values w = Ret tt w'
      /\ same_store w w'
      /\ clock_reads w' = clock_reads w
      /\ Forall2 (fun v d =>
                    loading_waiter.percent mx v = Some (fst d)
                    /\ loading_waiter.count_to_draw mx v = Some (snd d))
                 values drawn
      /\ console w' =
         console w
         ++ map (fun d => EvWrite (loading_waiter.bar_text (logger_padding w)
                                     (fst d) (snd d)))
                drawn
         ++ [EvWrite (if clear
                      then spaces (Z.to_nat (last_width (logger_padding w) drawn))
                           ++ String CR ""
                      else String LF "")]
      /\ (forall ds d,
             drawn = ds ++ [d] ->
             last_width (logger_padding w) drawn
             = Z.of_nat (String.length
                           (loading_waiter.bar_text (logger_padding w) (fst d) (snd d))))
      /\ (values = [] -> last_width (logger_padding w) drawn = 0).
Proof.
  intros mx clear values w Hmx Hvalues Hsync Hpad.
  set (w0 := set_sync w true).
  assert (Hpad0 : 0 <= logger_padding w0 <= 255) by (destruct w; exact Hpad).
  destruct (loading_updates_return values (waiter mx clear) w0 Hmx Hvalues Hpad0)
    as (self1 & w1 & Hrun).
  destruct (loading_updates_count values _ _ _ _ Hpad0 Hrun)
    as (drawn & Hall & Hcon & Hcells & Hcount).
  pose proof (loading_updates_cases values (waiter mx clear) w0) as Hcases.
  rewrite Hrun in Hcases. destruct Hcases as (Hstore & Hreads & Hflag & _).
  assert (Hlocked : logger_sync w1 = true).
  { destruct Hstore as (_ & _ & -> & _). destruct w; reflexivity. }
  assert (Hwidth : loading_waiter.last_drawn_count self1
                   = last_width (logger_padding w) drawn).
  { rewrite Hcount. unfold last_width. destruct w; reflexivity. }
  pose proof (last_width_range (logger_padding w) drawn Hpad Hcells) as Hrange.
  set (final := EvWrite (if clear
                         then spaces (Z.to_nat (last_width (logger_padding w) drawn))
                              ++ String CR ""
                         else String LF "")).
  assert (Hdtor : loading_waiter.dtor self1 w1 = Ret tt (set_sync (emit w1 final) false)).
  { subst final. destruct clear.
    - rewrite (loading_dtor_clear self1 w1 Hlocked);
        [now rewrite Hwidth | exact Hflag | rewrite Hwidth; unfold INT_MAX; lia].
    - apply (loading_dtor_newline self1 w1 Hlocked). exact Hflag. }
  exists drawn, (set_sync (emit w1 final) false).
  split; [|split; [|split; [|split; [|split; [|split]]]]].
  - cbv [loading_scope loading_waiter.ctor bind lock]. rewrite Hsync. cbv [ret].
    change (loading_waiter.updates values _ (set_sync w true))
      with (loading_waiter.updates values (waiter mx clear) w0).
    rewrite Hrun. exact Hdtor.
  - destruct Hstore as (H1 & H2 & H3 & H4 & H5).
    destruct w as [h a c s p t r], w1 as [h1 a1 c1 s1 p1 t1 r1].
    unfold same_store. simpl in *. subst. repeat split; congruence.
  - destruct w as [h a c s p t r], w1 as [h1 a1 c1 s1 p1 t1 r1]. simpl in *. congruence.
  - exact Hall.
  - destruct w as [h a c s p t r], w1 as [h1 a1 c1 s1 p1 t1 r1].
    simpl in *. rewrite Hcon. now rewrite <- app_assoc.
  - intros ds d ->. unfold last_width. rewrite map_app. cbn [map].
    now rewrite last_last.
  - intros ->. inversion Hall. reflexivity.
Qed.

Lemma X10_witness :
  exists (drawn : list (Z * Z)) (w' : world),
    loading_scope 200 true [250; 50] quiet_world = Ret tt w'
    /\ same_store quiet_world w'
    /\ clock_reads w' = clock_reads quiet_world
    /\ Forall2 (fun v d =>
                  loading_waiter.percent 200 v = Some (fst d)
                  /\ loading_waiter.count_to_draw 200 v = Some (snd d))
               [250; 50] drawn
    /\ console w' =
       console quiet_world
       ++ map (fun d => EvWrite (loading_waiter.bar_text (logger_padding quiet_world)
                                   (fst d) (snd d)))
              drawn
       ++ [EvWrite (spaces (Z.to_nat (last_width (logger_padding quiet_world) drawn))
                    ++ String CR "")]
    /\ (forall ds d,
           drawn = ds ++ [d] ->
           last_width (logger_padding quiet_world) drawn
           = Z.of_nat (String.length
                         (loading_waiter.bar_text (logger_padding quiet_world)
                            (fst d) (snd d))))
    /\ ([250; 50] = [] -> last_width (logger_padding quiet_world) drawn = 0).
Proof.
  apply (X10_progress_bar_lifetime 200 true [250; 50] quiet_world).
  - unfold INT_MAX. lia.
  - repeat constructor; unfold INT_MAX; lia.
  - reflexivity.
  - simpl. lia.
Defined.

(** ** A maximum of zero *)

Lemma float_div_by_zero (x : spec_float) :
  match float_div x (float_of_int 0) with
  | S754_infinity _ | S754_nan => True
  | _ => False
  end.
Proof. destruct x as [s|s| |s m e]; try destruct s; exact I. Qed.

Lemma scaled_zero_maximum (k cur : Z) : scaled k 0 cur = None.
Proof.
  unfold scaled, loading_waiter.percentage.
  pose proof (float_div_by_zero (float_of_int (std_min cur 0))) as H.
  destruct (float_div _ (float_of_int 0)) as [s|s| |s m e]; try contradiction.
  - destruct (float_of_int k) as [s'|s'| |s' m' e']; reflexivity.
  - reflexivity.
Qed.

(** X11. With a maximum of 0 the ratio is a division by zero: its result is
    an infinity or not a number, the conversion of the percentage to [int]
    is undefined, and so is every [update], whatever the current value and
    the state; a progress bar over an empty range cannot be updated even
    once. *)
Theorem X11_zero_maximum_is_undefined :
  forall (cur : Z),
    loading_waiter.percent 0 cur = None
    /\ loading_waiter.count_to_draw 0 cur = None
    /\ (forall self w,
           loading_waiter.max_value self = 0 ->
           loading_waiter.update self cur w = Undef)
    /\ (forall clear values w, loading_scope 0 clear (cur :: values) w = Undef).
Proof.
  intros cur.
  assert (Hp : loading_waiter.percent 0 cur = None).
  { rewrite percent_scaled. apply scaled_zero_maximum. }
  assert (Hupd : forall self w,
             loading_waiter.max_value self = 0 ->
             loading_waiter.update self cur w = Undef).
  { intros self w Hmx. unfold loading_waiter.update. rewrite Hmx, Hp. reflexivity. }
  split; [exact Hp|]. split; [|split; [exact Hupd|]].
  - rewrite count_to_draw_scaled. apply scaled_zero_maximum.
  - intros clear values w. cbv [loading_scope loading_waiter.ctor bind lock ret].
    destruct (logger_sync w); [reflexivity|].
    cbn [loading_waiter.updates]. unfold bind at 1.
    rewrite Hupd; reflexivity.
Qed.

Lemma X11_witness :
  loading_waiter.update (waiter 0 false) 0 quiet_world = Undef.
Proof.
  apply (proj1 (proj2 (proj2 (X11_zero_maximum_is_undefined 0)))
               (waiter 0 false) quiet_world eq_refl).
Defined.

(** ** How close the drawn percentage is to the exact one *)

(** Rounding to the nearest integer moves a number by at most a half. *)
Lemma rne_half (y : Q) : (y - (1 # 2) <= inject_Z (rne y) /\ inject_Z (rne y) <= y + (1 # 2))%Q.
Proof.
  pose proof (Qfloor_le y) as Fl. pose proof (Qlt_floor y) as Fu.
  rewrite inject_Z_plus in Fu. change (inject_Z 1) with 1%Q in Fu.
  unfold rne.
  destruct (Qcompare (y - inject_Z (Qfloor y)) (1 # 2)) eqn:E.
  - apply Qeq_alt in E.
    destruct (Z.even (Qfloor y));
      [|rewrite inject_Z_plus; change (inject_Z 1) with 1%Q]; lra.
  - apply Qlt_alt in E. lra.
  - apply Qgt_alt in E. rewrite inject_Z_plus. change (inject_Z 1) with 1%Q. lra.
Qed.

Lemma round_at_error (c : Z) (x : Q) :
  (x - pow2 (c - 1) <= round_at c x /\ round_at c x <= x + pow2 (c - 1))%Q.
Proof.
  unfold round_at. pose proof (pow2_pos (c - 1)) as Hp.
  assert (Hc : (pow2 c == 2 * pow2 (c - 1))%Q).
  { replace c with (c - 1 + 1) at 1 by lia. apply pow2_succ. }
  destruct (rne_half (x / pow2 c)) as [Hl Hu].
  set (n := inject_Z (rne (x / pow2 c))) in *.
  assert (Hx : (x == x / pow2 c * pow2 c)%Q).
  { pose proof (pow2_pos c). field. lra. }
  assert (H1 : ((x / pow2 c - (1 # 2)) * pow2 c <= n * pow2 c)%Q).
  { apply Qmult_le_compat_r; [exact Hl|]. pose proof (pow2_pos c). lra. }
  assert (H2 : (n * pow2 c <= (x / pow2 c + (1 # 2)) * pow2 c)%Q).
  { apply Qmult_le_compat_r; [exact Hu|]. pose proof (pow2_pos c). lra. }
  set (y := (x / pow2 c)%Q) in *.
  assert (E1 : ((y - (1 # 2)) * pow2 c == x - pow2 (c - 1))%Q).
  { rewrite Hx, Hc. ring. }
  assert (E2 : ((y + (1 # 2)) * pow2 c == x + pow2 (c - 1))%Q).
  { rewrite Hx, Hc. ring. }
  rewrite E1 in H1. rewrite E2 in H2. split; assumption.
Qed.

(** A rounded number is within one part in [2 ^ 24] of the exact one. *)
Lemma rounded_error (f : spec_float) (x : Q) (d : Z) :
  rounded f x d ->
  (x * (1 - (1 # 16777216)) <= value f /\ value f <= x * (1 + (1 # 16777216)))%Q.
Proof.
  intros (m & e & _ & _ & [Hlo Hhi] & V). rewrite V.
  destruct (round_at_error (d - 24) x) as [Hl Hu].
  assert (Hp : (pow2 (d - 24 - 1) == pow2 (d - 1) * (1 # 16777216))%Q).
  { replace (d - 24 - 1) with (d - 1 + -24) by lia. rewrite pow2_add. reflexivity. }
  rewrite Hp in Hl, Hu.
  set (b := pow2 (d - 1)) in *. set (r := round_at (d - 24) x) in *.
  lra.
Qed.

(** Integers below [2 ^ 24] are floats. *)
Lemma float_of_int_exact (n : Z) :
  0 < n < 2 ^ 24 -> (value (float_of_int n) == inject_Z n)%Q.
Proof.
  intros Hn.
  destruct (float_of_int_normal n ltac:(lia)) as (m & e & _ & _ & R).
  pose proof (Zdigits2_bounds n ltac:(lia)) as Hb.
  pose proof (Zdigits2_pos n ltac:(lia)) as Hd.
  pose proof (Zdigits2_le n 24 Hn ltac:(lia)) as Hd24.
  set (D := Zdigits2 n) in *.
  assert (Hx : (inject_Z n == inject_Z (n * 2 ^ (24 - D)) * pow2 (D - 24))%Q).
  { rewrite inject_Z_mult, <- (pow2_Z (24 - D)) by lia.
    rewrite <- Qmult_assoc, <- pow2_add.
    replace (24 - D + (D - 24)) with 0 by lia. change (pow2 0) with 1%Q. ring. }
  apply (rounded_exact _ _ _ (n * 2 ^ (24 - D)) (D - 24) R Hx).
  replace (D - 24 + 23) with (D - 1) by lia. replace (D - 24 + 24) with D by lia.
  rewrite (pow2_Z (D - 1)), (pow2_Z D) by lia.
  rewrite <- Zle_Qle, <- Zlt_Qlt. exact Hb.
Qed.

(** The single-precision value of [k * c / mx] is within [1 / 80000] of
    the exact quotient, for [k] up to 100 and [c <= mx] below [2 ^ 24]. *)
Lemma scaled_value_near (k mx c : Z) :
  0 < k <= 100 -> 0 < mx < 2 ^ 24 -> 0 < c <= mx ->
  let r := value (float_mul (float_div (float_of_int c) (float_of_int mx))
                            (float_of_int k)) in
  let x := (inject_Z (k * c) / inject_Z mx)%Q in
  (x - (1 # 80000) <= r /\ r <= x + (1 # 80000))%Q.
Proof.
  intros Hk Hm Hc r x.
  destruct (ratio_normal c mx ltac:(lia) ltac:(lia)) as (d1 & m1 & e1 & R1 & _).
  destruct (scaled_normal k c mx ltac:(lia) ltac:(lia) ltac:(lia)) as (d2 & m2 & e2 & R2 & _).
  pose proof (float_of_int_exact c ltac:(lia)) as Ec.
  pose proof (float_of_int_exact mx ltac:(lia)) as Em.
  pose proof (float_of_int_exact k ltac:(lia)) as Ek.
  assert (Hmq : (0 < inject_Z mx)%Q) by (rewrite <- (Zlt_Qlt 0); lia).
  assert (Hcq : (0 < inject_Z c)%Q) by (rewrite <- (Zlt_Qlt 0); lia).
  assert (Hkq : (0 < inject_Z k)%Q) by (rewrite <- (Zlt_Qlt 0); lia).
  assert (Hcm : (inject_Z c <= inject_Z mx)%Q) by (rewrite <- Zle_Qle; lia).
  assert (Hk100 : (inject_Z k <= 100)%Q).
  { change 100%Q with (inject_Z 100). rewrite <- Zle_Qle. lia. }
  set (y := (inject_Z c / inject_Z mx)%Q).
  assert (E1 : (value (float_of_int c) / value (float_of_int mx) == y)%Q).
  { unfold y. rewrite Ec, Em. reflexivity. }
  apply (rounded_comp _ _ _ _ E1) in R1. apply rounded_error in R1.
  set (q := value (float_div (float_of_int c) (float_of_int mx))) in *.
  assert (E2 : (q * value (float_of_int k) == q * inject_Z k)%Q) by (now rewrite Ek).
  apply (rounded_comp _ _ _ _ E2) in R2. apply rounded_error in R2.
  fold r in R2.
  assert (Hy0 : (0 < y)%Q).
  { unfold y. apply Qlt_shift_div_l; [exact Hmq|]. lra. }
  assert (Hy1 : (y <= 1)%Q).
  { unfold y. apply Qle_shift_div_r; [exact Hmq|]. lra. }
  set (K := inject_Z k) in *.
  set (z := (y * K)%Q).
  assert (Hx : (x == z)%Q).
  { unfold x, z, y, K. rewrite inject_Z_mult. field. lra. }
  assert (Hz0 : (0 <= z)%Q).
  { unfold z. apply Qmult_le_0_compat; lra. }
  assert (Hz1 : (z <= 100)%Q).
  { unfold z. apply Qle_trans with (1 * K)%Q; [|lra].
    apply Qmult_le_compat_r; lra. }
  destruct R1 as [Q1 Q2].
  assert (T1 : (z * (1 - (1 # 16777216)) <= q * K)%Q).
  { apply Qle_trans with (y * (1 - (1 # 16777216)) * K)%Q.
    - unfold z. apply Qle_lteq. right. ring.
    - apply Qmult_le_compat_r; lra. }
  assert (T2 : (q * K <= z * (1 + (1 # 16777216)))%Q).
  { apply Qle_trans with (y * (1 + (1 # 16777216)) * K)%Q.
    - apply Qmult_le_compat_r; lra.
    - unfold z. apply Qle_lteq. right. ring. }
  set (t := (q * K)%Q) in *.
  rewrite Hx. destruct R2 as [R2 R3]. split; lra.
Qed.

Lemma inject_Z_sub (a b : Z) : (inject_Z (a - b) == inject_Z a - inject_Z b)%Q.
Proof. unfold Z.sub. rewrite inject_Z_plus, inject_Z_opp. reflexivity. Qed.

(** The integer part of a number that close to a quotient of integers is
    the integer quotient, or one less when the division is exact. *)
Lemma floor_near_quotient (r : Q) (a mx : Z) :
  0 <= a -> 0 < mx < 2 ^ 16 ->
  (inject_Z a / inject_Z mx - (1 # 80000) <= r
   /\ r <= inject_Z a / inject_Z mx + (1 # 80000))%Q ->
  a / mx - 1 <= Qfloor r <= a / mx
  /\ (a mod mx <> 0 -> Qfloor r = a / mx).
Proof.
  intros Ha Hm [Hl Hu].
  pose proof (Z.div_mod a mx ltac:(lia)) as Hdm.
  pose proof (Z.mod_pos_bound a mx ltac:(lia)) as Hrho.
  set (E := a / mx) in *. set (rho := a mod mx) in *.
  assert (Hmq : (0 < inject_Z mx)%Q) by (rewrite <- (Zlt_Qlt 0); lia).
  set (i := (/ inject_Z mx)%Q).
  assert (Hi : (i * inject_Z mx == 1)%Q) by (unfold i; field; lra).
  assert (Hi0 : (0 < i)%Q) by (apply Qinv_lt_0_compat; exact Hmq).
  assert (Hi1 : ((1 # 65535) <= i)%Q).
  { assert (H : (inject_Z mx <= 65535)%Q).
    { change 65535%Q with (inject_Z 65535). rewrite <- Zle_Qle. lia. }
    assert (H' : (i * inject_Z mx <= i * 65535)%Q).
    { rewrite !(Qmult_comm i). apply Qmult_le_compat_r; lra. }
    lra. }
  assert (Hx : (inject_Z a / inject_Z mx == inject_Z E + inject_Z rho * i)%Q).
  { rewrite Hdm, inject_Z_plus, inject_Z_mult. unfold i. field. lra. }
  assert (Hr0 : (0 <= inject_Z rho * i)%Q).
  { apply Qmult_le_0_compat; [|lra]. rewrite <- (Zle_Qle 0). lia. }
  assert (Hr1 : (inject_Z rho * i <= 1 - i)%Q).
  { assert (H : (inject_Z rho <= inject_Z mx - 1)%Q).
    { change 1%Q with (inject_Z 1). rewrite <- inject_Z_sub, <- Zle_Qle. lia. }
    assert (H' : (inject_Z rho * i <= (inject_Z mx - 1) * i)%Q).
    { apply Qmult_le_compat_r; lra. }
    assert (H'' : ((inject_Z mx - 1) * i == 1 - i)%Q).
    { transitivity (i * inject_Z mx - i)%Q; [ring | rewrite Hi; reflexivity]. }
    lra. }
  rewrite Hx in Hl, Hu.
  set (s := (inject_Z rho * i)%Q) in *.
  assert (Hlow : E - 1 <= Qfloor r).
  { rewrite <- (Qfloor_Z (E - 1)). apply Qfloor_resp_le.
    rewrite inject_Z_sub. change (inject_Z 1) with 1%Q. lra. }
  assert (Hhigh : Qfloor r <= E).
  { pose proof (Qfloor_le r) as Fl.
    assert (H : (inject_Z (Qfloor r) < inject_Z (E + 1))%Q).
    { rewrite inject_Z_plus. change (inject_Z 1) with 1%Q. lra. }
    rewrite <- Zlt_Qlt in H. lia. }
  split; [lia|].
  intros Hne. apply Qfloor_unique; [|lra].
  assert (H : (i <= s)%Q).
  { unfold s. apply Qle_trans with (1 * i)%Q; [lra|].
    apply Qmult_le_compat_r; [|lra].
    change 1%Q with (inject_Z 1). rewrite <- Zle_Qle. lia. }
  lra.
Qed.

Lemma scaled_accurate (k mx cur : Z) :
  0 < k <= 100 -> magnitude k mx mx = k ->
  0 < mx < 2 ^ 16 -> 0 <= cur <= INT_MAX ->
  exists v,
    scaled k mx cur = Some v
    /\ k * Z.min cur mx / mx - 1 <= v <= k * Z.min cur mx / mx
    /\ ((k * Z.min cur mx) mod mx <> 0 -> v = k * Z.min cur mx / mx).
Proof.
  unfold INT_MAX. intros Hk Hfull Hm Hc.
  destruct (Z.eq_dec cur 0) as [->|Hne].
  - exists 0. rewrite (scaled_zero k mx ltac:(lia) ltac:(lia)).
    replace (Z.min 0 mx) with 0 by lia. rewrite Z.mul_0_r, Z.mod_0_l by lia.
    change (0 / mx) with 0. split; [reflexivity|]. split; [lia|]. intros H. now elim H.
  - rewrite (scaled_floor k mx cur ltac:(lia) Hfull ltac:(lia) ltac:(lia)).
    unfold loading_waiter.percentage. rewrite std_min_min.
    set (c := Z.min cur mx).
    pose proof (scaled_value_near k mx c Hk ltac:(lia) ltac:(lia)) as Hnear.
    cbv zeta in Hnear.
    destruct (floor_near_quotient _ (k * c) mx ltac:(lia) Hm Hnear) as [Hb He].
    eexists. split; [reflexivity|]. split; [exact Hb | exact He].
Qed.

(** X12. For a maximum between 1 and 65535 and a non-negative current
    value, the percentage that [update] prints is the exact integer
    percentage of the clamped value or one less, and the number of filled
    cells likewise; it can be one less only when the exact quotient is a
    whole number. That case occurs: 53 of 100 is printed as 52%. *)
Theorem X12_percent_is_exact_or_one_below :
  (forall (mx cur : Z),
      0 < mx < 2 ^ 16 -> 0 <= cur <= INT_MAX ->
      let c := Z.min cur mx in
      exists p n,
        loading_waiter.percent mx cur = Some p
        /\ loading_waiter.count_to_draw mx cur = Some n
        /\ 100 * c / mx - 1 <= p <= 100 * c / mx
        /\ 10 * c / mx - 1 <= n <= 10 * c / mx
        /\ ((100 * c) mod mx <> 0 -> p = 100 * c / mx)
        /\ ((10 * c) mod mx <> 0 -> n = 10 * c / mx))
  /\ loading_waiter.percent 100 53 = Some 52.
Proof.
  split; [|reflexivity].
  intros mx cur Hm Hc c.
  destruct (scaled_accurate 100 mx cur ltac:(lia)
              (magnitude_full_100 mx ltac:(lia)) Hm Hc) as (p & Hp & Hpb & Hpe).
  destruct (scaled_accurate 10 mx cur ltac:(lia)
              (magnitude_full_10 mx ltac:(lia)) Hm Hc) as (n & Hn & Hnb & Hne).
  exists p, n. rewrite percent_scaled, count_to_draw_scaled. subst c.
  split; [exact Hp|]. split; [exact Hn|]. split; [exact Hpb|]. split; [exact Hnb|].
  split; [exact Hpe | exact Hne].
Qed.

Lemma X12_witness :
  exists p n,
    loading_waiter.percent 7 3 = Some p
    /\ loading_waiter.count_to_draw 7 3 = Some n
    /\ 100 * Z.min 3 7 / 7 - 1 <= p <= 100 * Z.min 3 7 / 7
    /\ 10 * Z.min 3 7 / 7 - 1 <= n <= 10 * Z.min 3 7 / 7
    /\ ((100 * Z.min 3 7) mod 7 <> 0 -> p = 100 * Z.min 3 7 / 7)
    /\ ((10 * Z.min 3 7) mod 7 <> 0 -> n = 10 * Z.min 3 7 / 7).
Proof.
  apply (proj1 X12_percent_is_exact_or_one_below 7 3); unfold INT_MAX; lia.
Defined.

(** ** A negative maximum *)

(** The float of the double of an integer divided by the float of that
    integer is two. *)
Lemma ratio_double n :
  0 < n -> 2 * n <= 2 ^ 31 ->
  float_div (float_of_int (2 * n)) (float_of_int n) = S754_finite false 8388608 (-22).
Proof.
  intros Hn H2n.
  destruct (ratio_normal (2 * n) n ltac:(lia) ltac:(lia)) as (d & m & e & R & N & _).
  destruct (float_of_int_normal n ltac:(lia)) as (m1 & e1 & N1 & _ & R1).
  destruct (float_of_int_normal (2 * n) ltac:(lia)) as (m2 & e2 & N2 & _ & R2).
  pose proof (normal_value_pos _ _ _ N1) as Hpos.
  assert (Hdig : Zdigits2 (2 * n) = Zdigits2 n + 1).
  { rewrite Z.mul_comm. apply (Zdigits2_shift n 1); lia. }
  assert (Hv2 : (value (float_of_int (2 * n)) == 2 * value (float_of_int n))%Q).
  { destruct R1 as (? & ? & _ & _ & _ & V1). destruct R2 as (? & ? & _ & _ & _ & V2).
    rewrite V1, V2, Hdig.
    replace (Zdigits2 n + 1 - 24) with (Zdigits2 n - 24 + 1) by lia.
    rewrite <- round_at_double. apply round_at_comp.
    rewrite inject_Z_mult. reflexivity. }
  apply (normal_of_value _ m e (2 ^ 23) (-22) N); [lia|].
  assert (E : (value (float_of_int (2 * n)) / value (float_of_int n) == 2)%Q).
  { rewrite Hv2. qfield. }
  apply (rounded_comp _ _ _ _ E) in R.
  rewrite (rounded_exact _ _ _ (2 ^ 23) (-22) R); [reflexivity | reflexivity |].
  split; [discriminate | reflexivity].
Qed.

Lemma magnitude_double_10 mx : 0 < mx -> 2 * mx <= 2 ^ 31 -> magnitude 10 mx (2 * mx) = 20.
Proof. intros H1 H2. unfold magnitude. rewrite (ratio_double mx H1 H2). reflexivity. Qed.

(** With a negative maximum both operands of the division are negative,
    and the quotient is that of their absolute values. *)
Lemma scaled_negative_maximum k mx c :
  0 < k <= 2 ^ 31 -> - 2 ^ 31 <= mx < 0 -> - 2 ^ 31 <= c ->
  scaled k mx c
  = if magnitude k (- mx) (- Z.min c mx) <=? INT_MAX
    then Some (magnitude k (- mx) (- Z.min c mx)) else None.
Proof.
  intros Hk Hm Hc. unfold scaled, loading_waiter.percentage, magnitude.
  rewrite std_min_min.
  set (c' := - Z.min c mx). set (m' := - mx).
  replace (Z.min c mx) with (- c') by (unfold c'; lia).
  replace mx with (- m') by (unfold m'; lia).
  assert (Hc' : 0 < c' <= 2 ^ 31) by (unfold c'; lia).
  assert (Hm' : 0 < m' <= 2 ^ 31) by (unfold m'; lia).
  rewrite (float_of_int_opp c'), (float_of_int_opp m') by lia.
  destruct (scaled_normal k c' m' Hk Hc' Hm') as (d & m & e & _ & N).
  destruct (float_of_int_normal c' Hc') as (ma & ea & [Ea _] & _).
  destruct (float_of_int_normal m' Hm') as (mb & eb & [Eb _] & _).
  rewrite Ea, Eb in *. cbn [SFopp negb].
  rewrite float_div_opp_both.
  now rewrite (int_of_float_normal _ _ _ N).
Qed.

(** X14. With a negative maximum the clamping keeps the current value at or
    below the maximum, so the ratio is at least one: the percentage, when
    printed, is never below 100 and the bar never has fewer than ten filled
    cells (both are exactly 100 and 10 from the maximum upwards); once the
    current value is at or below twice the maximum, twenty or more cells are
    requested from the array of ten and [update] is undefined. *)
Theorem X14_negative_maximum_never_below_full :
  forall (mx cur : Z),
    INT_MIN <= mx < 0 -> int_range cur ->
    (forall p, loading_waiter.percent mx cur = Some p -> 100 <= p)
    /\ (forall n, loading_waiter.count_to_draw mx cur = Some n -> 10 <= n)
    /\ (mx <= cur ->
        loading_waiter.percent mx cur = Some 100
        /\ loading_waiter.count_to_draw mx cur = Some 10)
    /\ (cur <= 2 * mx ->
        forall self w,
          loading_waiter.max_value self = mx ->
          loading_waiter.update self cur w = Undef).
Proof.
  unfold int_range, INT_MIN, INT_MAX. intros mx cur Hm Hc.
  assert (Hge : forall k, 0 < k <= 2 ^ 31 -> magnitude k (- mx) (- mx) = k ->
                forall v, scaled k mx cur = Some v -> k <= v).
  { intros k Hk Hfull v.
    rewrite (scaled_negative_maximum k mx cur Hk ltac:(lia) ltac:(lia)).
    destruct (_ <=? _); [|discriminate]. intros [= <-].
    apply Z.le_trans with (magnitude k (- mx) (- mx)); [lia|].
    apply magnitude_mono; lia. }
  split; [|split; [|split]].
  - intros p. rewrite percent_scaled.
    apply Hge; [lia|]. apply magnitude_full_100. lia.
  - intros n. rewrite count_to_draw_scaled.
    apply Hge; [lia|]. apply magnitude_full_10. lia.
  - intros Hfull. unfold loading_waiter.percent, loading_waiter.count_to_draw.
    rewrite (percentage_full mx cur); [split; reflexivity | lia | | exact Hfull].
    unfold int_range, INT_MIN, INT_MAX. lia.
  - intros Htwice self w Hmx. unfold loading_waiter.update. rewrite Hmx.
    destruct (loading_waiter.percent mx cur) as [p|]; [|reflexivity].
    destruct (loading_waiter.count_to_draw mx cur) as [n|] eqn:Hn; [|reflexivity].
    rewrite count_to_draw_scaled in Hn.
    rewrite (scaled_negative_maximum 10 mx cur ltac:(lia) ltac:(lia) ltac:(lia)) in Hn.
    destruct (_ <=? _); [|discriminate]. injection Hn as <-.
    pose proof (magnitude_mono 10 (- mx) (2 * - mx) (- Z.min cur mx)
                  ltac:(lia) ltac:(lia) ltac:(lia) ltac:(lia)) as Hmono.
    rewrite (magnitude_double_10 (- mx)) in Hmono by lia.
    destruct (Z.leb_spec (magnitude 10 (- mx) (- Z.min cur mx)) loading_waiter.length)
      as [Hle|Hgt].
    + change loading_waiter.length with 10 in Hle. lia.
    + rewrite andb_false_r. reflexivity.
Qed.

Lemma X14_witness :
  (forall p, loading_waiter.percent (-100) (-105) = Some p -> 100 <= p)
  /\ loading_waiter.update (waiter (-100) false) (-200) quiet_world = Undef.
Proof.
  destruct (X14_negative_maximum_never_below_full (-100) (-105)) as (H1 & _).
  { unfold INT_MIN. lia. }
  { unfold int_range, INT_MIN, INT_MAX. lia. }
  destruct (X14_negative_maximum_never_below_full (-100) (-200)) as (_ & _ & _ & H2).
  { unfold INT_MIN. lia. }
  { unfold int_range, INT_MIN, INT_MAX. lia. }
  split; [exact H1|]. apply H2; [lia | reflexivity].
Defined.

(** ** Any positive maximum *)

(** The quotient of two numbers known to one part in [2 ^ 24]. *)
Lemma quotient_near (a b C M : Q) :
  (0 < C)%Q -> (0 < M)%Q ->
  (C * (1 - (1 # 16777216)) <= a /\ a <= C * (1 + (1 # 16777216)))%Q ->
  (M * (1 - (1 # 16777216)) <= b /\ b <= M * (1 + (1 # 16777216)))%Q ->
  (C / M * (1 - (2 # 16777216)) <= a / b /\ a / b <= C / M * (1 + (3 # 16777216)))%Q.
Proof.
  intros HC HM [Ha1 Ha2] [Hb1 Hb2].
  assert (Hb : (0 < b)%Q) by lra.
  set (y := (C / M)%Q).
  assert (Hy : (0 < y)%Q) by (unfold y; apply Qlt_shift_div_l; lra).
  assert (HyM : (y * M == C)%Q) by (unfold y; field; lra).
  split.
  - apply Qle_shift_div_l; [exact Hb|].
    apply Qle_trans with (y * (1 - (2 # 16777216)) * (M * (1 + (1 # 16777216))))%Q.
    + rewrite !(Qmult_comm (y * (1 - (2 # 16777216)))).
      apply Qmult_le_compat_r; [exact Hb2|].
      apply Qmult_le_0_compat; lra.
    + assert (E : (y * (1 - (2 # 16777216)) * (M * (1 + (1 # 16777216)))
                   == C * ((1 - (2 # 16777216)) * (1 + (1 # 16777216))))%Q).
      { rewrite <- HyM. ring. }
      rewrite E. lra.
  - apply Qle_shift_div_r; [exact Hb|].
    apply Qle_trans with (y * (1 + (3 # 16777216)) * (M * (1 - (1 # 16777216))))%Q.
    + assert (E : (y * (1 + (3 # 16777216)) * (M * (1 - (1 # 16777216)))
                   == C * ((1 + (3 # 16777216)) * (1 - (1 # 16777216))))%Q).
      { rewrite <- HyM. ring. }
      rewrite E. lra.
    + rewrite !(Qmult_comm (y * (1 + (3 # 16777216)))).
      apply Qmult_le_compat_r; [exact Hb1|].
      apply Qmult_le_0_compat; lra.
Qed.

(** The single-precision value of [k * c / mx] is within [1 / 30000] of the
    exact quotient for every [c <= mx] that fits an [int], [k] up to 100. *)
Lemma scaled_value_close (k mx c : Z) :
  0 < k <= 100 -> 0 < mx <= 2 ^ 31 -> 0 < c <= mx ->
  let r := value (float_mul (float_div (float_of_int c) (float_of_int mx))
                            (float_of_int k)) in
  let x := (inject_Z (k * c) / inject_Z mx)%Q in
  (x - (1 # 30000) <= r /\ r <= x + (1 # 30000))%Q.
Proof.
  intros Hk Hm Hc r x.
  destruct (ratio_normal c mx ltac:(lia) ltac:(lia)) as (d1 & m1 & e1 & R1 & _).
  destruct (scaled_normal k c mx ltac:(lia) ltac:(lia) ltac:(lia)) as (d2 & m2 & e2 & R2 & _).
  destruct (float_of_int_normal c ltac:(lia)) as (? & ? & _ & _ & Rc).
  destruct (float_of_int_normal mx ltac:(lia)) as (? & ? & _ & _ & Rm).
  apply rounded_error in Rc, Rm.
  pose proof (float_of_int_exact k ltac:(lia)) as Ek.
  assert (Hmq : (0 < inject_Z mx)%Q) by (rewrite <- (Zlt_Qlt 0); lia).
  assert (Hcq : (0 < inject_Z c)%Q) by (rewrite <- (Zlt_Qlt 0); lia).
  assert (Hkq : (0 < inject_Z k)%Q) by (rewrite <- (Zlt_Qlt 0); lia).
  assert (Hcm : (inject_Z c <= inject_Z mx)%Q) by (rewrite <- Zle_Qle; lia).
  assert (Hk100 : (inject_Z k <= 100)%Q).
  { change 100%Q with (inject_Z 100). rewrite <- Zle_Qle. lia. }
  pose proof (quotient_near _ _ _ _ Hcq Hmq Rc Rm) as [Y1 Y2].
  apply rounded_error in R1.
  set (y := (inject_Z c / inject_Z mx)%Q) in *.
  set (y' := (value (float_of_int c) / value (float_of_int mx))%Q) in *.
  set (q := value (float_div (float_of_int c) (float_of_int mx))) in *.
  assert (E2 : (q * value (float_of_int k) == q * inject_Z k)%Q) by (now rewrite Ek).
  apply (rounded_comp _ _ _ _ E2) in R2. apply rounded_error in R2.
  fold r in R2.
  assert (Hy0 : (0 < y)%Q).
  { unfold y. apply Qlt_shift_div_l; [exact Hmq|]. lra. }
  assert (Hy1 : (y <= 1)%Q).
  { unfold y. apply Qle_shift_div_r; [exact Hmq|]. lra. }
  set (K := inject_Z k) in *.
  set (z := (y * K)%Q).
  assert (Hx : (x == z)%Q).
  { unfold x, z, y, K. rewrite inject_Z_mult. field. lra. }
  assert (Hz0 : (0 <= z)%Q).
  { unfold z. apply Qmult_le_0_compat; lra. }
  assert (Hz1 : (z <= 100)%Q).
  { unfold z. apply Qle_trans with (1 * K)%Q; [|lra].
    apply Qmult_le_compat_r; lra. }
  set (lo := (y * ((1 - (2 # 16777216)) * (1 - (1 # 16777216))))%Q).
  set (hi := (y * ((1 + (3 # 16777216)) * (1 + (1 # 16777216))))%Q).
  assert (Q1 : (lo <= q)%Q) by (unfold lo; lra).
  assert (Q2 : (q <= hi)%Q) by (unfold hi; lra).
  assert (T1 : (z * ((1 - (2 # 16777216)) * (1 - (1 # 16777216))) <= q * K)%Q).
  { apply Qle_trans with (lo * K)%Q.
    - unfold z, lo. apply Qle_lteq. right. ring.
    - apply Qmult_le_compat_r; lra. }
  assert (T2 : (q * K <= z * ((1 + (3 # 16777216)) * (1 + (1 # 16777216))))%Q).
  { apply Qle_trans with (hi * K)%Q.
    - apply Qmult_le_compat_r; lra.
    - unfold z, hi. apply Qle_lteq. right. ring. }
  set (t := (q * K)%Q) in *.
  rewrite Hx. destruct R2 as [R2 R3]. split; lra.
Qed.

Lemma floor_close_quotient (r : Q) (a mx : Z) :
  0 <= a -> 0 < mx ->
  (inject_Z a / inject_Z mx - (1 # 30000) <= r
   /\ r <= inject_Z a / inject_Z mx + (1 # 30000))%Q ->
  a / mx - 1 <= Qfloor r <= a / mx + 1.
Proof.
  intros Ha Hm [Hl Hu].
  pose proof (Z.div_mod a mx ltac:(lia)) as Hdm.
  pose proof (Z.mod_pos_bound a mx ltac:(lia)) as Hrho.
  set (E := a / mx) in *. set (rho := a mod mx) in *.
  assert (Hmq : (0 < inject_Z mx)%Q) by (rewrite <- (Zlt_Qlt 0); lia).
  set (x := (inject_Z a / inject_Z mx)%Q) in *.
  assert (Hx1 : (inject_Z E <= x)%Q).
  { unfold x. apply Qle_shift_div_l; [exact Hmq|].
    rewrite <- inject_Z_mult, <- Zle_Qle. nia. }
  assert (Hx2 : (x <= inject_Z E + 1)%Q).
  { unfold x. apply Qle_shift_div_r; [exact Hmq|].
    change 1%Q with (inject_Z 1).
    rewrite <- inject_Z_plus, <- inject_Z_mult, <- Zle_Qle. nia. }
  split.
  - rewrite <- (Qfloor_Z (E - 1)). apply Qfloor_resp_le.
    rewrite inject_Z_sub. change (inject_Z 1) with 1%Q. lra.
  - pose proof (Qfloor_le r) as Fl.
    assert (H : (inject_Z (Qfloor r) < inject_Z (E + 2))%Q).
    { rewrite inject_Z_plus. change (inject_Z 2) with 2%Q. lra. }
    rewrite <- Zlt_Qlt in H. lia.
Qed.

Lemma scaled_close (k mx cur : Z) :
  0 < k <= 100 -> magnitude k mx mx = k ->
  0 < mx <= INT_MAX -> 0 <= cur <= INT_MAX ->
  exists v,
    scaled k mx cur = Some v
    /\ k * Z.min cur mx / mx - 1 <= v <= k * Z.min cur mx / mx + 1
    /\ 0 <= v <= k.
Proof.
  unfold INT_MAX. intros Hk Hfull Hm Hc.
  destruct (scaled_defined k mx cur ltac:(lia) Hfull ltac:(lia) ltac:(lia))
    as (v & Hv & Hrange & Hmag).
  exists v. split; [exact Hv|]. split; [|exact Hrange].
  destruct (Z.eq_dec cur 0) as [->|Hne].
  - rewrite (scaled_zero k mx ltac:(lia) ltac:(lia)) in Hv. injection Hv as <-.
    replace (Z.min 0 mx) with 0 by lia. rewrite Z.mul_0_r.
    change (0 / mx) with 0. lia.
  - rewrite (Hmag ltac:(lia)). unfold magnitude.
    set (c := Z.min cur mx).
    pose proof (scaled_value_close k mx c Hk ltac:(lia) ltac:(lia)) as Hnear.
    cbv zeta in Hnear.
    apply (floor_close_quotient _ (k * c) mx ltac:(lia) ltac:(lia) Hnear).
Qed.

(** X15. For every positive maximum and non-negative current value that fit
    an [int], [update] is defined and the percentage it prints differs from
    the exact integer percentage of the clamped value by at most one, in
    either direction, and lies between 0 and 100; the number of filled cells
    likewise, between 0 and 10. Above 16777216 the bar can show 100% before
    the maximum is reached: 16777216 of 16777217 is printed as 100%. *)
Theorem X15_percent_within_one_for_any_maximum :
  (forall (mx cur : Z),
      0 < mx <= INT_MAX -> 0 <= cur <= INT_MAX ->
      let c := Z.min cur mx in
      exists p n,
        loading_waiter.percent mx cur = Some p
        /\ loading_waiter.count_to_draw mx cur = Some n
        /\ 100 * c / mx - 1 <= p <= 100 * c / mx + 1
        /\ 10 * c / mx - 1 <= n <= 10 * c / mx + 1
        /\ 0 <= p <= 100 /\ 0 <= n <= 10)
  /\ (loading_waiter.percent 16777217 16777216 = Some 100
      /\ 100 * 16777216 / 16777217 = 99).
Proof.
  split; [|split; reflexivity].
  intros mx cur Hm Hc c.
  destruct (scaled_close 100 mx cur ltac:(lia)
              (magnitude_full_100 mx ltac:(unfold INT_MAX in Hm; lia)) Hm Hc)
    as (p & Hp & Hpb & Hpr).
  destruct (scaled_close 10 mx cur ltac:(lia)
              (magnitude_full_10 mx ltac:(unfold INT_MAX in Hm; lia)) Hm Hc)
    as (n & Hn & Hnb & Hnr).
  exists p, n. rewrite percent_scaled, count_to_draw_scaled. subst c.
  split; [exact Hp|]. split; [exact Hn|]. split; [exact Hpb|]. split; [exact Hnb|].
  split; [exact Hpr | exact Hnr].
Qed.

Lemma X15_witness :
  exists p n,
    loading_waiter.percent 2147483647 2147483000 = Some p
    /\ loading_waiter.count_to_draw 2147483647 2147483000 = Some n
    /\ 100 * Z.min 2147483000 2147483647 / 2147483647 - 1 <= p
       <= 100 * Z.min 2147483000 2147483647 / 2147483647 + 1
    /\ 10 * Z.min 2147483000 2147483647 / 2147483647 - 1 <= n
       <= 10 * Z.min 2147483000 2147483647 / 2147483647 + 1
    /\ 0 <= p <= 100 /\ 0 <= n <= 10.
Proof.
  apply (proj1 X15_percent_within_one_for_any_maximum 2147483647 2147483000);
    unfold INT_MAX; lia.
Defined.

(** ** Current values below zero *)

Lemma magnitude_10_from_fifth (mx c : Z) :
  0 < mx <= 2 ^ 31 - 1 -> 0 < c <= 2 ^ 31 -> mx <= 5 * c ->
  1 <= magnitude 10 mx c.
Proof.
  intros Hm Hc Hfifth.
  destruct (Z.le_gt_cases c mx) as [Hle|Hgt].
  - pose proof (scaled_value_close 10 mx c ltac:(lia) ltac:(lia) ltac:(lia)) as Hnear.
    cbv zeta in Hnear.
    pose proof (floor_close_quotient _ (10 * c) mx ltac:(lia) ltac:(lia) Hnear) as [Hlow _].
    assert (2 <= 10 * c / mx) by (apply Z.div_le_lower_bound; lia).
    unfold magnitude. lia.
  - pose proof (magnitude_mono 10 mx mx c ltac:(lia) ltac:(lia) ltac:(lia) ltac:(lia)).
    rewrite (magnitude_full_10 mx) in H by lia. lia.
Qed.

(** X16. Nothing raises a negative current value to zero, and the number of
    filled cells is then the negated integer part of ten times its ratio to
    the maximum: for a positive maximum, a current value at or below minus a
    fifth of the maximum asks [printf] for a negative number of cells, which
    lifts the limit on reading the unterminated array, and [update] is
    undefined. *)
Theorem X16_far_negative_value_is_undefined :
  forall (self : loading_waiter.state) (cur : Z) (w : world),
    0 < loading_waiter.max_value self <= INT_MAX ->
    INT_MIN <= cur ->
    5 * cur <= - loading_waiter.max_value self ->
    (forall n, loading_waiter.count_to_draw (loading_waiter.max_value self) cur = Some n ->
               n < 0)
    /\ loading_waiter.update self cur w = Undef.
Proof.
  unfold INT_MIN, INT_MAX. intros self cur w Hm Hc Hfifth.
  set (mx := loading_waiter.max_value self) in *.
  pose proof (magnitude_10_from_fifth mx (- cur) ltac:(lia) ltac:(lia) ltac:(lia)) as Hg.
  assert (Hneg : forall n, loading_waiter.count_to_draw mx cur = Some n -> n < 0).
  { intros n. rewrite count_to_draw_scaled.
    rewrite (scaled_neg 10 mx cur ltac:(lia) ltac:(lia) ltac:(lia)).
    destruct (_ <=? _); [|discriminate]. intros [= <-]. lia. }
  split; [exact Hneg|].
  unfold loading_waiter.update. fold mx.
  destruct (loading_waiter.percent mx cur) as [p|]; [|reflexivity].
  destruct (loading_waiter.count_to_draw mx cur) as [n|] eqn:Hn; [|reflexivity].
  specialize (Hneg n eq_refl).
  destruct (Z.leb_spec 0 n); [lia | reflexivity].
Qed.

Lemma X16_witness :
  (forall n, loading_waiter.count_to_draw 1000 (-200) = Some n -> n < 0)
  /\ loading_waiter.update (waiter 1000 false) (-200) quiet_world = Undef.
Proof.
  apply (X16_far_negative_value_is_undefined (waiter 1000 false) (-200) quiet_world);
    unfold INT_MIN, INT_MAX; simpl; lia.
Defined.
